(** * RiadX-OS kernel core: allocator, page mapper, scheduler, KILL syscall

    A shallow embedding of [kernel/memory.cpp], [kernel/process.cpp] and
    [kernel/syscalls.cpp], and the properties of the design document that
    concern them.

    Conventions of the embedding.
    - [size_t], [uint64_t] and [uintptr_t] are 64-bit: values are [Z], and
      an operation of the source that can leave the range is followed by
      [wrap64].  Pointers are [Z] too, [0] is [nullptr]; pointer arithmetic
      inside the pool is plain addition.
    - A [std::vector] is a [list] in table order, a [std::map] a [gmap].
      The block table carries the capacity of its vector, because the
      allocator pushes to the vector while it holds a reference to one of
      its elements.
    - What the C++ standard leaves to the library (the order [std::sort]
      gives elements that compare equal, the capacity a vector grows to) is
      a parameter of the operations that depend on it.
    - Every public operation is one atomic step under its mutex; an
      operation that locks a mutex its thread already holds is undefined.
    - An operation whose C++ behaviour is undefined on some input returns
      [None] there. *)

From Stdlib Require Import ZArith Lia Bool.
From stdpp Require Import base tactics option list gmap strings sorting.

Local Open Scope Z_scope.

(** ** Machine arithmetic *)

Definition wrap64 (x : Z) : Z := x mod 2 ^ 64.

Definition INT_MAX : Z := 2147483647.

(** [static_cast<int>] of a [uint64_t]: the low 32 bits, read as signed. *)
Definition to_int (x : Z) : Z := (x + 2 ^ 31) mod 2 ^ 32 - 2 ^ 31.

(** * The allocator and the page mapper ([MemoryManager]) *)

Module Memory.

Definition PAGE_SIZE : Z := 4096.
Definition MEMORY_POOL_SIZE : Z := 1024 * 1024 * 16.
Definition VIRTUAL_BASE : Z := 0x1000000.

Record MemoryBlock := mkBlock {
  address : Z;
  size : Z;
  is_free : bool;
  process_id : Z
}.

(** The bit-field [physical_address : 40] holds values below [2^40]; the
    flag bits the source never reads or writes after construction are left
    out. *)
Record PageTableEntry := mkPTE {
  physical_address : Z;
  present : bool;
  writable : bool;
  user_accessible : bool
}.

(** [blocks_capacity] is [memory_blocks.capacity()]: a [push_back] on a
    vector whose size has reached its capacity moves the elements to new
    storage, and every reference into the vector taken before it
    dangles. *)
Record MemoryManager := mkMM {
  memory_blocks : list MemoryBlock;
  blocks_capacity : nat;
  allocated_blocks : gmap Z Z;
  memory_pool : Z;
  pool_size : Z;
  page_table : list PageTableEntry;
  next_virtual_address : Z
}.

(** ** What the C++ standard leaves to the library

    [std_sort] is [std::sort] with the comparator of [coalesce_free_blocks]
    ([a.address < b.address]): the standard promises a sorted rearrangement
    and leaves the order of blocks with equal address open.
    [vector_growth] gives the capacity a [std::vector] takes when a
    [push_back] finds it full, from the old capacity: some number above
    it. *)
Record StdLib := mkLib {
  std_sort : list MemoryBlock -> list MemoryBlock;
  vector_growth : nat -> nat
}.

Definition addr_le (a b : MemoryBlock) : Prop := address a <= address b.

Definition lib_ok (L : StdLib) : Prop :=
  (forall bs, std_sort L bs ≡ₚ bs) /\
  (forall bs, Sorted addr_le (std_sort L bs)) /\
  (forall n, (n < vector_growth L n)%nat).

(** A library for the sample runs: insertion sort that keeps blocks of equal
    address in table order, and capacities 1, 2, 4, 8, ... *)
Fixpoint insert_block (b : MemoryBlock) (l : list MemoryBlock) : list MemoryBlock :=
  match l with
  | [] => [b]
  | c :: l' =>
      if address b <=? address c then b :: c :: l'
      else c :: insert_block b l'
  end.

Fixpoint sort_blocks (l : list MemoryBlock) : list MemoryBlock :=
  match l with
  | [] => []
  | b :: l' => insert_block b (sort_blocks l')
  end.

(** Another one, for contrast: it puts a block behind the blocks of equal
    address already placed, so that blocks of equal address come out in
    reverse table order. *)
Fixpoint insert_behind (b : MemoryBlock) (l : list MemoryBlock) : list MemoryBlock :=
  match l with
  | [] => [b]
  | c :: l' =>
      if address b <? address c then b :: c :: l'
      else c :: insert_behind b l'
  end.

Fixpoint sort_behind (l : list MemoryBlock) : list MemoryBlock :=
  match l with
  | [] => []
  | b :: l' => insert_behind b (sort_behind l')
  end.

Definition doubling (n : nat) : nat := Nat.max 1 (2 * n).

Definition sample_lib : StdLib := mkLib sort_blocks doubling.

Definition other_lib : StdLib := mkLib sort_behind doubling.

(** [MemoryManager::MemoryManager()] *)
Definition new_manager : MemoryManager :=
  mkMM [] 0 ∅ 0 MEMORY_POOL_SIZE [] VIRTUAL_BASE.

Definition set_blocks (bs : list MemoryBlock) (mm : MemoryManager) : MemoryManager :=
  mkMM bs (blocks_capacity mm) (allocated_blocks mm) (memory_pool mm) (pool_size mm)
       (page_table mm) (next_virtual_address mm).

Definition set_page_table (pt : list PageTableEntry) (mm : MemoryManager) : MemoryManager :=
  mkMM (memory_blocks mm) (blocks_capacity mm) (allocated_blocks mm) (memory_pool mm)
       (pool_size mm) pt (next_virtual_address mm).

(** ** initialize

    [pool] is the pointer [std::malloc(pool_size)] returned, [0] on failure.
    The [push_back] of the initial block holds no reference into the
    vector: on a full vector it grows the capacity and nothing else.
    [page_table.resize(1024)] keeps the entries already there and appends
    value-initialised ones; the loop then resets the three flags of every
    entry. *)
Definition zero_entry : PageTableEntry := mkPTE 0 false false false.

Definition resize_table (n : nat) (pt : list PageTableEntry) : list PageTableEntry :=
  take n pt ++ replicate (n - length pt) zero_entry.

Definition reset_entry (e : PageTableEntry) : PageTableEntry :=
  mkPTE (physical_address e) false true true.

(** The capacity after a [push_back] on a vector of [len] elements. *)
Definition push_capacity (L : StdLib) (len cap : nat) : nat :=
  if (len <? cap)%nat then cap else vector_growth L cap.

Definition initialize (L : StdLib) (pool : Z) (mm : MemoryManager) : bool * MemoryManager :=
  if pool =? 0 then
    (false, mkMM (memory_blocks mm) (blocks_capacity mm) (allocated_blocks mm) 0
                 (pool_size mm) (page_table mm) (next_virtual_address mm))
  else
    (true, mkMM (memory_blocks mm ++ [mkBlock pool (pool_size mm) true (-1)])
                (push_capacity L (length (memory_blocks mm)) (blocks_capacity mm))
                (allocated_blocks mm) pool (pool_size mm)
                (reset_entry <$> resize_table 1024 (page_table mm))
                (next_virtual_address mm)).

(** ** shutdown: the pool is freed and its pointer reset, the three tables
    are cleared; [clear()] keeps the capacity of the vector, and
    [pool_size] and [next_virtual_address] stay. *)
Definition shutdown (mm : MemoryManager) : MemoryManager :=
  mkMM [] (blocks_capacity mm) ∅ 0 (pool_size mm) [] (next_virtual_address mm).

(** ** first_fit_allocate

    The range-for visits the blocks in table order and stops at the first
    free block that is large enough: [first_fit_scan] returns that block
    with the blocks before and after it.

    [block] is a reference into the vector.  When the block is larger than
    the request, the remainder is pushed to the back of the vector first,
    and [block.size], [block.is_free] and [block.address] are written and
    read through the reference afterwards.  With room left in the vector
    the reference still denotes the visited element, which is shrunk and
    marked used in place.  On a full vector the [push_back] has moved the
    elements: the writes and the read go to freed storage, which is
    undefined. *)
Definition fits (sz : Z) (b : MemoryBlock) : bool := is_free b && (sz <=? size b).

Fixpoint first_fit_scan (sz : Z) (bs : list MemoryBlock)
  : option (list MemoryBlock * MemoryBlock * list MemoryBlock) :=
  match bs with
  | [] => None
  | b :: rest =>
      if fits sz b then Some ([], b, rest)
      else
        match first_fit_scan sz rest with
        | Some (pre, c, post) => Some (b :: pre, c, post)
        | None => None
        end
  end.

(** The visited block after [block.size = size; block.is_free = false]. *)
Definition take_block (sz : Z) (b : MemoryBlock) : MemoryBlock :=
  mkBlock (address b) sz false (process_id b).

(** [new_block] of the split. *)
Definition remainder (sz : Z) (b : MemoryBlock) : MemoryBlock :=
  mkBlock (address b + sz) (size b - sz) true (-1).

Definition first_fit_allocate (sz : Z) (cap : nat) (bs : list MemoryBlock)
  : option (Z * list MemoryBlock) :=
  match first_fit_scan sz bs with
  | None => Some (0, bs)
  | Some (pre, b, post) =>
      if sz <? size b then
        if (length bs <? cap)%nat
        then Some (address b, pre ++ take_block sz b :: post ++ [remainder sz b])
        else None
      else Some (address b, pre ++ take_block sz b :: post)
  end.

(** ** allocate *)

(** [(size + 7) & ~7] on [size_t]. *)
Definition align8 (sz : Z) : Z := Z.land (wrap64 (sz + 7)) (wrap64 (Z.lnot 7)).

Definition allocate (sz : Z) (mm : MemoryManager) : option (Z * MemoryManager) :=
  if sz =? 0 then Some (0, mm)
  else
    let sz' := align8 sz in
    '(ptr, bs) ← first_fit_allocate sz' (blocks_capacity mm) (memory_blocks mm);
    if ptr =? 0 then Some (0, set_blocks bs mm)
    else Some (ptr, mkMM bs (blocks_capacity mm) (<[ptr := sz']> (allocated_blocks mm))
                         (memory_pool mm) (pool_size mm) (page_table mm)
                         (next_virtual_address mm)).

(** ** allocate_aligned *)
Definition allocate_aligned (sz alignment : Z) (mm : MemoryManager)
  : option (Z * MemoryManager) :=
  if (alignment =? 0) || negb (Z.land alignment (wrap64 (alignment - 1)) =? 0)
  then Some (0, mm)
  else
    let aligned_size := wrap64 (sz + alignment - 1) in
    '(ptr, mm') ← allocate aligned_size mm;
    if ptr =? 0 then Some (0, mm')
    else Some (Z.land (wrap64 (ptr + alignment - 1))
                      (wrap64 (Z.lnot (wrap64 (alignment - 1)))), mm').

(** ** coalesce_free_blocks

    The merge loop with [cur = memory_blocks[i]] and [rest] the blocks after
    it: on a merge [i] stays, otherwise it moves on. *)
Definition mergeable (cur nxt : MemoryBlock) : bool :=
  is_free cur && is_free nxt && (address cur + size cur =? address nxt).

Fixpoint merge_from (cur : MemoryBlock) (rest : list MemoryBlock) : list MemoryBlock :=
  match rest with
  | [] => [cur]
  | nxt :: rest' =>
      if mergeable cur nxt
      then merge_from (mkBlock (address cur) (wrap64 (size cur + size nxt))
                               (is_free cur) (process_id cur)) rest'
      else cur :: merge_from nxt rest'
  end.

Definition merge_blocks (bs : list MemoryBlock) : list MemoryBlock :=
  match bs with
  | [] => []
  | b :: rest => merge_from b rest
  end.

(** On an empty table [memory_blocks.size() - 1] wraps around and the loop
    indexes past the end: undefined. *)
Definition coalesce_free_blocks (L : StdLib) (bs : list MemoryBlock)
  : option (list MemoryBlock) :=
  match bs with
  | [] => None
  | _ :: _ => Some (merge_blocks (std_sort L bs))
  end.

(** ** deallocate *)
Inductive FreeReport := FreeNull | FreeInvalid | FreeDone.

(** The loop that marks the first block at [ptr] free. *)
Fixpoint release_block (ptr : Z) (bs : list MemoryBlock) : list MemoryBlock :=
  match bs with
  | [] => []
  | b :: rest =>
      if address b =? ptr
      then mkBlock (address b) (size b) true (-1) :: rest
      else b :: release_block ptr rest
  end.

Definition deallocate (L : StdLib) (ptr : Z) (mm : MemoryManager)
  : option (FreeReport * MemoryManager) :=
  if ptr =? 0 then Some (FreeNull, mm)
  else
    match allocated_blocks mm !! ptr with
    | None => Some (FreeInvalid, mm)
    | Some _ =>
        bs ← coalesce_free_blocks L (release_block ptr (memory_blocks mm));
        Some (FreeDone,
              mkMM bs (blocks_capacity mm) (delete ptr (allocated_blocks mm))
                   (memory_pool mm) (pool_size mm) (page_table mm)
                   (next_virtual_address mm))
    end.

(** ** Memory information *)
Definition get_total_memory (mm : MemoryManager) : Z := pool_size mm.

Definition get_free_memory (mm : MemoryManager) : Z :=
  fold_left (fun acc b => if is_free b then wrap64 (acc + size b) else acc)
            (memory_blocks mm) 0.

Definition get_used_memory (mm : MemoryManager) : Z :=
  wrap64 (get_total_memory mm - get_free_memory mm).

(** ** Process memory *)
Fixpoint stamp_block (ptr pid : Z) (bs : list MemoryBlock) : list MemoryBlock :=
  match bs with
  | [] => []
  | b :: rest =>
      if address b =? ptr
      then mkBlock (address b) (size b) (is_free b) pid :: rest
      else b :: stamp_block ptr pid rest
  end.

Definition allocate_for_process (pid sz : Z) (mm : MemoryManager)
  : option (Z * MemoryManager) :=
  '(ptr, mm') ← allocate sz mm;
  if ptr =? 0 then Some (0, mm')
  else Some (ptr, set_blocks (stamp_block ptr pid (memory_blocks mm')) mm').

Definition release_owned (pid : Z) (b : MemoryBlock) : MemoryBlock :=
  if (process_id b =? pid) && negb (is_free b)
  then mkBlock (address b) (size b) true (-1)
  else b.

Definition deallocate_process_memory (L : StdLib) (pid : Z) (mm : MemoryManager)
  : option MemoryManager :=
  bs ← coalesce_free_blocks L (release_owned pid <$> memory_blocks mm);
  Some (set_blocks bs mm).

(** ** Paging *)
Definition page_index (virtual_addr : Z) : nat :=
  Z.to_nat (wrap64 (virtual_addr - VIRTUAL_BASE) / PAGE_SIZE).

Definition map_page (virtual_addr physical_addr : Z) (mm : MemoryManager)
  : bool * MemoryManager :=
  let i := page_index virtual_addr in
  match page_table mm !! i with
  | Some e =>
      (true, set_page_table
               (<[i := mkPTE (Z.shiftr physical_addr 12 mod 2 ^ 40) true
                             (writable e) (user_accessible e)]> (page_table mm)) mm)
  | None => (false, mm)
  end.

Definition unmap_page (virtual_addr : Z) (mm : MemoryManager) : MemoryManager :=
  let i := page_index virtual_addr in
  match page_table mm !! i with
  | Some e =>
      set_page_table
        (<[i := mkPTE 0 false (writable e) (user_accessible e)]> (page_table mm)) mm
  | None => mm
  end.

Definition virtual_to_physical (virtual_addr : Z) (mm : MemoryManager) : Z :=
  match page_table mm !! page_index virtual_addr with
  | Some e =>
      if present e
      then Z.lor (Z.shiftl (physical_address e) 12)
                 (Z.land virtual_addr (PAGE_SIZE - 1))
      else 0
  | None => 0
  end.

Definition allocate_virtual_page (mm : MemoryManager) : option (Z * MemoryManager) :=
  '(page, mm1) ← allocate_aligned PAGE_SIZE PAGE_SIZE mm;
  if page =? 0 then Some (0, mm1)
  else
    let virtual_addr := next_virtual_address mm1 in
    let mm2 := mkMM (memory_blocks mm1) (blocks_capacity mm1) (allocated_blocks mm1)
                    (memory_pool mm1) (pool_size mm1) (page_table mm1)
                    (wrap64 (virtual_addr + PAGE_SIZE)) in
    Some (virtual_addr, snd (map_page virtual_addr page mm2)).

Definition free_virtual_page (L : StdLib) (page : Z) (mm : MemoryManager)
  : option MemoryManager :=
  let physical_addr := virtual_to_physical page mm in
  if physical_addr =? 0 then Some mm
  else snd <$> deallocate L physical_addr (unmap_page page mm).

(** ** Runs of the allocator *)
Inductive Op :=
| OpInitialize (pool : Z)
| OpAllocate (sz : Z)
| OpAllocateAligned (sz alignment : Z)
| OpDeallocate (ptr : Z)
| OpCoalesce
| OpAllocateForProcess (pid sz : Z)
| OpDeallocateProcessMemory (pid : Z)
| OpAllocateVirtualPage
| OpFreeVirtualPage (page : Z).

Definition step (L : StdLib) (op : Op) (mm : MemoryManager) : option MemoryManager :=
  match op with
  | OpInitialize pool => Some (snd (initialize L pool mm))
  | OpAllocate sz => snd <$> allocate sz mm
  | OpAllocateAligned sz al => snd <$> allocate_aligned sz al mm
  | OpDeallocate ptr => snd <$> deallocate L ptr mm
  | OpCoalesce =>
      bs ← coalesce_free_blocks L (memory_blocks mm); Some (set_blocks bs mm)
  | OpAllocateForProcess pid sz => snd <$> allocate_for_process pid sz mm
  | OpDeallocateProcessMemory pid => deallocate_process_memory L pid mm
  | OpAllocateVirtualPage => snd <$> allocate_virtual_page mm
  | OpFreeVirtualPage page => free_virtual_page L page mm
  end.

Fixpoint run (L : StdLib) (ops : list Op) (mm : MemoryManager) : option MemoryManager :=
  match ops with
  | [] => Some mm
  | op :: ops' => mm' ← step L op mm; run L ops' mm'
  end.

Definition is_initialize (op : Op) : bool :=
  match op with OpInitialize _ => true | _ => false end.

(** ** Tiling of the arena

    [covers x b]: byte [x] lies in the span of [b].  The blocks tile the
    arena when every block lies inside it and every byte of it lies in the
    span of exactly one block. *)
Definition covers (x : Z) (b : MemoryBlock) : bool :=
  (address b <=? x) && (x <? address b + size b).

Fixpoint cover_count (x : Z) (bs : list MemoryBlock) : nat :=
  match bs with
  | [] => 0%nat
  | b :: rest => ((if covers x b then 1 else 0) + cover_count x rest)%nat
  end.

Definition within (pool psz : Z) (b : MemoryBlock) : Prop :=
  pool <= address b /\ 0 <= size b /\ address b + size b <= pool + psz.

Definition tiles (pool psz : Z) (bs : list MemoryBlock) : Prop :=
  Forall (within pool psz) bs /\
  forall x, pool <= x < pool + psz -> cover_count x bs = 1%nat.

Definition arena_tiled (mm : MemoryManager) : Prop :=
  tiles (memory_pool mm) (pool_size mm) (memory_blocks mm).

(** ** Coalesced tables *)

(** No block is followed in the table by a block it would be merged with. *)
Fixpoint coalesced (bs : list MemoryBlock) : bool :=
  match bs with
  | b :: (c :: _) as rest => negb (mergeable b c) && coalesced rest
  | _ => true
  end.

(** ** First fit in address order, as the design document words it: the
    lowest address of a free block that is large enough. *)
Definition lowest_fit (sz : Z) (bs : list MemoryBlock) : option Z :=
  address <$> List.find (fits sz) (sort_blocks bs).

(** ** Sizes *)
Fixpoint total_size (bs : list MemoryBlock) : Z :=
  match bs with
  | [] => 0
  | b :: rest => size b + total_size rest
  end.

Fixpoint free_size (bs : list MemoryBlock) : Z :=
  match bs with
  | [] => 0
  | b :: rest => (if is_free b then size b else 0) + free_size rest
  end.

(** The part of the span of [b] that lies in the first [k] bytes of the
    arena, and its sum over a table. *)
Definition clip (pool k : Z) (b : MemoryBlock) : Z :=
  Z.max 0 (Z.min (address b + size b) (pool + k) - Z.max (address b) pool).

Fixpoint clip_sum (pool k : Z) (bs : list MemoryBlock) : Z :=
  match bs with
  | [] => 0
  | b :: rest => clip pool k b + clip_sum pool k rest
  end.

Definition same_span (b c : MemoryBlock) : Prop :=
  address b = address c /\ size b = size c.

(** ** Invariants of a run *)
Definition arena_inv (mm : MemoryManager) : Prop :=
  0 < pool_size mm < 2 ^ 64 /\ arena_tiled mm.

(** What an operation of a session keeps: the pool, the capacity of the
    vector, and the table but for one more block at most. *)
Definition session_step (mm mm' : MemoryManager) : Prop :=
  memory_pool mm' = memory_pool mm /\
  pool_size mm' = pool_size mm /\
  blocks_capacity mm' = blocks_capacity mm /\
  (length (memory_blocks mm') <= S (length (memory_blocks mm)))%nat.

(** What the allocator proper leaves alone. *)
Definition vm_frame (mm : MemoryManager) : Z * Z * list PageTableEntry * Z :=
  (memory_pool mm, pool_size mm, page_table mm, next_virtual_address mm).

Definition slot_mapped (i : nat) (mm : MemoryManager) : Prop :=
  exists e, page_table mm !! i = Some e /\ present e = true /\ physical_address e <> 0.

(** [n] virtual pages have been handed out; the pool lies where a 40-bit
    frame number can reach it. *)
Definition vm_inv (n : Z) (mm : MemoryManager) : Prop :=
  arena_inv mm /\
  0 < memory_pool mm /\
  memory_pool mm + pool_size mm + PAGE_SIZE <= 2 ^ 52 /\
  length (page_table mm) = 1024%nat /\
  next_virtual_address mm = VIRTUAL_BASE + PAGE_SIZE * n.

(** [free_virtual_page] on an address of page slot [i]. *)
Definition frees_slot (i : nat) (op : Op) : bool :=
  match op with
  | OpFreeVirtualPage q => bool_decide (page_index q = i)
  | _ => false
  end.

(** [after L ops mm P]: the run is defined and ends in a state with [P]. *)
Definition after (L : StdLib) (ops : list Op) (mm : MemoryManager)
           (P : MemoryManager -> Prop) : Prop :=
  match run L ops mm with
  | Some mm' => P mm'
  | None => False
  end.

(** The state a defined call ends in ([mm] itself where it is not). *)
Definition state_after {A : Type} (mm : MemoryManager) (r : option (A * MemoryManager))
  : MemoryManager :=
  default mm (snd <$> r).

Definition value_of {A : Type} (d : A) (r : option (A * MemoryManager)) : A :=
  default d (fst <$> r).

(** ** Sample states *)
Definition demo_pool : Z := 0x10000000.

(** The arena the kernel starts with: one [initialize] after the
    constructor. *)
Definition fresh_init : MemoryManager := snd (initialize sample_lib demo_pool new_manager).

(** A manager whose vector has grown: five pools were set up one after the
    other, then [shutdown] cleared the tables. *)
Definition warm_manager : MemoryManager :=
  shutdown
    (fold_left (fun mm pool => snd (initialize sample_lib pool mm))
               [0x20000000; 0x30000000; 0x40000000; 0x50000000; 0x60000000]
               new_manager).

Definition demo_init : MemoryManager := snd (initialize sample_lib demo_pool warm_manager).
Definition demo_mm0 : MemoryManager := state_after demo_init (allocate 100 demo_init).
Definition demo_page : Z := value_of 0 (allocate_virtual_page demo_mm0).
Definition demo_mm1 : MemoryManager := state_after demo_mm0 (allocate_virtual_page demo_mm0).
Definition demo_ops : list Op := [OpAllocateVirtualPage; OpDeallocate demo_pool].

(** [n] virtual pages are taken and given back, one after the other. *)
Definition page_churn (n : nat) : list Op :=
  flat_map (fun i => [OpAllocateVirtualPage;
                      OpFreeVirtualPage (VIRTUAL_BASE + PAGE_SIZE * Z.of_nat i)])
           (seq 0 n).

(** A 16-byte block is freed and its first half allocated again. *)
Definition fragmented : option MemoryManager :=
  run sample_lib [OpAllocate 16; OpAllocate 8; OpDeallocate demo_pool; OpAllocate 8]
      demo_init.

(** Process 7 takes the whole pool and is then released as a whole. *)
Definition owner_released : option (Z * MemoryManager) :=
  '(p, mm1) ← allocate_for_process 7 MEMORY_POOL_SIZE fresh_init;
  mm2 ← deallocate_process_memory sample_lib 7 mm1;
  Some (p, mm2).

End Memory.

(** * The scheduler ([ProcessManager]) *)

Module Process.

Inductive ProcessState :=
| PROCESS_READY
| PROCESS_RUNNING
| PROCESS_BLOCKED
| PROCESS_TERMINATED.

Definition state_eqb (a b : ProcessState) : bool :=
  match a, b with
  | PROCESS_READY, PROCESS_READY
  | PROCESS_RUNNING, PROCESS_RUNNING
  | PROCESS_BLOCKED, PROCESS_BLOCKED
  | PROCESS_TERMINATED, PROCESS_TERMINATED => true
  | _, _ => false
  end.

(** How far the record's [process_thread] has come in [execute_process]:
    not yet at its first statement, inside the loop, or past its last
    statement. *)
Inductive ThreadPhase := ThreadCreated | ThreadLooping | ThreadFinished.

(** [environment] and [start_time] (a clock reading) play no role in any
    operation and are left out. *)
Record ProcessControlBlock := mkPCB {
  pid : Z;
  parent_pid : Z;
  state : ProcessState;
  executable_path : string;
  memory_base : Z;
  memory_size : Z;
  priority : Z;
  cpu_time : Z;
  process_thread : ThreadPhase;
  should_terminate : bool
}.

(** A [ProcessControlBlock*] is modelled by the pid of the record it points
    to: [create_pcb] gives every record its own pid and nothing changes it
    afterwards.  [terminate_process] destroys the record but does not reset
    [current_process]; the model keeps the stale pointer, and dereferencing
    it is undefined. *)
Record ProcessManager := mkPM {
  process_table : list ProcessControlBlock;
  pid_map : gmap Z Z;
  next_pid : Z;
  current_process : option Z;
  scheduler_running : bool
}.

(** [ProcessManager::ProcessManager()] *)
Definition new_manager : ProcessManager := mkPM [] ∅ 1 None false.

Definition initialize (pm : ProcessManager) : bool * ProcessManager :=
  (true, mkPM (process_table pm) (pid_map pm) (next_pid pm) (current_process pm) true).

Definition set_state (s : ProcessState) (p : ProcessControlBlock) : ProcessControlBlock :=
  mkPCB (pid p) (parent_pid p) s (executable_path p) (memory_base p) (memory_size p)
        (priority p) (cpu_time p) (process_thread p) (should_terminate p).

Definition set_priority (prio : Z) (p : ProcessControlBlock) : ProcessControlBlock :=
  mkPCB (pid p) (parent_pid p) (state p) (executable_path p) (memory_base p)
        (memory_size p) prio (cpu_time p) (process_thread p) (should_terminate p).

(** Reading and writing through a record pointer. *)
Definition deref (ptr : Z) (table : list ProcessControlBlock) : option ProcessControlBlock :=
  List.find (fun p => pid p =? ptr) table.

Definition with_pcb (ptr : Z) (f : ProcessControlBlock -> ProcessControlBlock)
           (table : list ProcessControlBlock) : list ProcessControlBlock :=
  (fun p => if pid p =? ptr then f p else p) <$> table.

Definition set_table (t : list ProcessControlBlock) (pm : ProcessManager) : ProcessManager :=
  mkPM t (pid_map pm) (next_pid pm) (current_process pm) (scheduler_running pm).

(** ** create_pcb

    [next_pid++] on an [int] that holds [INT_MAX] overflows, and
    [current_process->pid] on a stale pointer reads a destroyed record:
    both undefined. *)
Definition create_pcb (path : string) (pm : ProcessManager)
  : option (ProcessControlBlock * ProcessManager) :=
  if next_pid pm =? INT_MAX then None
  else
    parent ← match current_process pm with
             | Some cur => pid <$> deref cur (process_table pm)
             | None => Some 0
             end;
    Some (mkPCB (next_pid pm) parent PROCESS_READY path 0 0 1 0 ThreadCreated false,
          mkPM (process_table pm) (pid_map pm) (next_pid pm + 1)
               (current_process pm) (scheduler_running pm)).

(** ** load_executable: [mem] is what [std::malloc(64KB)] returned. *)
Definition load_executable (mem : Z) (p : ProcessControlBlock)
  : bool * ProcessControlBlock :=
  let p' := mkPCB (pid p) (parent_pid p) (state p) (executable_path p) mem (1024 * 64)
                  (priority p) (cpu_time p) (process_thread p) (should_terminate p) in
  (negb (mem =? 0), p').

(** ** create_process: returns the pid, [-1] on failure. *)
Definition create_process (path : string) (mem : Z) (pm : ProcessManager)
  : option (Z * ProcessManager) :=
  '(pcb, pm1) ← create_pcb path pm;
  let '(ok, pcb') := load_executable mem pcb in
  if ok then
    Some (pid pcb',
          mkPM (process_table pm1 ++ [pcb']) (<[pid pcb' := pid pcb']> (pid_map pm1))
               (next_pid pm1) (current_process pm1) (scheduler_running pm1))
  else Some (-1, pm1).

(** ** terminate_process

    The record is flagged, its thread joined, its memory freed, and the
    record erased from the map and the table; the intermediate writes are
    not observable afterwards. *)
Definition terminate_process (p : Z) (pm : ProcessManager) : bool * ProcessManager :=
  match pid_map pm !! p with
  | None => (false, pm)
  | Some _ =>
      (true, mkPM (List.filter (fun r => negb (pid r =? p)) (process_table pm))
                  (delete p (pid_map pm)) (next_pid pm) (current_process pm)
                  (scheduler_running pm))
  end.

(** ** suspend_process / resume_process *)
Definition suspend_process (p : Z) (pm : ProcessManager) : bool * ProcessManager :=
  match pid_map pm !! p with
  | Some ptr => (true, set_table (with_pcb ptr (set_state PROCESS_BLOCKED) (process_table pm)) pm)
  | None => (false, pm)
  end.

Definition resume_process (p : Z) (pm : ProcessManager) : bool * ProcessManager :=
  match pid_map pm !! p with
  | Some ptr =>
      match deref ptr (process_table pm) with
      | Some r =>
          if state_eqb (state r) PROCESS_BLOCKED
          then (true, set_table (with_pcb ptr (set_state PROCESS_READY) (process_table pm)) pm)
          else (false, pm)
      | None => (false, pm)
      end
  | None => (false, pm)
  end.

(** ** Scheduling *)

(** The scan of [select_next_process], started with [best_process],
    [highest_priority]. *)
Fixpoint select_scan (best : option Z) (highest : Z) (table : list ProcessControlBlock)
  : option Z :=
  match table with
  | [] => best
  | p :: rest =>
      if state_eqb (state p) PROCESS_READY && (highest <? priority p)
      then select_scan (Some (pid p)) (priority p) rest
      else select_scan best highest rest
  end.

Definition select_next_process (pm : ProcessManager) : option Z :=
  select_scan None (-1) (process_table pm).

Definition context_switch (old_proc : option Z) (new_proc : Z) (pm : ProcessManager)
  : option ProcessManager :=
  table ← match old_proc with
          | Some old =>
              _ ← deref old (process_table pm);
              Some (with_pcb old (set_state PROCESS_READY) (process_table pm))
          | None => Some (process_table pm)
          end;
  Some (mkPM (with_pcb new_proc (set_state PROCESS_RUNNING) table) (pid_map pm)
             (next_pid pm) (Some new_proc) (scheduler_running pm)).

Definition schedule (pm : ProcessManager) : option ProcessManager :=
  if negb (scheduler_running pm) then Some pm
  else
    match select_next_process pm with
    | Some next_process =>
        if bool_decide (Some next_process = current_process pm) then Some pm
        else context_switch (current_process pm) next_process pm
    | None => Some pm
    end.

Definition set_process_priority (p prio : Z) (pm : ProcessManager) : ProcessManager :=
  match pid_map pm !! p with
  | Some ptr => set_table (with_pcb ptr (set_priority prio) (process_table pm)) pm
  | None => pm
  end.

(** ** send_signal

    [send_signal] holds [process_mutex], a [std::mutex], when it calls
    [terminate_process], [suspend_process] or [resume_process], and each of
    them locks it again: locking a mutex the thread already owns is
    undefined, and the call does not return. *)
Definition send_signal (p signal : Z) (pm : ProcessManager)
  : option (bool * ProcessManager) :=
  match pid_map pm !! p with
  | Some _ =>
      if signal =? 9 then None
      else if signal =? 19 then None
      else if signal =? 18 then None
      else Some (true, pm)
  | None => Some (false, pm)
  end.

(** ** execute_process, the body of a record's own thread

    Its writes to the record happen outside [process_mutex] and interleave
    with the manager's operations.  [exec_begin] is the first statement,
    [exec_work] one round of the loop ([ms] is the random work time),
    [exec_end] the last statement. *)
Definition set_thread (ph : ThreadPhase) (s : ProcessState) (p : ProcessControlBlock)
  : ProcessControlBlock :=
  mkPCB (pid p) (parent_pid p) s (executable_path p) (memory_base p) (memory_size p)
        (priority p) (cpu_time p) ph (should_terminate p).

Definition add_cpu_time (ms : Z) (p : ProcessControlBlock) : ProcessControlBlock :=
  mkPCB (pid p) (parent_pid p) (state p) (executable_path p) (memory_base p)
        (memory_size p) (priority p) (wrap64 (cpu_time p + ms)) (process_thread p)
        (should_terminate p).

Definition exec_begin (ptr : Z) (pm : ProcessManager) : ProcessManager :=
  set_table
    (with_pcb ptr (fun p => match process_thread p with
                            | ThreadCreated => set_thread ThreadLooping PROCESS_RUNNING p
                            | _ => p
                            end) (process_table pm)) pm.

Definition exec_work (ptr ms : Z) (pm : ProcessManager) : ProcessManager :=
  set_table
    (with_pcb ptr (fun p => match process_thread p with
                            | ThreadLooping => add_cpu_time ms p
                            | _ => p
                            end) (process_table pm)) pm.

Definition exec_end (ptr : Z) (pm : ProcessManager) : ProcessManager :=
  set_table
    (with_pcb ptr (fun p => match process_thread p with
                            | ThreadLooping => set_thread ThreadFinished PROCESS_TERMINATED p
                            | _ => p
                            end) (process_table pm)) pm.

(** ** Runs of the manager *)
Inductive Op :=
| OpInitialize
| OpCreate (path : string) (mem : Z)
| OpTerminate (p : Z)
| OpSuspend (p : Z)
| OpResume (p : Z)
| OpSchedule
| OpSetPriority (p prio : Z)
| OpSendSignal (p signal : Z)
| OpExecBegin (p : Z)
| OpExecWork (p ms : Z)
| OpExecEnd (p : Z).

Inductive Ret := RetVoid | RetBool (b : bool) | RetInt (z : Z).

Definition step (op : Op) (pm : ProcessManager) : option (Ret * ProcessManager) :=
  match op with
  | OpInitialize => Some (RetBool (fst (initialize pm)), snd (initialize pm))
  | OpCreate path mem => '(r, pm') ← create_process path mem pm; Some (RetInt r, pm')
  | OpTerminate p => Some (RetBool (fst (terminate_process p pm)), snd (terminate_process p pm))
  | OpSuspend p => Some (RetBool (fst (suspend_process p pm)), snd (suspend_process p pm))
  | OpResume p => Some (RetBool (fst (resume_process p pm)), snd (resume_process p pm))
  | OpSchedule => pm' ← schedule pm; Some (RetVoid, pm')
  | OpSetPriority p prio => Some (RetVoid, set_process_priority p prio pm)
  | OpSendSignal p s => '(b, pm') ← send_signal p s pm; Some (RetBool b, pm')
  | OpExecBegin p => Some (RetVoid, exec_begin p pm)
  | OpExecWork p ms => Some (RetVoid, exec_work p ms pm)
  | OpExecEnd p => Some (RetVoid, exec_end p pm)
  end.

(** The run of a sequence of steps, with the values returned, in order. *)
Fixpoint run (ops : list Op) (pm : ProcessManager) : option (list Ret * ProcessManager) :=
  match ops with
  | [] => Some ([], pm)
  | op :: ops' =>
      '(r, pm1) ← step op pm;
      '(rs, pm2) ← run ops' pm1;
      Some (r :: rs, pm2)
  end.

(** Steps of an execution unit, as opposed to operations of the manager. *)
Definition is_exec_step (op : Op) : bool :=
  match op with
  | OpExecBegin _ | OpExecWork _ _ | OpExecEnd _ => true
  | _ => false
  end.

(** ** Observations *)
Fixpoint created_pids (rs : list Ret) : list Z :=
  match rs with
  | [] => []
  | RetInt z :: rs' => if z =? -1 then created_pids rs' else z :: created_pids rs'
  | _ :: rs' => created_pids rs'
  end.

Definition table_pids (pm : ProcessManager) : list Z := pid <$> process_table pm.

Definition state_of (p : Z) (pm : ProcessManager) : option ProcessState :=
  state <$> deref p (process_table pm).

Definition ready (p : ProcessControlBlock) : Prop := state p = PROCESS_READY.

Definition running (p : ProcessControlBlock) : bool := state_eqb (state p) PROCESS_RUNNING.

Definition running_count (pm : ProcessManager) : nat :=
  length (List.filter running (process_table pm)).

(** A record after a context switch from [old] to the record with pid [new]. *)
Definition switched (old : option Z) (new : Z) (c : ProcessControlBlock)
  : ProcessControlBlock :=
  if pid c =? new then set_state PROCESS_RUNNING c
  else if bool_decide (old = Some (pid c)) then set_state PROCESS_READY c
  else c.

(** ** Invariants of a run

    [hist] are the pids handed out so far. *)
Definition pids_inv (hist : list Z) (pm : ProcessManager) : Prop :=
  1 <= next_pid pm /\
  StronglySorted Z.lt hist /\
  Forall (fun z => 1 <= z < next_pid pm) hist /\
  sublist (table_pids pm) hist.

(** Every record marked RUNNING is the current one. *)
Definition running_is_current (pm : ProcessManager) : Prop :=
  Forall (fun r => running r = true -> current_process pm = Some (pid r)) (process_table pm).

Definition is_create_or_terminate (op : Op) : bool :=
  match op with
  | OpCreate _ _ | OpTerminate _ => true
  | _ => false
  end.

(** [after ops pm P]: the run is defined and ends in a state with [P]. *)
Definition after (ops : list Op) (pm : ProcessManager) (P : ProcessManager -> Prop) : Prop :=
  match run ops pm with
  | Some (_, pm') => P pm'
  | None => False
  end.

(** ** Sample states *)
Definition boot_two : list Op :=
  [OpInitialize; OpCreate "a" 0x5000; OpCreate "b" 0x6000].

Definition one_ready : ProcessManager :=
  mkPM [mkPCB 1 0 PROCESS_READY "a" 0x5000 65536 1 0 ThreadCreated false]
       (<[1 := 1]> ∅) 2 None true.

Definition two_ready : ProcessManager :=
  mkPM [mkPCB 1 0 PROCESS_READY "a" 0x5000 65536 5 0 ThreadCreated false;
        mkPCB 2 0 PROCESS_READY "b" 0x6000 65536 10 0 ThreadCreated false]
       (<[2 := 2]> (<[1 := 1]> ∅)) 3 None true.

Definition scheduled_two : ProcessManager :=
  mkPM [mkPCB 1 0 PROCESS_RUNNING "a" 0x5000 65536 1 0 ThreadCreated false;
        mkPCB 2 0 PROCESS_READY "b" 0x6000 65536 1 0 ThreadCreated false]
       (<[2 := 2]> (<[1 := 1]> ∅)) 3 (Some 1) true.

Definition after_restart : ProcessManager :=
  mkPM [mkPCB 2 0 PROCESS_READY "b" 0x6000 65536 1 0 ThreadCreated false;
        mkPCB 3 0 PROCESS_READY "c" 0x7000 65536 1 0 ThreadCreated false]
       (<[3 := 3]> (delete 1 (<[2 := 2]> (<[1 := 1]> ∅)))) 4 None false.

End Process.

(** * The KILL system call *)

Module Syscalls.

Record syscall_params := mkParams {
  arg1 : Z;
  arg2 : Z;
  arg3 : Z;
  arg4 : Z;
  ptr : Z;
  str : string
}.

(** The kernel facade, reduced to the component [sys_kill] reaches. *)
Record Kernel := mkKernel {
  process_manager : option Process.ProcessManager
}.

(** [MyOS::terminate_process] *)
Definition kernel_terminate_process (p : Z) (k : Kernel) : bool * Kernel :=
  match process_manager k with
  | Some pm =>
      let '(ok, pm') := Process.terminate_process p pm in (ok, mkKernel (Some pm'))
  | None => (false, k)
  end.

Definition sys_kill (params : syscall_params) (k : Kernel) : Z * Kernel :=
  let p := to_int (arg1 params) in
  let signal := to_int (arg2 params) in
  let '(ok, k') := kernel_terminate_process p k in
  (if ok then 0 else -1, k').

End Syscalls.

(** * Further operations of the allocator *)

Module MemoryRest.
Import Memory.

(** [MemoryManager::validate_pointer] *)
Definition validate_pointer (ptr : Z) (mm : MemoryManager) : bool :=
  if ptr =? 0 then false
  else (memory_pool mm <=? ptr) && (ptr <? memory_pool mm + pool_size mm).

(** The allocated blocks of a table. *)
Definition used (bs : list MemoryBlock) : list MemoryBlock :=
  List.filter (fun b => negb (is_free b)) bs.

(** Every block starts inside the arena. *)
Definition starts_inside (pool psz : Z) (b : MemoryBlock) : Prop :=
  pool <= address b < pool + psz.

(** The blocks [deallocate_process_memory] looks for. *)
Definition owned_by (pid : Z) (b : MemoryBlock) : bool := process_id b =? pid.

(** The invariant behind [validate_pointer]: the arena is tiled and every
    block starts inside it. *)
Definition starts_inv (mm : MemoryManager) : Prop :=
  arena_inv mm /\
  Forall (starts_inside (memory_pool mm) (pool_size mm)) (memory_blocks mm).

Definition SIZE_MAX : Z := 2 ^ 64 - 1.

(** ** best_fit_allocate (no caller in the sources uses it)

    The scan keeps the position of the smallest free block seen so far that
    is large enough, started with no block and [SIZE_MAX].

    [best_block] points into the vector.  As in [first_fit_allocate], the
    remainder of a split is pushed to the back first and the block is
    written and read through the pointer afterwards: in place when the
    vector has room, undefined when the [push_back] had to move the
    elements. *)
Fixpoint best_fit_scan (sz : Z) (best : option nat) (best_size : Z) (i : nat)
         (bs : list MemoryBlock) : option nat :=
  match bs with
  | [] => best
  | b :: rest =>
      if is_free b && (sz <=? size b) && (size b <? best_size)
      then best_fit_scan sz (Some i) (size b) (S i) rest
      else best_fit_scan sz best best_size (S i) rest
  end.

Definition best_fit_allocate (sz : Z) (cap : nat) (bs : list MemoryBlock)
  : option (Z * list MemoryBlock) :=
  match best_fit_scan sz None SIZE_MAX 0 bs with
  | Some i =>
      match bs !! i with
      | Some b =>
          if sz <? size b then
            if (length bs <? cap)%nat
            then Some (address b, <[i := take_block sz b]> bs ++ [remainder sz b])
            else None
          else Some (address b, <[i := take_block sz b]> bs)
      | None => Some (0, bs)
      end
  | None => Some (0, bs)
  end.

End MemoryRest.

(** * Further operations of the scheduler *)

Module ProcessRest.
Import Process.

(** [get_process]: the record pointer stored for [p], [None] for [nullptr]. *)
Definition get_process (p : Z) (pm : ProcessManager) : option Z := pid_map pm !! p.

(** The record pointers, in table order. *)
Definition get_all_processes (pm : ProcessManager) : list Z := pid <$> process_table pm.

Definition get_current_process (pm : ProcessManager) : option Z := current_process pm.

Definition get_process_count (pm : ProcessManager) : Z :=
  Z.of_nat (length (process_table pm)).

(** The map holds exactly the records of the table, each under its pid. *)
Definition tracks (pm : ProcessManager) : Prop :=
  forall p q, pid_map pm !! p = Some q <-> q = p /\ p ∈ table_pids pm.

(** What holds of every state the manager reaches from its constructor. *)
Definition booted (pm : ProcessManager) : Prop :=
  exists hist, pids_inv hist pm /\ tracks pm.

(** [execute_process] from its first to its last statement, with the work
    times [mss] of the rounds of its loop and no operation of the manager
    in between. *)
Definition execute_process (ptr : Z) (mss : list Z) (pm : ProcessManager) : ProcessManager :=
  exec_end ptr (fold_left (fun pm1 ms => exec_work ptr ms pm1) mss (exec_begin ptr pm)).

Definition sum_list (l : list Z) : Z := fold_right Z.add 0 l.

End ProcessRest.

(** * The kernel facade and its system calls *)

Module Facade.
Import Syscalls.

(** The kernel facade [MyOS], with the two managers the calls below reach. *)
Record MyOS := mkOS {
  memory_manager : option Memory.MemoryManager;
  process_manager : option Process.ProcessManager
}.

(** [MyOS::create_process]; [mem] is passed on to [load_executable]. *)
Definition create_process (path : string) (mem : Z) (os : MyOS) : option (Z * MyOS) :=
  match process_manager os with
  | Some pm =>
      '(r, pm') ← Process.create_process path mem pm;
      Some (r, mkOS (memory_manager os) (Some pm'))
  | None => Some (-1, os)
  end.

(** [MyOS::allocate_memory] *)
Definition allocate_memory (sz : Z) (os : MyOS) : option (Z * MyOS) :=
  match memory_manager os with
  | Some mm =>
      '(p, mm') ← Memory.allocate sz mm;
      Some (p, mkOS (Some mm') (process_manager os))
  | None => Some (0, os)
  end.

(** ** System calls *)
Definition sys_fork (mem : Z) (os : MyOS) : option (Z * MyOS) :=
  create_process "forked_process" mem os.

(** The pointer is returned through an [int]. *)
Definition sys_malloc (params : syscall_params) (os : MyOS) : option (Z * MyOS) :=
  '(p, os') ← allocate_memory (arg1 params) os; Some (to_int p, os').

(** [Syscalls.sys_kill], on the facade with both managers. *)
Definition sys_kill (params : syscall_params) (os : MyOS) : Z * MyOS :=
  let '(r, k) := Syscalls.sys_kill params (mkKernel (process_manager os)) in
  (r, mkOS (memory_manager os) (Syscalls.process_manager k)).

(** ** Sample states: a pool above the range of [int], a request for 64
    bytes, a KILL for process 3. *)
Definition high_pool : Z := 0x7f0000000000.

Definition high_init : Memory.MemoryManager :=
  snd (Memory.initialize Memory.sample_lib high_pool Memory.warm_manager).

Definition malloc_64 : syscall_params := mkParams 64 0 0 0 0 "m".

(** [Process.two_ready] after a FORK that was given memory at [0x9000]. *)
Definition forked_two : Process.ProcessManager :=
  Process.mkPM
    (Process.process_table Process.two_ready
     ++ [Process.mkPCB 3 0 Process.PROCESS_READY "forked_process" 0x9000 65536 1 0
                       Process.ThreadCreated false])
    (<[3 := 3]> (Process.pid_map Process.two_ready)) 4 None true.

Definition kill_3 : syscall_params := mkParams 3 19 0 0 0 "k".

End Facade.

(** * Properties *)

(** ** Machine arithmetic *)

Lemma wrap64_range x : 0 <= wrap64 x < 2 ^ 64.
Proof. unfold wrap64. apply Z.mod_pos_bound. lia. Qed.

Lemma wrap64_small x : 0 <= x < 2 ^ 64 -> wrap64 x = x.
Proof. intros H. unfold wrap64. apply Z.mod_small. exact H. Qed.

(** ** The allocator and the page mapper *)

Module MemoryFacts.
Import Memory.

(** Case analysis on every comparison of the goal. *)
Ltac case_bounds :=
  repeat match goal with
         | |- context [?a <=? ?b] => destruct (Z.leb_spec a b)
         | |- context [?a <? ?b] => destruct (Z.ltb_spec a b)
         end.

(** *** The library *)

Lemma std_sort_perm L bs : lib_ok L -> std_sort L bs ≡ₚ bs.
Proof. intros (Hp & _ & _). apply Hp. Qed.

Lemma std_sort_sorted L bs : lib_ok L -> Sorted addr_le (std_sort L bs).
Proof. intros (_ & Hs & _). apply Hs. Qed.

Lemma insert_block_perm b l : insert_block b l ≡ₚ b :: l.
Proof.
  induction l as [|c l IH]; simpl; [done |].
  destruct (address b <=? address c); [done |].
  rewrite IH. apply Permutation_swap.
Qed.

Lemma sort_blocks_perm l : sort_blocks l ≡ₚ l.
Proof.
  induction l as [|b l IH]; simpl; [done |].
  rewrite insert_block_perm. by rewrite IH.
Qed.

Lemma insert_block_sorted b l : Sorted addr_le l -> Sorted addr_le (insert_block b l).
Proof.
  induction 1 as [|c l Hs IH Hhd]; simpl; [by repeat constructor |].
  destruct (Z.leb_spec (address b) (address c)) as [Hle|Hgt].
  - constructor; [by constructor |]. by constructor.
  - constructor; [done |].
    destruct l as [|d l]; simpl in *.
    + constructor. unfold addr_le. lia.
    + destruct (Z.leb_spec (address b) (address d)).
      * constructor. unfold addr_le. lia.
      * constructor. by inversion Hhd.
Qed.

Lemma sort_blocks_sorted l : Sorted addr_le (sort_blocks l).
Proof. induction l as [|b l IH]; simpl; [constructor | by apply insert_block_sorted]. Qed.

Lemma insert_behind_perm b l : insert_behind b l ≡ₚ b :: l.
Proof.
  induction l as [|c l IH]; simpl; [done |].
  destruct (address b <? address c); [done |].
  rewrite IH. apply Permutation_swap.
Qed.

Lemma sort_behind_perm l : sort_behind l ≡ₚ l.
Proof.
  induction l as [|b l IH]; simpl; [done |].
  rewrite insert_behind_perm. by rewrite IH.
Qed.

Lemma insert_behind_sorted b l : Sorted addr_le l -> Sorted addr_le (insert_behind b l).
Proof.
  induction 1 as [|c l Hs IH Hhd]; simpl; [by repeat constructor |].
  destruct (Z.ltb_spec (address b) (address c)) as [Hlt|Hge].
  - constructor; [by constructor |]. constructor. unfold addr_le. lia.
  - constructor; [done |].
    destruct l as [|d l]; simpl in *.
    + constructor. unfold addr_le. lia.
    + destruct (Z.ltb_spec (address b) (address d)).
      * constructor. unfold addr_le. lia.
      * constructor. by inversion Hhd.
Qed.

Lemma sort_behind_sorted l : Sorted addr_le (sort_behind l).
Proof. induction l as [|b l IH]; simpl; [constructor | by apply insert_behind_sorted]. Qed.

Lemma doubling_grows n : (n < doubling n)%nat.
Proof. unfold doubling. lia. Qed.

Lemma sample_lib_ok : lib_ok sample_lib.
Proof.
  split; [apply sort_blocks_perm |]. split; [apply sort_blocks_sorted | apply doubling_grows].
Qed.

Lemma other_lib_ok : lib_ok other_lib.
Proof.
  split; [apply sort_behind_perm |]. split; [apply sort_behind_sorted | apply doubling_grows].
Qed.

(** *** Tiling is a property of the multiset of spans *)

Lemma cover_count_app x l1 l2 :
  cover_count x (l1 ++ l2) = (cover_count x l1 + cover_count x l2)%nat.
Proof. induction l1 as [|b l1 IH]; simpl; [done | rewrite IH; lia]. Qed.

Lemma cover_count_perm x l1 l2 : l1 ≡ₚ l2 -> cover_count x l1 = cover_count x l2.
Proof. induction 1; simpl; lia. Qed.

Lemma tiles_perm pool psz l1 l2 : l1 ≡ₚ l2 -> tiles pool psz l1 -> tiles pool psz l2.
Proof.
  intros Hp [Hw Hc]. split.
  - by rewrite <- Hp.
  - intros x Hx. rewrite <- (cover_count_perm x _ _ Hp). by apply Hc.
Qed.

Lemma same_span_refl l : Forall2 same_span l l.
Proof. induction l; constructor; [by split | done]. Qed.

Lemma cover_count_same_span x l1 l2 :
  Forall2 same_span l1 l2 -> cover_count x l1 = cover_count x l2.
Proof.
  induction 1 as [|b c l1 l2 [Ha Hs] _ IH]; simpl; [done |].
  unfold covers. by rewrite Ha, Hs, IH.
Qed.

Lemma within_same_span pool psz l1 l2 :
  Forall2 same_span l1 l2 -> Forall (within pool psz) l1 -> Forall (within pool psz) l2.
Proof.
  induction 1 as [|b c l1 l2 [Ha Hs] _ IH]; intros Hw; [done |].
  inversion Hw as [|? ? Hb Hl]; subst. constructor; [| by apply IH].
  unfold within in *. by rewrite <- Ha, <- Hs.
Qed.

Lemma tiles_same_span pool psz l1 l2 :
  Forall2 same_span l1 l2 -> tiles pool psz l1 -> tiles pool psz l2.
Proof.
  intros Hs [Hw Hc]. split; [by eapply within_same_span |].
  intros x Hx. rewrite <- (cover_count_same_span x _ _ Hs). by apply Hc.
Qed.

Lemma same_span_length l1 l2 : Forall2 same_span l1 l2 -> length l1 = length l2.
Proof. apply Forall2_length. Qed.

Lemma release_block_span ptr bs : Forall2 same_span bs (release_block ptr bs).
Proof.
  induction bs as [|b bs IH]; simpl; [constructor |].
  destruct (address b =? ptr); constructor; try done; try by split.
  apply same_span_refl.
Qed.

Lemma stamp_block_span ptr pid bs : Forall2 same_span bs (stamp_block ptr pid bs).
Proof.
  induction bs as [|b bs IH]; simpl; [constructor |].
  destruct (address b =? ptr); constructor; try done; try by split.
  apply same_span_refl.
Qed.

Lemma release_owned_span pid bs : Forall2 same_span bs (release_owned pid <$> bs).
Proof.
  induction bs as [|b bs IH]; simpl; constructor; [| done].
  unfold release_owned. by destruct (_ && _).
Qed.

(** *** The first fit and its split *)

Lemma first_fit_scan_none sz bs :
  first_fit_scan sz bs = None <-> Forall (fun b => fits sz b = false) bs.
Proof.
  induction bs as [|b bs IH]; simpl; [by split; [constructor |] |].
  destruct (fits sz b) eqn:Hb.
  - split; [done |]. intros Hall. apply Forall_cons in Hall as [Hf _]. congruence.
  - destruct (first_fit_scan sz bs) as [[[pre c] post]|].
    + split; [done |]. intros Hall. apply Forall_cons in Hall as [_ Hall].
      by apply IH in Hall.
    + split; [| done]. intros _. constructor; [done | by apply IH].
Qed.

Lemma first_fit_scan_split sz bs pre b post :
  first_fit_scan sz bs = Some (pre, b, post) ->
  bs = pre ++ b :: post /\
  Forall (fun c => fits sz c = false) pre /\
  fits sz b = true.
Proof.
  revert pre. induction bs as [|a bs IH]; intros pre; simpl; [done |].
  destruct (fits sz a) eqn:Ha.
  - intros [= <- <- <-]. by repeat split.
  - destruct (first_fit_scan sz bs) as [[[pre' c] post']|]; [| done].
    intros [= <- <- <-]. destruct (IH _ eq_refl) as (-> & Hpre & Hc).
    split; [done |]. split; [by constructor | done].
Qed.

(** What a defined [first_fit_allocate] returns: no block and the table as
    it was, or the first block that fits, taken in place, with the
    remainder at the back when the vector had room for it. *)
Lemma first_fit_allocate_cases sz cap bs p bs' :
  first_fit_allocate sz cap bs = Some (p, bs') ->
  (p = 0 /\ bs' = bs /\ Forall (fun c => fits sz c = false) bs) \/
  (exists pre b post,
     bs = pre ++ b :: post /\
     Forall (fun c => fits sz c = false) pre /\
     fits sz b = true /\ p = address b /\
     ((size b = sz /\ bs' = pre ++ take_block sz b :: post) \/
      (sz < size b /\ (length bs < cap)%nat /\
       bs' = pre ++ take_block sz b :: post ++ [remainder sz b]))).
Proof.
  unfold first_fit_allocate.
  destruct (first_fit_scan sz bs) as [[[pre b] post]|] eqn:Hscan.
  - destruct (first_fit_scan_split _ _ _ _ _ Hscan) as (Hbs & Hpre & Hb).
    pose proof Hb as Hb'. unfold fits in Hb'. apply andb_prop in Hb' as [_ Hle%Z.leb_le].
    destruct (Z.ltb_spec sz (size b)) as [Hlt|Hge].
    + destruct (Nat.ltb_spec (length bs) cap) as [Hroom|]; [| done].
      intros [= <- <-]. right. exists pre, b, post.
      split; [done |]. split; [done |]. split; [done |]. split; [done |].
      right. by repeat split.
    + intros [= <- <-]. right. exists pre, b, post.
      split; [done |]. split; [done |]. split; [done |]. split; [done |].
      left. split; [lia | done].
  - intros [= <- <-]. left. split; [done |]. split; [done |].
    by apply first_fit_scan_none.
Qed.

(** A split on a full vector is undefined; everything else is defined. *)
Lemma first_fit_allocate_defined sz cap bs :
  is_Some (first_fit_allocate sz cap bs) <->
  (length bs < cap)%nat \/
  match first_fit_scan sz bs with
  | Some (_, b, _) => size b <= sz
  | None => True
  end.
Proof.
  unfold first_fit_allocate.
  destruct (first_fit_scan sz bs) as [[[pre b] post]|].
  - destruct (Z.ltb_spec sz (size b)); destruct (Nat.ltb_spec (length bs) cap).
    + split; [by left | done].
    + split; [by intros [? ?] | intros [?|?]; lia].
    + split; [by left | done].
    + split; [by right | done].
  - split; [by right | done].
Qed.

Lemma first_fit_allocate_length sz cap bs p bs' :
  first_fit_allocate sz cap bs = Some (p, bs') ->
  (length bs <= length bs' <= S (length bs))%nat /\
  (length bs' <= Nat.max cap (length bs))%nat.
Proof.
  intros Hffa. destruct (first_fit_allocate_cases _ _ _ _ _ Hffa)
    as [(_ & -> & _)|(pre & b & post & -> & _ & _ & _ & [[_ ->]|(_ & Hroom & ->)])].
  - lia.
  - rewrite !length_app. simpl. lia.
  - rewrite !length_app in *. simpl in *. rewrite length_app. simpl. lia.
Qed.

Lemma first_fit_allocate_tiles sz cap bs p bs' pool psz :
  0 <= sz -> first_fit_allocate sz cap bs = Some (p, bs') ->
  tiles pool psz bs -> tiles pool psz bs'.
Proof.
  intros Hsz Hffa [Hw Hc].
  destruct (first_fit_allocate_cases _ _ _ _ _ Hffa)
    as [(_ & -> & _)|(pre & b & post & -> & _ & Hb & _ & Hcase)]; [by split |].
  unfold fits in Hb. apply andb_prop in Hb as [_ Hle%Z.leb_le].
  apply Forall_app in Hw as [Hwpre Hw]. apply Forall_cons in Hw as [(Hlo & Hs0 & Hhi) Hwpost].
  destruct Hcase as [[Heq ->]|(Hlt & _ & ->)].
  - split.
    + apply Forall_app. split; [done |]. constructor; [| done].
      unfold within; simpl. lia.
    + intros x Hx. specialize (Hc x Hx). rewrite cover_count_app in *. simpl in *.
      unfold covers in *; simpl in *. by rewrite <- Heq.
  - split.
    + apply Forall_app. split; [done |]. constructor; [unfold within; simpl; lia |].
      apply Forall_app. split; [done |]. constructor; [| done].
      unfold within; simpl. lia.
    + intros x Hx. specialize (Hc x Hx). rewrite cover_count_app in *. simpl in *.
      rewrite cover_count_app. simpl. revert Hc. unfold covers; simpl.
      case_bounds; simpl; lia.
Qed.

(** [align8] rounds up to a multiple of 8, within [size_t]. *)
Lemma align8_round sz : align8 sz = 8 * (wrap64 (sz + 7) / 8).
Proof.
  unfold align8. pose proof (wrap64_range (sz + 7)) as Hx.
  change (wrap64 (Z.lnot 7)) with (Z.land (Z.lnot (Z.ones 3)) (Z.ones 64)).
  rewrite Z.land_assoc, Z.land_ones, <- Z.ldiff_land by lia.
  rewrite Z.ldiff_ones_r, Z.shiftr_div_pow2, Z.shiftl_mul_pow2 by lia.
  change (2 ^ 3) with 8.
  rewrite Z.mod_small; [lia |].
  pose proof (Z.mul_div_le (wrap64 (sz + 7)) 8 ltac:(lia)).
  pose proof (Z.div_pos (wrap64 (sz + 7)) 8 ltac:(lia) ltac:(lia)). lia.
Qed.

Lemma align8_nonneg sz : 0 <= align8 sz.
Proof.
  unfold align8. apply Z.land_nonneg. left. apply wrap64_range.
Qed.

Lemma merge_from_tiles pool psz x cur rest :
  psz < 2 ^ 64 ->
  Forall (within pool psz) (cur :: rest) ->
  Forall (within pool psz) (merge_from cur rest) /\
  cover_count x (merge_from cur rest) = cover_count x (cur :: rest).
Proof.
  intros Hpsz. revert cur.
  induction rest as [|nxt rest IH]; intros cur Hw; simpl; [done |].
  inversion Hw as [|? ? Hc Hr]; subst.
  inversion Hr as [|? ? Hn Hr']; subst.
  destruct (mergeable cur nxt) eqn:Hm.
  - unfold mergeable in Hm.
    apply andb_prop in Hm as [_ Hadj%Z.eqb_eq].
    destruct Hc as (Hlo & Hs0 & Hhi). destruct Hn as (Hlo' & Hs0' & Hhi').
    assert (Hsum : wrap64 (size cur + size nxt) = size cur + size nxt)
      by (apply wrap64_small; lia).
    destruct (IH (mkBlock (address cur) (wrap64 (size cur + size nxt))
                          (is_free cur) (process_id cur))) as [Hw' Hc'].
    { constructor; [| done]. unfold within; simpl. rewrite Hsum. lia. }
    split; [done |]. rewrite Hc'. simpl. unfold covers; simpl. rewrite Hsum.
    case_bounds; simpl; lia.
  - destruct (IH nxt Hr) as [Hw' Hc'].
    split; [by constructor |]. simpl. simpl in Hc'. by rewrite Hc'.
Qed.

Lemma merge_from_length cur rest : (length (merge_from cur rest) <= S (length rest))%nat.
Proof.
  revert cur. induction rest as [|nxt rest IH]; intros cur; simpl; [lia |].
  destruct (mergeable cur nxt); simpl.
  - etrans; [apply IH | lia].
  - specialize (IH nxt). lia.
Qed.

Lemma merge_blocks_length bs : (length (merge_blocks bs) <= length bs)%nat.
Proof. destruct bs as [|b rest]; simpl; [done | apply merge_from_length]. Qed.

Lemma merge_blocks_tiles pool psz bs :
  psz < 2 ^ 64 -> tiles pool psz bs -> tiles pool psz (merge_blocks bs).
Proof.
  intros Hpsz [Hw Hc]. destruct bs as [|b rest]; [by split |]. simpl. split.
  - by eapply (merge_from_tiles _ _ 0).
  - intros x Hx. destruct (merge_from_tiles pool psz x b rest Hpsz Hw) as [_ ->].
    by apply Hc.
Qed.

Lemma tiles_not_nil pool psz bs : 0 < psz -> tiles pool psz bs -> bs <> [].
Proof. intros Hpsz [_ Hc] ->. specialize (Hc pool ltac:(lia)). done. Qed.

Lemma coalesce_defined L bs :
  bs <> [] -> coalesce_free_blocks L bs = Some (merge_blocks (std_sort L bs)).
Proof. by destruct bs. Qed.

Lemma coalesce_result L bs bs' :
  coalesce_free_blocks L bs = Some bs' -> bs <> [] /\ bs' = merge_blocks (std_sort L bs).
Proof. destruct bs; [done |]. by intros [= <-]. Qed.

Lemma coalesce_length L bs bs' :
  lib_ok L -> coalesce_free_blocks L bs = Some bs' -> (length bs' <= length bs)%nat.
Proof.
  intros HL [_ ->]%coalesce_result.
  rewrite <- (Permutation_length (std_sort_perm L bs HL)). apply merge_blocks_length.
Qed.

Lemma coalesce_tiles L pool psz bs :
  lib_ok L -> 0 < psz < 2 ^ 64 -> tiles pool psz bs ->
  exists bs', coalesce_free_blocks L bs = Some bs' /\ tiles pool psz bs'.
Proof.
  intros HL Hpsz Ht. exists (merge_blocks (std_sort L bs)). split.
  - apply coalesce_defined. by eapply tiles_not_nil; [| done]; lia.
  - apply merge_blocks_tiles; [lia |].
    eapply tiles_perm; [| done]. symmetry. by apply std_sort_perm.
Qed.

(** *** The sizes of a tiling add up to the size of the arena

    Counted byte by byte: the first [k] bytes of the arena meet the spans
    in [k] places. *)
Section Counting.
Variables pool psz : Z.

Lemma clip_sum_succ k bs :
  0 <= k ->
  clip_sum pool (k + 1) bs = clip_sum pool k bs + Z.of_nat (cover_count (pool + k) bs).
Proof.
  intros Hk. induction bs as [|b bs IH]; simpl; [done |].
  rewrite IH, Nat2Z.inj_add.
  assert (clip pool (k + 1) b
          = clip pool k b + Z.of_nat (if covers (pool + k) b then 1 else 0)) as ->; [| lia].
  unfold clip, covers.
  destruct (Z.leb_spec (address b) (pool + k));
    destruct (Z.ltb_spec (pool + k) (address b + size b)); simpl; lia.
Qed.

Lemma clip_sum_covered bs :
  (forall x, pool <= x < pool + psz -> cover_count x bs = 1%nat) ->
  forall k : nat, Z.of_nat k <= psz -> clip_sum pool (Z.of_nat k) bs = Z.of_nat k.
Proof.
  intros Hc. induction k as [|k IH]; intros Hk.
  - change (Z.of_nat 0) with 0. clear Hc Hk.
    induction bs as [|b bs IHb]; simpl; [done |].
    rewrite IHb. unfold clip. lia.
  - rewrite Nat2Z.inj_succ, <- Z.add_1_r, clip_sum_succ by lia.
    rewrite IH, Hc by lia. lia.
Qed.

Lemma clip_sum_within bs :
  Forall (within pool psz) bs -> clip_sum pool psz bs = total_size bs.
Proof.
  induction 1 as [|b bs (Hlo & Hs & Hhi) _ IH]; simpl; [done |].
  rewrite IH. unfold clip. lia.
Qed.

Lemma tiles_total_size bs :
  0 <= psz -> tiles pool psz bs -> total_size bs = psz.
Proof.
  intros Hpsz [Hw Hc].
  rewrite <- (clip_sum_within bs Hw).
  pose proof (clip_sum_covered bs Hc (Z.to_nat psz)) as Hk.
  rewrite Z2Nat.id in Hk by done. apply Hk. lia.
Qed.

Lemma free_size_bounds bs :
  Forall (within pool psz) bs -> 0 <= free_size bs <= total_size bs.
Proof.
  induction 1 as [|b bs (Hlo & Hs & Hhi) _ IH]; simpl; [lia |].
  destruct (is_free b); lia.
Qed.

Lemma fold_free_size bs acc :
  Forall (within pool psz) bs -> 0 <= acc -> acc + free_size bs < 2 ^ 64 ->
  fold_left (fun acc b => if is_free b then wrap64 (acc + size b) else acc) bs acc
  = acc + free_size bs.
Proof.
  intros Hw. revert acc.
  induction Hw as [|b bs (Hlo & Hs & Hhi) Hw IH]; intros acc Hacc Hlt; simpl; [lia |].
  simpl in Hlt. pose proof (free_size_bounds _ Hw) as Hfb.
  destruct (is_free b).
  - rewrite wrap64_small by lia. rewrite IH by lia. lia.
  - rewrite IH by lia. lia.
Qed.

End Counting.

Lemma tiles_conservation mm :
  0 <= pool_size mm < 2 ^ 64 ->
  arena_tiled mm ->
  get_free_memory mm <= get_total_memory mm /\
  get_used_memory mm + get_free_memory mm = get_total_memory mm.
Proof.
  intros Hpsz Ht. unfold arena_tiled in Ht.
  pose proof (tiles_total_size _ _ _ (proj1 Hpsz) Ht) as Htot.
  destruct Ht as [Hw _].
  pose proof (free_size_bounds _ _ _ Hw) as Hfb.
  assert (Hfree : get_free_memory mm = free_size (memory_blocks mm)).
  { unfold get_free_memory. rewrite (fold_free_size _ _ _ 0 Hw); lia. }
  unfold get_used_memory, get_total_memory. rewrite Hfree.
  rewrite wrap64_small by lia. lia.
Qed.

(** *** Every operation but [initialize] keeps the arena tiled *)

Lemma initialize_true L pool mm :
  pool <> 0 ->
  initialize L pool mm
  = (true, mkMM (memory_blocks mm ++ [mkBlock pool (pool_size mm) true (-1)])
                (push_capacity L (length (memory_blocks mm)) (blocks_capacity mm))
                (allocated_blocks mm) pool (pool_size mm)
                (reset_entry <$> resize_table 1024 (page_table mm))
                (next_virtual_address mm)).
Proof. intros Hp. unfold initialize. by destruct (Z.eqb_spec pool 0). Qed.

(** [initialize] on a manager with an empty table: the constructor's, or
    one that was shut down. *)
Lemma initialize_inv L pool mm :
  pool <> 0 -> memory_blocks mm = [] -> 0 < pool_size mm < 2 ^ 64 ->
  arena_inv (snd (initialize L pool mm)).
Proof.
  intros Hp Hnil Hpsz. rewrite initialize_true by done. rewrite Hnil.
  split; [done |]. unfold arena_tiled, tiles; simpl. split.
  - constructor; [| constructor]. unfold within; simpl. lia.
  - intros x Hx. unfold covers; simpl.
    destruct (Z.leb_spec pool x); destruct (Z.ltb_spec x (pool + pool_size mm));
      simpl; lia.
Qed.

Lemma push_capacity_room L len cap :
  lib_ok L -> (len <= cap)%nat -> (S len <= push_capacity L len cap)%nat.
Proof.
  intros (_ & _ & Hg) Hle. unfold push_capacity.
  destruct (Nat.ltb_spec len cap); [lia |]. specialize (Hg cap). lia.
Qed.

(** The shape of a defined [allocate]. *)
Lemma allocate_shape sz mm p mm' :
  allocate sz mm = Some (p, mm') ->
  mm' = mkMM (memory_blocks mm') (blocks_capacity mm)
             (if p =? 0 then allocated_blocks mm
              else <[p := align8 sz]> (allocated_blocks mm))
             (memory_pool mm) (pool_size mm) (page_table mm) (next_virtual_address mm) /\
  ((sz = 0 /\ p = 0 /\ memory_blocks mm' = memory_blocks mm) \/
   (sz <> 0 /\
    first_fit_allocate (align8 sz) (blocks_capacity mm) (memory_blocks mm)
    = Some (p, memory_blocks mm'))).
Proof.
  unfold allocate. destruct (Z.eqb_spec sz 0) as [Hz|Hnz].
  - intros [= <- <-]. split; [by destruct mm |]. by left.
  - destruct (first_fit_allocate _ _ _) as [[q bs]|]; [| done]. simpl.
    destruct (Z.eqb_spec q 0) as [->|Hq]; intros [= <- <-]; simpl.
    + split; [done |]. by right.
    + destruct (Z.eqb_spec q 0); [done |]. split; [done |]. by right.
Qed.

Lemma allocate_defined sz mm :
  (length (memory_blocks mm) < blocks_capacity mm)%nat -> is_Some (allocate sz mm).
Proof.
  intros Hroom. unfold allocate. destruct (sz =? 0); [done |].
  destruct (proj2 (first_fit_allocate_defined (align8 sz) (blocks_capacity mm)
                     (memory_blocks mm)) (or_introl Hroom)) as [[q bs] ->].
  simpl. by destruct (q =? 0).
Qed.

Lemma allocate_session sz mm p mm' :
  allocate sz mm = Some (p, mm') -> session_step mm mm'.
Proof.
  intros Ha. destruct (allocate_shape _ _ _ _ Ha) as [Hmm Hcase].
  rewrite Hmm. unfold session_step. simpl.
  split; [done |]. split; [done |]. split; [done |].
  destruct Hcase as [(_ & _ & ->)|(_ & Hffa)]; [lia |].
  apply first_fit_allocate_length in Hffa. lia.
Qed.

Lemma allocate_frame sz mm p mm' :
  allocate sz mm = Some (p, mm') -> vm_frame mm' = vm_frame mm.
Proof. intros Ha. destruct (allocate_shape _ _ _ _ Ha) as [-> _]. done. Qed.

Lemma allocate_inv sz mm p mm' :
  allocate sz mm = Some (p, mm') -> arena_inv mm -> arena_inv mm'.
Proof.
  intros Ha [Hpsz Ht]. destruct (allocate_shape _ _ _ _ Ha) as [Hmm Hcase].
  rewrite Hmm. split; [done |]. unfold arena_tiled in *. simpl.
  destruct Hcase as [(_ & _ & ->)|(_ & Hffa)]; [done |].
  eapply first_fit_allocate_tiles; [apply align8_nonneg | done | done].
Qed.

(** [allocate_aligned] either refuses and changes nothing, or is the
    [allocate] of a larger request. *)
Lemma allocate_aligned_cases sz al mm r mm' :
  allocate_aligned sz al mm = Some (r, mm') ->
  (r = 0 /\ mm' = mm) \/
  (exists ptr, allocate (wrap64 (sz + al - 1)) mm = Some (ptr, mm') /\
               r = if ptr =? 0 then 0
                   else Z.land (wrap64 (ptr + al - 1)) (wrap64 (Z.lnot (wrap64 (al - 1))))).
Proof.
  unfold allocate_aligned. destruct (_ || _); [intros [= <- <-]; by left |].
  destruct (allocate _ mm) as [[ptr mm1]|]; [| done]. simpl.
  intros Heq. right. exists ptr. by destruct (ptr =? 0); injection Heq as <- <-.
Qed.

Lemma allocate_aligned_defined sz al mm :
  (length (memory_blocks mm) < blocks_capacity mm)%nat ->
  is_Some (allocate_aligned sz al mm).
Proof.
  intros Hroom. unfold allocate_aligned. destruct (_ || _); [done |].
  destruct (allocate_defined (wrap64 (sz + al - 1)) mm Hroom) as [[ptr mm1] ->].
  simpl. by destruct (ptr =? 0).
Qed.

Lemma session_step_refl mm : session_step mm mm.
Proof. unfold session_step. repeat split; lia. Qed.

Lemma allocate_aligned_session sz al mm r mm' :
  allocate_aligned sz al mm = Some (r, mm') -> session_step mm mm'.
Proof.
  intros [[_ ->]|(ptr & Ha & _)]%allocate_aligned_cases;
    [apply session_step_refl | by eapply allocate_session].
Qed.

Lemma allocate_aligned_frame sz al mm r mm' :
  allocate_aligned sz al mm = Some (r, mm') -> vm_frame mm' = vm_frame mm.
Proof.
  intros [[_ ->]|(ptr & Ha & _)]%allocate_aligned_cases; [done | by eapply allocate_frame].
Qed.

Lemma allocate_aligned_inv sz al mm r mm' :
  allocate_aligned sz al mm = Some (r, mm') -> arena_inv mm -> arena_inv mm'.
Proof.
  intros [[_ ->]|(ptr & Ha & _)]%allocate_aligned_cases; [done | by eapply allocate_inv].
Qed.

(** [allocate_for_process] is [allocate] and a stamp. *)
Lemma allocate_for_process_cases pid sz mm p mm' :
  allocate_for_process pid sz mm = Some (p, mm') ->
  exists mm1, allocate sz mm = Some (p, mm1) /\
              mm' = if p =? 0 then mm1
                    else set_blocks (stamp_block p pid (memory_blocks mm1)) mm1.
Proof.
  unfold allocate_for_process.
  destruct (allocate sz mm) as [[q mm1]|]; [| done]. simpl.
  destruct (Z.eqb_spec q 0) as [->|Hq]; intros [= <- <-]; exists mm1.
  - done.
  - by destruct (Z.eqb_spec q 0).
Qed.

Lemma allocate_for_process_defined pid sz mm :
  (length (memory_blocks mm) < blocks_capacity mm)%nat ->
  is_Some (allocate_for_process pid sz mm).
Proof.
  intros Hroom. unfold allocate_for_process.
  destruct (allocate_defined sz mm Hroom) as [[ptr mm1] ->].
  simpl. by destruct (ptr =? 0).
Qed.

Lemma allocate_for_process_session pid sz mm p mm' :
  allocate_for_process pid sz mm = Some (p, mm') -> session_step mm mm'.
Proof.
  intros (mm1 & Ha & ->)%allocate_for_process_cases.
  pose proof (allocate_session _ _ _ _ Ha) as (H1 & H2 & H3 & H4).
  destruct (p =? 0); [done |]. unfold session_step. simpl.
  by rewrite <- (same_span_length _ _ (stamp_block_span p pid (memory_blocks mm1))).
Qed.

Lemma allocate_for_process_frame pid sz mm p mm' :
  allocate_for_process pid sz mm = Some (p, mm') -> vm_frame mm' = vm_frame mm.
Proof.
  intros (mm1 & Ha & ->)%allocate_for_process_cases.
  rewrite <- (allocate_frame _ _ _ _ Ha). by destruct (p =? 0).
Qed.

Lemma allocate_for_process_inv pid sz mm p mm' :
  allocate_for_process pid sz mm = Some (p, mm') -> arena_inv mm -> arena_inv mm'.
Proof.
  intros (mm1 & Ha & ->)%allocate_for_process_cases Hi.
  pose proof (allocate_inv _ _ _ _ Ha Hi) as [Hpsz Ht].
  destruct (p =? 0); [done |]. split; [done |].
  unfold arena_tiled in *. simpl.
  eapply tiles_same_span; [apply stamp_block_span | done].
Qed.

Lemma coalesce_inv L mm :
  lib_ok L -> arena_inv mm ->
  exists bs, coalesce_free_blocks L (memory_blocks mm) = Some bs /\
             arena_inv (set_blocks bs mm).
Proof.
  intros HL [Hpsz Ht].
  destruct (coalesce_tiles L _ _ _ HL Hpsz Ht) as (bs & Hco & Hbs).
  exists bs. split; [done |]. by split.
Qed.

Lemma deallocate_inv L ptr mm :
  lib_ok L -> arena_inv mm ->
  exists r mm', deallocate L ptr mm = Some (r, mm') /\ arena_inv mm'.
Proof.
  intros HL [Hpsz Ht]. unfold deallocate.
  destruct (ptr =? 0); [by eexists _, _ |].
  destruct (allocated_blocks mm !! ptr); [| by eexists _, _].
  destruct (coalesce_tiles L (memory_pool mm) (pool_size mm)
              (release_block ptr (memory_blocks mm)) HL Hpsz) as (bs & Hco & Hbs).
  { eapply tiles_same_span; [apply release_block_span | done]. }
  rewrite Hco. simpl. eexists _, _. split; [done |]. by split.
Qed.

Lemma deallocate_session L ptr mm r mm' :
  lib_ok L -> deallocate L ptr mm = Some (r, mm') -> session_step mm mm'.
Proof.
  intros HL. unfold deallocate.
  destruct (ptr =? 0); [intros [= _ <-]; apply session_step_refl |].
  destruct (allocated_blocks mm !! ptr); [| intros [= _ <-]; apply session_step_refl].
  destruct (coalesce_free_blocks L _) as [bs|] eqn:Hco; [| done].
  intros [= _ <-]. unfold session_step. simpl.
  split; [done |]. split; [done |]. split; [done |].
  apply (coalesce_length L _ _ HL) in Hco.
  rewrite <- (same_span_length _ _ (release_block_span ptr (memory_blocks mm))) in Hco. lia.
Qed.

Lemma deallocate_process_memory_inv L pid mm :
  lib_ok L -> arena_inv mm ->
  exists mm', deallocate_process_memory L pid mm = Some mm' /\ arena_inv mm'.
Proof.
  intros HL [Hpsz Ht]. unfold deallocate_process_memory.
  destruct (coalesce_tiles L (memory_pool mm) (pool_size mm)
              (release_owned pid <$> memory_blocks mm) HL Hpsz) as (bs & Hco & Hbs).
  { eapply tiles_same_span; [apply release_owned_span | done]. }
  rewrite Hco. simpl. eexists. split; [done |]. by split.
Qed.

Lemma deallocate_process_memory_session L pid mm mm' :
  lib_ok L -> deallocate_process_memory L pid mm = Some mm' -> session_step mm mm'.
Proof.
  intros HL. unfold deallocate_process_memory.
  destruct (coalesce_free_blocks L _) as [bs|] eqn:Hco; [| done].
  intros [= <-]. unfold session_step. simpl.
  split; [done |]. split; [done |]. split; [done |].
  apply (coalesce_length L _ _ HL) in Hco. rewrite length_fmap in Hco. lia.
Qed.

Lemma set_page_table_inv pt mm : arena_inv mm -> arena_inv (set_page_table pt mm).
Proof. done. Qed.

Lemma map_page_inv v p mm : arena_inv mm -> arena_inv (snd (map_page v p mm)).
Proof. intros Hi. unfold map_page. by destruct (page_table mm !! _). Qed.

Lemma unmap_page_inv v mm : arena_inv mm -> arena_inv (unmap_page v mm).
Proof. intros Hi. unfold unmap_page. by destruct (page_table mm !! _). Qed.

Lemma map_page_session v p mm : session_step mm (snd (map_page v p mm)).
Proof.
  unfold map_page, session_step. destruct (page_table mm !! _); simpl; repeat split; lia.
Qed.

Lemma unmap_page_session v mm : session_step mm (unmap_page v mm).
Proof.
  unfold unmap_page, session_step. destruct (page_table mm !! _); simpl; repeat split; lia.
Qed.

Lemma session_step_trans mm1 mm2 mm3 :
  session_step mm1 mm2 ->
  memory_pool mm3 = memory_pool mm2 -> pool_size mm3 = pool_size mm2 ->
  blocks_capacity mm3 = blocks_capacity mm2 ->
  (length (memory_blocks mm3) <= length (memory_blocks mm2))%nat ->
  session_step mm1 mm3.
Proof. intros (H1 & H2 & H3 & H4) H5 H6 H7 H8. unfold session_step. repeat split; lia. Qed.

(** [allocate_virtual_page] is [allocate_aligned], a step of the counter and
    [map_page]. *)
Lemma allocate_virtual_page_cases mm v mm' :
  allocate_virtual_page mm = Some (v, mm') ->
  exists page mm1,
    allocate_aligned PAGE_SIZE PAGE_SIZE mm = Some (page, mm1) /\
    ((page = 0 /\ v = 0 /\ mm' = mm1) \/
     (page <> 0 /\ v = next_virtual_address mm /\
      mm' = snd (map_page v page
                   (mkMM (memory_blocks mm1) (blocks_capacity mm1) (allocated_blocks mm1)
                         (memory_pool mm1) (pool_size mm1) (page_table mm1)
                         (wrap64 (next_virtual_address mm + PAGE_SIZE)))))).
Proof.
  unfold allocate_virtual_page.
  destruct (allocate_aligned _ _ mm) as [[page mm1]|] eqn:Ha; [| done]. simpl.
  pose proof (allocate_aligned_frame _ _ _ _ _ Ha) as Hf. injection Hf as _ _ _ Hn.
  destruct (Z.eqb_spec page 0) as [Hz|Hp]; intros [= <- <-]; exists page, mm1.
  - split; [done |]. by left.
  - split; [done |]. right. rewrite Hn. done.
Qed.

Lemma allocate_virtual_page_defined mm :
  (length (memory_blocks mm) < blocks_capacity mm)%nat ->
  is_Some (allocate_virtual_page mm).
Proof.
  intros Hroom. unfold allocate_virtual_page.
  destruct (allocate_aligned_defined PAGE_SIZE PAGE_SIZE mm Hroom) as [[page mm1] ->].
  simpl. by destruct (page =? 0).
Qed.

Lemma allocate_virtual_page_session mm v mm' :
  allocate_virtual_page mm = Some (v, mm') -> session_step mm mm'.
Proof.
  intros (page & mm1 & Ha & [(_ & _ & ->)|(_ & _ & ->)])%allocate_virtual_page_cases;
    pose proof (allocate_aligned_session _ _ _ _ _ Ha) as Hs; [done |].
  unfold map_page. simpl.
  destruct (page_table mm1 !! _); by eapply session_step_trans.
Qed.

Lemma allocate_virtual_page_inv mm v mm' :
  allocate_virtual_page mm = Some (v, mm') -> arena_inv mm -> arena_inv mm'.
Proof.
  intros (page & mm1 & Ha & [(_ & _ & ->)|(_ & _ & ->)])%allocate_virtual_page_cases Hi;
    pose proof (allocate_aligned_inv _ _ _ _ _ Ha Hi) as Hi1; [done |].
  by apply map_page_inv.
Qed.

Lemma free_virtual_page_inv L page mm :
  lib_ok L -> arena_inv mm ->
  exists mm', free_virtual_page L page mm = Some mm' /\ arena_inv mm'.
Proof.
  intros HL Hi. unfold free_virtual_page.
  destruct (_ =? 0); [by eexists |].
  destruct (deallocate_inv L (virtual_to_physical page mm) (unmap_page page mm) HL)
    as (r & mm' & -> & Hi'); [by apply unmap_page_inv |].
  by exists mm'.
Qed.

Lemma free_virtual_page_session L page mm mm' :
  lib_ok L -> free_virtual_page L page mm = Some mm' -> session_step mm mm'.
Proof.
  intros HL. unfold free_virtual_page.
  destruct (_ =? 0); [intros [= <-]; apply session_step_refl |].
  destruct (deallocate L _ _) as [[r mm1]|] eqn:Hd; [| done]. intros [= <-].
  pose proof (deallocate_session L _ _ _ _ HL Hd) as (H1 & H2 & H3 & H4).
  pose proof (unmap_page_session page mm) as (H5 & H6 & H7 & _).
  assert (H8 : memory_blocks (unmap_page page mm) = memory_blocks mm).
  { unfold unmap_page. by destruct (page_table mm !! _). }
  rewrite H8 in H4. unfold session_step. repeat split; lia.
Qed.

(** A step of a session that is defined keeps the arena tiled; and it is
    defined when the vector has room for one more block. *)
Lemma step_inv L op mm mm' :
  lib_ok L -> is_initialize op = false -> step L op mm = Some mm' ->
  arena_inv mm -> arena_inv mm' /\ session_step mm mm'.
Proof.
  intros HL Hop Hstep Hi.
  destruct op as [pool|sz|sz al|ptr| |pid sz|pid| |page]; simpl in *; try done.
  - destruct (allocate sz mm) as [[p mm1]|] eqn:Ha; [| done]. injection Hstep as <-.
    split; [by eapply allocate_inv | by eapply allocate_session].
  - destruct (allocate_aligned sz al mm) as [[p mm1]|] eqn:Ha; [| done].
    injection Hstep as <-.
    split; [by eapply allocate_aligned_inv | by eapply allocate_aligned_session].
  - destruct (deallocate L ptr mm) as [[r mm1]|] eqn:Hd; [| done]. injection Hstep as <-.
    destruct (deallocate_inv L ptr mm HL Hi) as (r' & mm2 & Hd' & Hi').
    rewrite Hd in Hd'. injection Hd' as <- <-.
    split; [done | by eapply deallocate_session].
  - destruct (coalesce_free_blocks L _) as [bs|] eqn:Hco; [| done]. injection Hstep as <-.
    destruct (coalesce_inv L mm HL Hi) as (bs' & Hco' & Hi').
    rewrite Hco in Hco'. injection Hco' as <-. split; [done |].
    unfold session_step. simpl. apply (coalesce_length L _ _ HL) in Hco.
    repeat split; lia.
  - destruct (allocate_for_process pid sz mm) as [[p mm1]|] eqn:Ha; [| done].
    injection Hstep as <-.
    split; [by eapply allocate_for_process_inv | by eapply allocate_for_process_session].
  - destruct (deallocate_process_memory_inv L pid mm HL Hi) as (mm2 & Hd' & Hi').
    rewrite Hstep in Hd'. injection Hd' as <-.
    split; [done | by eapply deallocate_process_memory_session].
  - destruct (allocate_virtual_page mm) as [[p mm1]|] eqn:Ha; [| done].
    injection Hstep as <-.
    split; [by eapply allocate_virtual_page_inv | by eapply allocate_virtual_page_session].
  - destruct (free_virtual_page_inv L page mm HL Hi) as (mm2 & Hd' & Hi').
    rewrite Hstep in Hd'. injection Hd' as <-.
    split; [done | by eapply free_virtual_page_session].
Qed.

Lemma step_defined L op mm :
  lib_ok L -> is_initialize op = false -> arena_inv mm ->
  (length (memory_blocks mm) < blocks_capacity mm)%nat ->
  is_Some (step L op mm).
Proof.
  intros HL Hop Hi Hroom.
  destruct op as [pool|sz|sz al|ptr| |pid sz|pid| |page]; simpl in *; try done.
  - destruct (allocate_defined sz mm Hroom) as [r ->]. done.
  - destruct (allocate_aligned_defined sz al mm Hroom) as [r ->]. done.
  - destruct (deallocate_inv L ptr mm HL Hi) as (r & mm' & -> & _). done.
  - destruct (coalesce_inv L mm HL Hi) as (bs & -> & _). done.
  - destruct (allocate_for_process_defined pid sz mm Hroom) as [r ->]. done.
  - destruct (deallocate_process_memory_inv L pid mm HL Hi) as (mm' & -> & _). done.
  - destruct (allocate_virtual_page_defined mm Hroom) as [r ->]. done.
  - destruct (free_virtual_page_inv L page mm HL Hi) as (mm' & -> & _). done.
Qed.

Lemma run_inv L ops : forall mm mm',
  lib_ok L -> forallb (fun op => negb (is_initialize op)) ops = true ->
  run L ops mm = Some mm' -> arena_inv mm ->
  arena_inv mm' /\
  memory_pool mm' = memory_pool mm /\ pool_size mm' = pool_size mm /\
  blocks_capacity mm' = blocks_capacity mm /\
  (length (memory_blocks mm') <= length (memory_blocks mm) + length ops)%nat.
Proof.
  induction ops as [|op ops IH]; intros mm mm' HL Hops Hrun Hi; simpl in *.
  - injection Hrun as <-. split; [done |]. repeat split; lia.
  - apply andb_prop in Hops as [Hop%negb_true_iff Hops].
    destruct (step L op mm) as [mm1|] eqn:Hstep; [| done]. simpl in Hrun.
    destruct (step_inv L op mm mm1 HL Hop Hstep Hi) as [Hi1 (H1 & H2 & H3 & H4)].
    destruct (IH mm1 mm' HL Hops Hrun Hi1) as (Hi' & H5 & H6 & H7 & H8).
    split; [done |]. repeat split; lia.
Qed.

Lemma run_defined L ops : forall mm,
  lib_ok L -> forallb (fun op => negb (is_initialize op)) ops = true ->
  arena_inv mm ->
  (length (memory_blocks mm) + length ops <= blocks_capacity mm)%nat ->
  is_Some (run L ops mm).
Proof.
  induction ops as [|op ops IH]; intros mm HL Hops Hi Hroom; simpl in *; [done |].
  apply andb_prop in Hops as [Hop%negb_true_iff Hops].
  destruct (step_defined L op mm HL Hop Hi ltac:(lia)) as [mm1 Hstep].
  rewrite Hstep. simpl.
  destruct (step_inv L op mm mm1 HL Hop Hstep Hi) as [Hi1 (H1 & H2 & H3 & H4)].
  apply IH; try done. lia.
Qed.


(** C1, as amended.  Take an arena that [initialize] set up on a manager
    whose block table was empty (the pool pointer [pool] is not null), and a
    sequence of allocator operations that does not call [initialize] again.
    Whenever the sequence runs to its end with every call defined - no
    allocation had to split a block while the block vector was full - the
    spans of the blocks tile the arena in the state it reaches: every block
    lies inside it and every byte of it lies in exactly one span; hence
    [get_used_memory() + get_free_memory() = get_total_memory()], as an
    equation between integers, without wrap-around.  The sequence does run
    to its end when the vector that [initialize] leaves has room for one
    more block per operation.  A prefix of a sequence is a sequence, so this
    holds at every point of a run. *)
Theorem allocator_tiles_arena
    (L : StdLib) (pool : Z) (mm0 : MemoryManager) (ops : list Op) :
  lib_ok L ->
  pool <> 0 -> memory_blocks mm0 = [] -> 0 < pool_size mm0 < 2 ^ 64 ->
  forallb (fun op => negb (is_initialize op)) ops = true ->
  (forall mm, run L ops (snd (initialize L pool mm0)) = Some mm ->
              arena_tiled mm /\
              get_used_memory mm + get_free_memory mm = get_total_memory mm) /\
  ((S (length ops) <= blocks_capacity (snd (initialize L pool mm0)))%nat ->
   exists mm, run L ops (snd (initialize L pool mm0)) = Some mm).
Proof.
  intros HL Hp Hnil Hpsz Hops.
  pose proof (initialize_inv L pool mm0 Hp Hnil Hpsz) as Hi.
  split.
  - intros mm Hrun.
    destruct (run_inv L ops _ _ HL Hops Hrun Hi) as ([Hpsz' Ht] & _).
    split; [done |]. apply tiles_conservation; [lia | done].
  - intros Hroom. apply (run_defined L ops _ HL Hops Hi).
    rewrite initialize_true in * by done. rewrite Hnil in *. simpl in *. lia.
Qed.

(** C1: the theorem at a run of five operations on the pool at [demo_pool],
    in a manager whose vector holds eight blocks. *)
Lemma allocator_tiles_arena_witness :
  (forall mm,
     run sample_lib [OpAllocate 4096; OpAllocateForProcess 7 100; OpDeallocate demo_pool;
                     OpDeallocateProcessMemory 7; OpCoalesce]
         (snd (initialize sample_lib demo_pool warm_manager)) = Some mm ->
     arena_tiled mm /\
     get_used_memory mm + get_free_memory mm = get_total_memory mm) /\
  exists mm,
    run sample_lib [OpAllocate 4096; OpAllocateForProcess 7 100; OpDeallocate demo_pool;
                    OpDeallocateProcessMemory 7; OpCoalesce]
        (snd (initialize sample_lib demo_pool warm_manager)) = Some mm.
Proof.
  destruct (allocator_tiles_arena sample_lib demo_pool warm_manager
              [OpAllocate 4096; OpAllocateForProcess 7 100; OpDeallocate demo_pool;
               OpDeallocateProcessMemory 7; OpCoalesce]
              sample_lib_ok ltac:(discriminate) eq_refl ltac:(by vm_compute) eq_refl)
    as [Hsound Hdef].
  split; [exact Hsound |]. apply Hdef. vm_compute. lia.
Defined.

(** C1 as stated fails: [initialize] is one of the operations, and a second
    call appends a block for the new pool to the table without clearing it.
    The old block lies outside the arena, and the free memory is twice the
    total.  Besides, on the arena the kernel starts with the vector holds
    one block and is full: the first allocation that splits the block has
    no defined outcome. *)
Lemma reinitialize_breaks_tiling :
  (exists mm, run sample_lib [OpInitialize 0x20000000] fresh_init = Some mm /\
              ~ arena_tiled mm /\
              get_total_memory mm < get_free_memory mm) /\
  blocks_capacity fresh_init = 1%nat /\
  run sample_lib [OpAllocate 100] fresh_init = None.
Proof.
  split; [| split; reflexivity].
  eexists. split; [reflexivity |]. split.
  - intros [Hw _]. apply Forall_cons in Hw as [(Hlo & _) _].
    vm_compute in Hlo. by apply Hlo.
  - vm_compute. reflexivity.
Qed.

(** An allocation that takes the one block of that arena whole is
    defined. *)
Lemma whole_pool_defined :
  fst <$> allocate MEMORY_POOL_SIZE fresh_init = Some demo_pool.
Proof. reflexivity. Qed.

(** *** Coalescing *)

Lemma sort_blocks_sorted_id l : Sorted addr_le l -> sort_blocks l = l.
Proof.
  induction 1 as [|b l Hs IH Hhd]; simpl; [done |].
  rewrite IH. destruct Hhd as [|c l Hbc]; simpl; [done |].
  unfold addr_le in Hbc. by destruct (Z.leb_spec (address b) (address c)); [| lia].
Qed.

Lemma merge_from_head cur rest :
  exists c tl, merge_from cur rest = c :: tl /\
               address c = address cur /\ is_free c = is_free cur.
Proof.
  revert cur. induction rest as [|nxt rest IH]; intros cur; simpl; [by eexists _, _ |].
  destruct (mergeable cur nxt); [| by eexists _, _].
  destruct (IH (mkBlock (address cur) (wrap64 (size cur + size nxt))
                        (is_free cur) (process_id cur))) as (c & tl & -> & Ha & Hf).
  by eexists _, _.
Qed.

Lemma merge_from_sorted cur rest :
  Sorted addr_le (cur :: rest) -> Sorted addr_le (merge_from cur rest).
Proof.
  revert cur. induction rest as [|nxt rest IH]; intros cur Hs; simpl; [done |].
  apply Sorted_inv in Hs as [Hs Hhd]. apply HdRel_inv in Hhd.
  destruct (mergeable cur nxt).
  - apply IH. apply Sorted_inv in Hs as [Hs' Hhd']. constructor; [done |].
    destruct Hhd' as [|d l Hnd]; constructor. unfold addr_le in *. simpl. lia.
  - constructor; [by apply IH |].
    destruct (merge_from_head nxt rest) as (c & tl & -> & Ha & _).
    constructor. unfold addr_le in *. lia.
Qed.

Lemma merge_from_coalesced cur rest : coalesced (merge_from cur rest) = true.
Proof.
  revert cur. induction rest as [|nxt rest IH]; intros cur; simpl; [done |].
  destruct (mergeable cur nxt) eqn:Hm; [apply IH |].
  specialize (IH nxt).
  destruct (merge_from_head nxt rest) as (c & tl & Heq & Ha & Hf).
  rewrite Heq in *. change (negb (mergeable cur c) && coalesced (c :: tl) = true).
  rewrite IH, andb_true_r.
  unfold mergeable in *. by rewrite Ha, Hf, Hm.
Qed.

Lemma merge_from_fix cur rest :
  coalesced (cur :: rest) = true -> merge_from cur rest = cur :: rest.
Proof.
  revert cur. induction rest as [|nxt rest IH]; intros cur Hc; [done |].
  simpl in Hc. apply andb_prop in Hc as [Hm%negb_true_iff Hc].
  simpl. rewrite Hm. f_equal. by apply IH.
Qed.

Lemma merge_from_addresses cur rest :
  address <$> merge_from cur rest `sublist_of` address <$> cur :: rest.
Proof.
  revert cur. induction rest as [|nxt rest IH]; intros cur; simpl; [done |].
  destruct (mergeable cur nxt).
  - etrans; [apply IH |]. simpl. apply sublist_skip, sublist_cons. done.
  - apply sublist_skip. apply IH.
Qed.

Lemma Sorted_addr_le_head b l c : Sorted addr_le (b :: l) -> c ∈ l -> address b <= address c.
Proof.
  intros Hs%Sorted_StronglySorted; [| intros x y z; unfold addr_le; lia].
  apply StronglySorted_inv in Hs as [_ Hall].
  intros Hc. by apply (proj1 (Forall_forall _ _) Hall).
Qed.

(** Blocks at pairwise distinct addresses have one sorted arrangement. *)
Lemma sorted_permutation_unique (l1 l2 : list MemoryBlock) :
  NoDup (address <$> l1) -> Sorted addr_le l1 -> Sorted addr_le l2 -> l1 ≡ₚ l2 -> l1 = l2.
Proof.
  revert l2. induction l1 as [|b1 l1 IH]; intros l2 Hnd Hs1 Hs2 Hp.
  - by apply Permutation_nil_l in Hp.
  - destruct l2 as [|b2 l2]; [by apply Permutation_nil_r in Hp |].
    apply NoDup_cons in Hnd as [Hb1 Hnd].
    assert (b1 = b2) as <-.
    { assert (H1 : b1 ∈ b2 :: l2) by (rewrite <- Hp; left).
      assert (H2 : b2 ∈ b1 :: l1) by (rewrite Hp; left).
      apply elem_of_cons in H1 as [? | H1]; [done |].
      apply elem_of_cons in H2 as [? | H2]; [done |].
      pose proof (Sorted_addr_le_head _ _ _ Hs1 H2).
      pose proof (Sorted_addr_le_head _ _ _ Hs2 H1).
      exfalso. apply Hb1. apply list_elem_of_fmap. exists b2. split; [lia | done]. }
    f_equal. apply Permutation_cons_inv in Hp.
    apply IH; [done | by apply Sorted_inv in Hs1 as [? _]
               | by apply Sorted_inv in Hs2 as [? _] | done].
Qed.

(** After one pass over a table that is not empty the blocks are sorted by
    base address and no block is followed by a free block that starts where
    it ends, both being free - whatever [std::sort] does with equal
    addresses. *)
Lemma coalesce_sorted_merged L bs :
  lib_ok L -> bs <> [] ->
  exists bs1, coalesce_free_blocks L bs = Some bs1 /\ bs1 <> [] /\
              Sorted addr_le bs1 /\ coalesced bs1 = true.
Proof.
  intros HL Hne. unfold coalesce_free_blocks. destruct bs as [|b0 bs0]; [done |].
  pose proof (std_sort_sorted L (b0 :: bs0) HL) as Hs.
  pose proof (std_sort_perm L (b0 :: bs0) HL) as Hp.
  unfold merge_blocks. destruct (std_sort L (b0 :: bs0)) as [|b rest].
  - by apply Permutation_nil_l in Hp.
  - exists (merge_from b rest). split; [done |].
    split; [| split; [by apply merge_from_sorted | apply merge_from_coalesced]].
    destruct (merge_from_head b rest) as (c & tl & -> & _). done.
Qed.

(** A second pass changes nothing when the blocks lie at pairwise distinct
    addresses. *)
Lemma coalesce_twice L bs :
  lib_ok L -> bs <> [] -> NoDup (address <$> bs) ->
  exists bs1, coalesce_free_blocks L bs = Some bs1 /\
              coalesce_free_blocks L bs1 = Some bs1.
Proof.
  intros HL Hne Hnd.
  destruct (coalesce_sorted_merged L bs HL Hne) as (bs1 & Hco & Hne1 & Hs1 & Hc1).
  exists bs1. split; [done |].
  assert (Hnd1 : NoDup (address <$> bs1)).
  { unfold coalesce_free_blocks in Hco. destruct bs as [|b0 bs0]; [done |].
    injection Hco as <-. unfold merge_blocks.
    pose proof (std_sort_perm L (b0 :: bs0) HL) as Hp.
    destruct (std_sort L (b0 :: bs0)) as [|b rest]; [constructor |].
    eapply sublist_NoDup; [| apply merge_from_addresses].
    by rewrite Hp. }
  unfold coalesce_free_blocks. destruct bs1 as [|c tl]; [done |].
  rewrite <- (sorted_permutation_unique (c :: tl) (std_sort L (c :: tl)));
    [| done | done | by apply std_sort_sorted | symmetry; by apply std_sort_perm].
  simpl. by rewrite (merge_from_fix c tl Hc1).
Qed.

(** C9: what the code does on a table without blocks, the table the
    constructor and [shutdown] leave.  [memory_blocks.size() - 1] is
    computed in [size_t] and is [2^64 - 1] there, the loop is entered and
    reads [memory_blocks[0]] and [memory_blocks[1]] of an empty vector:
    the pass is undefined, and so is [deallocate_process_memory], which ends
    with it, whatever the pid. *)
Lemma coalesce_empty_table_undefined (L : StdLib) (pid : Z) :
  memory_blocks new_manager = [] /\
  memory_blocks (shutdown demo_init) = [] /\
  coalesce_free_blocks L (memory_blocks new_manager) = None /\
  deallocate_process_memory L pid new_manager = None /\
  deallocate_process_memory L pid (shutdown demo_init) = None.
Proof. repeat split. Qed.

(** Where two blocks share a base address - a request of [2^64 - 1] bytes is
    rounded to [0] and leaves a block of size [0] in front of the remainder -
    the order [std::sort] gives them is the library's choice, and with a
    library that swaps them a second pass does change the table. *)
Lemma coalesce_ties_depend_on_sort :
  exists mm bs1 bs2,
    run other_lib [OpAllocate (2 ^ 64 - 1)] demo_init = Some mm /\
    coalesce_free_blocks other_lib (memory_blocks mm) = Some bs1 /\
    coalesce_free_blocks other_lib bs1 = Some bs2 /\
    bs1 <> bs2.
Proof. eexists _, _, _. repeat split. discriminate. Qed.

(** *** First fit *)

Lemma first_fit_scan_first sz pre b post :
  Forall (fun c => fits sz c = false) pre -> fits sz b = true ->
  first_fit_scan sz (pre ++ b :: post) = Some (pre, b, post).
Proof.
  intros Hpre Hb. induction Hpre as [|c pre Hc _ IH]; simpl.
  - by rewrite Hb.
  - by rewrite Hc, IH.
Qed.

(** C4, as amended.  [allocate(size)] with [size <> 0] scans the blocks in
    table order, the order of the vector, for the first block that is free
    and at least as large as the request rounded by [align8].  The call is
    defined unless that block is larger than the rounded request and the
    vector is full, and a defined call returns the base address of that
    block.  The address depends on the block table alone: every manager
    with this table returns it. *)
Theorem allocate_first_fit_table_order
    (sz : Z) (mm : MemoryManager) (pre post : list MemoryBlock) (b : MemoryBlock) :
  sz <> 0 ->
  memory_blocks mm = pre ++ b :: post ->
  Forall (fun c => fits (align8 sz) c = false) pre ->
  fits (align8 sz) b = true ->
  (is_Some (allocate sz mm) <->
   size b = align8 sz \/ (length (memory_blocks mm) < blocks_capacity mm)%nat) /\
  forall mm2 p mm2',
    memory_blocks mm2 = memory_blocks mm ->
    allocate sz mm2 = Some (p, mm2') -> p = address b.
Proof.
  intros Hsz Hbs Hpre Hb.
  pose proof (first_fit_scan_first _ pre b post Hpre Hb) as Hscan.
  pose proof Hb as Hb'. unfold fits in Hb'. apply andb_prop in Hb' as [_ Hle%Z.leb_le].
  split.
  - unfold allocate. destruct (Z.eqb_spec sz 0) as [|_]; [done |].
    unfold first_fit_allocate. rewrite Hbs, Hscan, <- Hbs.
    destruct (Z.ltb_spec (align8 sz) (size b)) as [Hlt|Hge].
    + destruct (Nat.ltb_spec (length (memory_blocks mm)) (blocks_capacity mm)).
      * simpl. destruct (address b =? 0); split; [by right | done | by right | done].
      * simpl. split; [by intros [? ?] | intros [?|?]; lia].
    + simpl. destruct (address b =? 0); split; intros; try done; left; lia.
  - intros mm2 p mm2' Heq Ha.
    destruct (allocate_shape _ _ _ _ Ha) as [_ [(? & _)|(_ & Hffa)]]; [done |].
    rewrite Heq, Hbs in Hffa. unfold first_fit_allocate in Hffa. rewrite Hscan in Hffa.
    destruct (align8 sz <? size b); [destruct (_ <? _)%nat |]; by simplify_eq.
Qed.

(** C4: the theorem at the first allocation from an arena whose vector has
    room. *)
Lemma allocate_first_fit_table_order_witness :
  (is_Some (allocate 8 demo_init) <->
   MEMORY_POOL_SIZE = align8 8 \/
   (length (memory_blocks demo_init) < blocks_capacity demo_init)%nat) /\
  forall mm2 p mm2',
    memory_blocks mm2 = memory_blocks demo_init ->
    allocate 8 mm2 = Some (p, mm2') -> p = demo_pool.
Proof.
  apply (allocate_first_fit_table_order 8 demo_init [] []
           (mkBlock demo_pool MEMORY_POOL_SIZE true (-1)));
    [discriminate | reflexivity | constructor | reflexivity].
Defined.

(** C4 as stated fails: a split pushes the remainder to the back of the
    vector, so table order is not address order.  In [fragmented], reached
    by four defined calls, the free 8-byte block at offset 8 comes after the
    large free block at offset 24 in the table, and [allocate(8)] returns
    offset 24.  Besides, the rounding wraps around: a request of [2^64 - 1]
    bytes is rounded to [0] and served, from the first free block, with a
    block of size [0]. *)
Lemma allocate_not_address_order :
  (exists mm, fragmented = Some mm /\
              lowest_fit (align8 8) (memory_blocks mm) = Some (demo_pool + 8) /\
              fst <$> allocate 8 mm = Some (demo_pool + 24)) /\
  fst <$> allocate (2 ^ 64 - 1) demo_init = Some demo_pool /\
  memory_blocks <$> (snd <$> allocate (2 ^ 64 - 1) demo_init)
  = Some [mkBlock demo_pool 0 false (-1); mkBlock demo_pool MEMORY_POOL_SIZE true (-1)].
Proof.
  split; [| split; reflexivity].
  eexists. split; [reflexivity |]. split; reflexivity.
Qed.

(** *** Invalid frees *)

Lemma deallocate_null L mm : deallocate L 0 mm = Some (FreeNull, mm).
Proof. done. Qed.

Lemma deallocate_unknown L ptr mm :
  ptr <> 0 -> allocated_blocks mm !! ptr = None ->
  deallocate L ptr mm = Some (FreeInvalid, mm).
Proof.
  intros Hp Hnone. unfold deallocate. destruct (Z.eqb_spec ptr 0) as [|_]; [done |].
  by rewrite Hnone.
Qed.

Lemma deallocate_erases_record L ptr mm r mm' :
  deallocate L ptr mm = Some (r, mm') -> ptr <> 0 -> allocated_blocks mm' !! ptr = None.
Proof.
  unfold deallocate. intros Hd Hp. destruct (Z.eqb_spec ptr 0) as [|_]; [done |].
  destruct (allocated_blocks mm !! ptr) eqn:Hl; [| by simplify_eq].
  destruct (coalesce_free_blocks _ _); simplify_eq/=. apply lookup_delete_eq.
Qed.

(** C7: what the code does on the address of a block that
    [deallocate_process_memory] released.  Process 7 takes the whole pool of
    the arena the kernel starts with (no block is split), and is released.
    The block is free, but its allocation record is still in the map, so
    [deallocate] takes the address for a live allocation: it reports a
    completed free, not an invalid one, and erases the record. *)
Lemma deallocate_after_process_release :
  exists p mm2 mm3,
    owner_released = Some (p, mm2) /\
    p = demo_pool /\
    memory_blocks mm2 = [mkBlock demo_pool MEMORY_POOL_SIZE true (-1)] /\
    allocated_blocks mm2 !! p = Some MEMORY_POOL_SIZE /\
    deallocate sample_lib p mm2 = Some (FreeDone, mm3) /\
    allocated_blocks mm3 !! p = None /\
    allocated_blocks mm3 <> allocated_blocks mm2.
Proof.
  eexists _, _, _. split; [reflexivity |].
  split; [reflexivity |]. split; [reflexivity |]. split; [reflexivity |].
  split; [reflexivity |]. split; [reflexivity |].
  intros Heq. apply (f_equal (fun m => m !! demo_pool)) in Heq. vm_compute in Heq.
  discriminate.
Qed.

(** *** The page mapper *)

Lemma mask_page x :
  0 <= x < 2 ^ 64 ->
  Z.land x (wrap64 (Z.lnot (wrap64 (PAGE_SIZE - 1)))) = PAGE_SIZE * (x / PAGE_SIZE).
Proof.
  intros Hx.
  change (wrap64 (Z.lnot (wrap64 (PAGE_SIZE - 1))))
    with (Z.land (Z.lnot (Z.ones 12)) (Z.ones 64)).
  rewrite Z.land_assoc, Z.land_ones, <- Z.ldiff_land by lia.
  rewrite Z.ldiff_ones_r, Z.shiftr_div_pow2, Z.shiftl_mul_pow2 by lia.
  change (2 ^ 12) with PAGE_SIZE. unfold PAGE_SIZE in *.
  rewrite Z.mod_small; [lia |].
  pose proof (Z.mul_div_le x 4096 ltac:(lia)).
  pose proof (Z.div_pos x 4096 ltac:(lia) ltac:(lia)). lia.
Qed.

Lemma page_join f v :
  Z.lor (Z.shiftl f 12) (Z.land v (PAGE_SIZE - 1)) = PAGE_SIZE * f + v mod PAGE_SIZE.
Proof.
  change (PAGE_SIZE - 1) with (Z.ones 12).
  rewrite Z.land_ones, Z.shiftl_mul_pow2 by lia. change (2 ^ 12) with PAGE_SIZE.
  pose proof (Z.add_lor_land (f * PAGE_SIZE) (v mod PAGE_SIZE)) as Hadd.
  assert (Z.land (f * PAGE_SIZE) (v mod PAGE_SIZE) = 0) as Hland.
  { change PAGE_SIZE with (2 ^ 12).
    rewrite <- (Z.land_ones v), (Z.land_comm v), Z.land_assoc, Z.land_ones by lia.
    rewrite Z.mod_mul by lia. apply Z.land_0_l. }
  rewrite Hland in Hadd. lia.
Qed.

Lemma map_page_translate v paddr mm :
  (page_index v < length (page_table mm))%nat ->
  virtual_to_physical v (snd (map_page v paddr mm))
  = PAGE_SIZE * ((paddr / PAGE_SIZE) mod 2 ^ 40) + v mod PAGE_SIZE.
Proof.
  intros Hin. unfold map_page.
  destruct (lookup_lt_is_Some_2 _ _ Hin) as [e He]. rewrite He. simpl.
  unfold virtual_to_physical. simpl.
  rewrite list_lookup_insert_eq by done. simpl.
  rewrite page_join, Z.shiftr_div_pow2 by lia. done.
Qed.

Lemma map_page_translate_low v paddr mm :
  (page_index v < length (page_table mm))%nat -> 0 <= paddr < 2 ^ 52 ->
  virtual_to_physical v (snd (map_page v paddr mm))
  = paddr - paddr mod PAGE_SIZE + v mod PAGE_SIZE.
Proof.
  intros Hin Hp. rewrite map_page_translate by done.
  rewrite Z.mod_small.
  - pose proof (Z.div_mod paddr PAGE_SIZE ltac:(unfold PAGE_SIZE; lia)). lia.
  - unfold PAGE_SIZE. split; [apply Z.div_pos; lia |].
    apply Z.div_lt_upper_bound; lia.
Qed.

(** The allocator proper leaves the pool and the page table alone. *)
Lemma deallocate_frame L ptr mm r mm' :
  deallocate L ptr mm = Some (r, mm') -> vm_frame mm' = vm_frame mm.
Proof.
  unfold deallocate. destruct (ptr =? 0); [by intros; simplify_eq |].
  destruct (allocated_blocks mm !! ptr); [| by intros; simplify_eq].
  destruct (coalesce_free_blocks _ _); intros; by simplify_eq/=.
Qed.

Lemma deallocate_process_memory_frame L pid mm mm' :
  deallocate_process_memory L pid mm = Some mm' -> vm_frame mm' = vm_frame mm.
Proof.
  unfold deallocate_process_memory.
  destruct (coalesce_free_blocks _ _); intros; by simplify_eq/=.
Qed.

Lemma vm_inv_frame n mm mm' :
  vm_frame mm' = vm_frame mm -> arena_inv mm' -> vm_inv n mm -> vm_inv n mm'.
Proof.
  unfold vm_frame. intros Hf Ha (_ & Hp & Hb & Hl & Hn).
  injection Hf as Hf1 Hf2 Hf3 Hf4.
  unfold vm_inv. by rewrite Hf1, Hf2, Hf3, Hf4.
Qed.

Lemma slot_mapped_frame i mm mm' :
  vm_frame mm' = vm_frame mm -> slot_mapped i mm -> slot_mapped i mm'.
Proof.
  unfold vm_frame, slot_mapped. intros Hf Hs. injection Hf as _ _ Hf _. by rewrite Hf.
Qed.

Lemma virtual_to_physical_mapped p mm :
  slot_mapped (page_index p) mm -> virtual_to_physical p mm <> 0.
Proof.
  intros (e & He & Hp & Hf). unfold virtual_to_physical. rewrite He, Hp.
  intros [Hz _]%Z.lor_eq_0_iff. apply Z.shiftl_eq_0_iff in Hz; [done | lia].
Qed.

Lemma page_index_next n :
  0 <= n < 2 ^ 51 -> page_index (VIRTUAL_BASE + PAGE_SIZE * n) = Z.to_nat n.
Proof.
  intros Hn. unfold page_index. f_equal.
  replace (VIRTUAL_BASE + PAGE_SIZE * n - VIRTUAL_BASE) with (n * PAGE_SIZE) by lia.
  rewrite wrap64_small by (unfold PAGE_SIZE; lia).
  apply Z.div_mul. unfold PAGE_SIZE. lia.
Qed.

(** The pointer a defined [allocate] hands out is the base address of a
    block of the table, which lies in the arena. *)
Lemma allocate_ptr_within sz mm p mm' :
  allocate sz mm = Some (p, mm') -> arena_inv mm -> p <> 0 ->
  memory_pool mm <= p <= memory_pool mm + pool_size mm.
Proof.
  intros Ha [_ [Hw _]] Hp.
  destruct (allocate_shape _ _ _ _ Ha) as [_ [(_ & ? & _)|(_ & Hffa)]]; [done |].
  destruct (first_fit_allocate_cases _ _ _ _ _ Hffa)
    as [(? & _)|(pre & b & post & Hbs & _ & _ & -> & _)]; [done |].
  rewrite Hbs in Hw. apply Forall_app in Hw as [_ Hw].
  apply Forall_cons in Hw as [(Hlo & Hs & Hhi) _]. lia.
Qed.

(** [allocate_virtual_page] maps the page it returns while the table has a
    slot for it. *)
Lemma allocate_virtual_page_maps n mm p mm1 :
  vm_inv n mm -> 0 <= n < 1024 ->
  allocate_virtual_page mm = Some (p, mm1) -> p <> 0 ->
  p = VIRTUAL_BASE + PAGE_SIZE * n /\ vm_inv (n + 1) mm1 /\ slot_mapped (Z.to_nat n) mm1.
Proof.
  intros Hinv Hn Halloc Hp.
  pose proof (allocate_virtual_page_inv _ _ _ Halloc (proj1 Hinv)) as Ha1.
  destruct Hinv as (Ha & Hpool & Hb & Hl & Hnext).
  destruct (allocate_virtual_page_cases _ _ _ Halloc)
    as (page & mm' & Hal & [(_ & ? & _)|(Hpage & -> & ->)]); [done |].
  pose proof (allocate_aligned_frame _ _ _ _ _ Hal) as Hf.
  injection Hf as Hf1 Hf2 Hf3 Hf4.
  destruct (allocate_aligned_cases _ _ _ _ _ Hal) as [(? & _)|(ptr & Hptr & Hr)]; [done |].
  destruct (Z.eqb_spec ptr 0) as [|Hne]; [done |].
  pose proof (allocate_ptr_within _ _ _ _ Hptr Ha Hne) as Hin.
  assert (Hpsz : 0 < pool_size mm) by (destruct Ha as [? _]; lia).
  assert (Hx : 0 <= ptr + PAGE_SIZE - 1 < 2 ^ 64) by (unfold PAGE_SIZE in *; lia).
  rewrite (wrap64_small _ Hx), (mask_page _ Hx) in Hr.
  assert (Hq : 1 <= (ptr + PAGE_SIZE - 1) / PAGE_SIZE < 2 ^ 40).
  { unfold PAGE_SIZE in *. split.
    - apply Z.div_le_lower_bound; lia.
    - apply Z.div_lt_upper_bound; lia. }
  rewrite Hnext in *. split; [done |].
  unfold map_page in *. simpl in *.
  rewrite page_index_next in * by lia.
  destruct (lookup_lt_is_Some_2 (page_table mm') (Z.to_nat n) ltac:(rewrite Hf3; lia))
    as [e He].
  rewrite He in *. simpl in *.
  split.
  - split; [done |]. simpl. rewrite Hf1, Hf2, length_insert, Hf3.
    repeat split; try done.
    rewrite wrap64_small by (unfold VIRTUAL_BASE, PAGE_SIZE in *; lia). lia.
  - eexists. simpl. split; [apply list_lookup_insert_eq; rewrite Hf3; lia |]. simpl.
    split; [done |]. rewrite Hr.
    rewrite Z.shiftr_div_pow2 by lia. change (2 ^ 12) with PAGE_SIZE.
    rewrite (Z.mul_comm PAGE_SIZE), Z.div_mul by (unfold PAGE_SIZE; lia).
    rewrite Z.mod_small; lia.
Qed.

Lemma allocate_virtual_page_step n mm p mm1 :
  vm_inv n mm -> 0 <= n < 2 ^ 51 - 1 ->
  allocate_virtual_page mm = Some (p, mm1) ->
  exists n', vm_inv n' mm1 /\ n <= n' <= n + 1 /\
             forall i, (i < Z.to_nat n)%nat -> page_table mm1 !! i = page_table mm !! i.
Proof.
  intros Hinv Hn Halloc.
  pose proof (allocate_virtual_page_inv _ _ _ Halloc (proj1 Hinv)) as Ha1.
  destruct Hinv as (Ha & Hpool & Hb & Hl & Hnext).
  destruct (allocate_virtual_page_cases _ _ _ Halloc)
    as (page & mm' & Hal & [(_ & _ & ->)|(Hpage & -> & ->)]);
    pose proof (allocate_aligned_frame _ _ _ _ _ Hal) as Hf;
    injection Hf as Hf1 Hf2 Hf3 Hf4.
  - exists n. split; [| split; [lia |]].
    + split; [done |]. by rewrite Hf1, Hf2, Hf3, Hf4.
    + intros i _. by rewrite Hf3.
  - exists (n + 1). rewrite Hnext in *.
    unfold map_page in *. simpl in *. rewrite page_index_next in * by lia.
    assert (Hw : wrap64 (VIRTUAL_BASE + PAGE_SIZE * n + PAGE_SIZE)
                 = VIRTUAL_BASE + PAGE_SIZE * (n + 1)).
    { rewrite wrap64_small by (unfold VIRTUAL_BASE, PAGE_SIZE; lia). lia. }
    destruct (page_table mm' !! Z.to_nat n) as [e|]; simpl in *.
    + split; [| split; [lia |]].
      * split; [done |]. simpl. rewrite Hf1, Hf2, length_insert, Hf3. done.
      * intros i Hi. rewrite <- Hf3. apply list_lookup_insert_ne. lia.
    + split; [| split; [lia |]].
      * split; [done |]. simpl. by rewrite Hf1, Hf2, Hf3.
      * intros i _. by rewrite Hf3.
Qed.

Lemma unmap_page_frame q mm :
  memory_pool (unmap_page q mm) = memory_pool mm /\
  pool_size (unmap_page q mm) = pool_size mm /\
  next_virtual_address (unmap_page q mm) = next_virtual_address mm /\
  length (page_table (unmap_page q mm)) = length (page_table mm) /\
  forall i, page_index q <> i -> page_table (unmap_page q mm) !! i = page_table mm !! i.
Proof.
  unfold unmap_page. destruct (page_table mm !! page_index q); simpl; [| done].
  rewrite length_insert. repeat split; try done.
  intros i Hi. by apply list_lookup_insert_ne.
Qed.

Lemma unmap_page_unmapped q mm : virtual_to_physical q (unmap_page q mm) = 0.
Proof.
  unfold unmap_page, virtual_to_physical.
  destruct (page_table mm !! page_index q) as [e|] eqn:He; simpl; [| by rewrite He].
  rewrite list_lookup_insert_eq; [done |]. by eapply lookup_lt_Some.
Qed.

Lemma free_virtual_page_step L n q mm :
  lib_ok L -> vm_inv n mm ->
  exists mm', free_virtual_page L q mm = Some mm' /\ vm_inv n mm' /\
              forall i, page_index q <> i -> page_table mm' !! i = page_table mm !! i.
Proof.
  intros HL Hinv.
  destruct (free_virtual_page_inv L q mm HL (proj1 Hinv)) as (mm' & Hfree & Ha').
  exists mm'. split; [done |].
  destruct Hinv as (Ha & Hpool & Hb & Hl & Hnext).
  unfold free_virtual_page in Hfree.
  destruct (_ =? 0); [by simplify_eq |].
  destruct (deallocate _ _ _) as [[r mm'']|] eqn:Hd; simplify_eq/=.
  apply deallocate_frame in Hd. injection Hd as Hf1 Hf2 Hf3 Hf4.
  destruct (unmap_page_frame q mm) as (Hu1 & Hu2 & Hu3 & Hu4 & Hu5).
  split.
  - split; [done |]. by rewrite Hf1, Hf2, Hf3, Hf4, Hu1, Hu2, Hu3, Hu4.
  - intros i Hi. rewrite Hf3. by apply Hu5.
Qed.

Lemma free_virtual_page_unmaps L p mm mm' :
  free_virtual_page L p mm = Some mm' -> virtual_to_physical p mm' = 0.
Proof.
  unfold free_virtual_page. destruct (Z.eqb_spec (virtual_to_physical p mm) 0) as [Hz|_].
  - intros ?; by simplify_eq.
  - destruct (deallocate _ _ _) as [[r mm'']|] eqn:Hd; intros ?; simplify_eq/=.
    apply deallocate_frame in Hd. injection Hd as _ _ Hf _.
    pose proof (unmap_page_unmapped p mm) as Hu.
    unfold virtual_to_physical in *. by rewrite Hf.
Qed.

Lemma step_vm L op mm mm' n :
  lib_ok L -> vm_inv n mm -> 0 <= n < 2 ^ 51 - 1 -> is_initialize op = false ->
  step L op mm = Some mm' ->
  exists n', vm_inv n' mm' /\ n <= n' <= n + 1 /\
             forall i, (i < Z.to_nat n)%nat -> frees_slot i op = false ->
                       page_table mm' !! i = page_table mm !! i.
Proof.
  intros HL Hinv Hn Hop Hstep.
  destruct (step_inv L op mm mm' HL Hop Hstep (proj1 Hinv)) as [Ha' _].
  assert (Hframe : vm_frame mm' = vm_frame mm ->
            exists n', vm_inv n' mm' /\ n <= n' <= n + 1 /\
              forall i, (i < Z.to_nat n)%nat -> frees_slot i op = false ->
                        page_table mm' !! i = page_table mm !! i).
  { intros Hf. exists n. split; [by eapply vm_inv_frame |]. split; [lia |].
    intros i _ _. by injection Hf as _ _ -> _. }
  destruct op as [pool|sz|sz al|ptr| |pid sz|pid| |page]; simpl in *; try done.
  - destruct (allocate sz mm) as [[p mm1]|] eqn:Hc; [| done]. injection Hstep as <-.
    apply Hframe. by eapply allocate_frame.
  - destruct (allocate_aligned sz al mm) as [[p mm1]|] eqn:Hc; [| done].
    injection Hstep as <-. apply Hframe. by eapply allocate_aligned_frame.
  - destruct (deallocate L ptr mm) as [[r mm1]|] eqn:Hc; [| done]. injection Hstep as <-.
    apply Hframe. by eapply deallocate_frame.
  - destruct (coalesce_free_blocks L _) as [bs|]; [| done]. injection Hstep as <-.
    by apply Hframe.
  - destruct (allocate_for_process pid sz mm) as [[p mm1]|] eqn:Hc; [| done].
    injection Hstep as <-. apply Hframe. by eapply allocate_for_process_frame.
  - apply Hframe. by eapply deallocate_process_memory_frame.
  - destruct (allocate_virtual_page mm) as [[p mm1]|] eqn:Hc; [| done].
    injection Hstep as <-.
    destruct (allocate_virtual_page_step n mm p mm1 Hinv Hn Hc) as (n' & Hi' & Hn' & Hpt).
    exists n'. split; [done |]. split; [done |]. intros i Hi _. by apply Hpt.
  - destruct (free_virtual_page_step L n page mm HL Hinv) as (mm2 & Hfree & Hi' & Hpt).
    rewrite Hstep in Hfree. injection Hfree as <-.
    exists n. split; [done |]. split; [lia |].
    intros i _ Hq. apply Hpt. by apply bool_decide_eq_false in Hq.
Qed.

Lemma run_vm L ops : forall mm mm' n,
  lib_ok L -> vm_inv n mm -> 0 <= n -> n + Z.of_nat (length ops) < 2 ^ 51 ->
  forallb (fun op => negb (is_initialize op)) ops = true ->
  run L ops mm = Some mm' ->
  exists n', vm_inv n' mm' /\
             n <= n' <= n + Z.of_nat (length ops) /\
             forall i, (i < Z.to_nat n)%nat ->
                       forallb (fun op => negb (frees_slot i op)) ops = true ->
                       page_table mm' !! i = page_table mm !! i.
Proof.
  induction ops as [|op ops IH]; intros mm mm' n HL Hinv Hn Hlen Hops Hrun; simpl in *.
  - injection Hrun as <-. exists n. split; [done |]. split; [lia | done].
  - apply andb_prop in Hops as [Hop%negb_true_iff Hops].
    destruct (step L op mm) as [mm1|] eqn:Hstep; [| done]. simpl in Hrun.
    destruct (step_vm L op mm mm1 n HL Hinv ltac:(lia) Hop Hstep) as (n1 & Hi1 & Hn1 & Hpt1).
    destruct (IH mm1 mm' n1 HL Hi1 ltac:(lia) ltac:(lia) Hops Hrun)
      as (n2 & Hi2 & Hn2 & Hpt2).
    exists n2. split; [done |]. split; [lia |].
    intros i Hi Hfr. apply andb_prop in Hfr as [Hf1%negb_true_iff Hf2].
    rewrite Hpt2 by (done || lia). by apply Hpt1.
Qed.

(** [initialize] on a manager with an empty table that has handed out [k]
    virtual pages so far. *)
Lemma initialize_vm_inv L pool k mmc :
  0 < pool -> pool + MEMORY_POOL_SIZE + PAGE_SIZE <= 2 ^ 52 ->
  memory_blocks mmc = [] -> pool_size mmc = MEMORY_POOL_SIZE ->
  next_virtual_address mmc = VIRTUAL_BASE + PAGE_SIZE * k ->
  vm_inv k (snd (initialize L pool mmc)).
Proof.
  intros Hp Hb Hnil Hpsz Hnext.
  split; [apply initialize_inv; [lia | done | by rewrite Hpsz] |].
  rewrite initialize_true by lia. simpl. rewrite Hpsz.
  split; [done |]. split; [done |]. split; [| done].
  rewrite length_fmap. unfold resize_table.
  rewrite length_app, length_take, length_replicate. lia.
Qed.

(** C6, as amended.  Take a session that [initialize] started, on a pool
    below [2^52], in a manager with an empty block table that had handed out
    [k] virtual pages before; let the session see fewer than [2^50 - k]
    operations, none of them a second [initialize], and let every call in it
    be defined.  A virtual page [p] that [allocate_virtual_page] returned
    and that has a slot in the 1024-entry table translates to a nonzero
    physical address after any further operations that do not call
    [free_virtual_page] on an address of its slot, and to [0] once
    [free_virtual_page(p)] is called, a call that is always defined.  The
    further operations are all defined when the block vector has room for
    one more block per operation.  For every [v] whose index is within the
    table, [map_page(v, paddr)] followed by [virtual_to_physical(v)] gives
    the frame number of [paddr] cut to 40 bits, shifted back, plus the
    offset bits of [v]; for [paddr] below [2^52] that is [paddr] masked to a
    page boundary plus the offset bits of [v]. *)
Theorem virtual_page_round_trip
    (L : StdLib) (pool k : Z) (mmc : MemoryManager) (ops0 ops : list Op)
    (mm0 mm1 : MemoryManager) (p : Z) :
  lib_ok L ->
  0 < pool -> pool + MEMORY_POOL_SIZE + PAGE_SIZE <= 2 ^ 52 ->
  memory_blocks mmc = [] -> pool_size mmc = MEMORY_POOL_SIZE ->
  0 <= k -> next_virtual_address mmc = VIRTUAL_BASE + PAGE_SIZE * k ->
  forallb (fun op => negb (is_initialize op)) (ops0 ++ ops) = true ->
  k + Z.of_nat (length (ops0 ++ ops)) < 2 ^ 50 ->
  run L ops0 (snd (initialize L pool mmc)) = Some mm0 ->
  allocate_virtual_page mm0 = Some (p, mm1) -> p <> 0 ->
  (page_index p < 1024)%nat ->
  forallb (fun op => negb (frees_slot (page_index p) op)) ops = true ->
  ((length (memory_blocks mm1) + length ops <= blocks_capacity mm1)%nat ->
   exists mm2, run L ops mm1 = Some mm2) /\
  (forall mm2, run L ops mm1 = Some mm2 ->
               virtual_to_physical p mm2 <> 0 /\
               exists mm3, free_virtual_page L p mm2 = Some mm3 /\
                           virtual_to_physical p mm3 = 0) /\
  (forall v paddr mm,
     (page_index v < length (page_table mm))%nat ->
     virtual_to_physical v (snd (map_page v paddr mm))
     = PAGE_SIZE * ((paddr / PAGE_SIZE) mod 2 ^ 40) + v mod PAGE_SIZE /\
     (0 <= paddr < 2 ^ 52 ->
      virtual_to_physical v (snd (map_page v paddr mm))
      = paddr - paddr mod PAGE_SIZE + v mod PAGE_SIZE)).
Proof.
  intros HL Hpool Hbound Hnil Hpsz Hk Hnext Hnoinit Hlen Hrun0 Halloc Hp Hslot Hfree.
  rewrite forallb_app in Hnoinit. apply andb_prop in Hnoinit as [Hno0 Hno].
  rewrite length_app, Nat2Z.inj_add in Hlen.
  destruct (run_vm L ops0 _ _ k HL (initialize_vm_inv L pool k mmc Hpool Hbound Hnil Hpsz Hnext)
              Hk ltac:(lia) Hno0 Hrun0) as (n0 & Hi0 & Hn0 & _).
  assert (Hn0' : n0 < 1024).
  { destruct (Z.ltb_spec n0 1024) as [|Hge]; [done |]. exfalso.
    destruct Hi0 as (_ & _ & _ & _ & Hnext0).
    destruct (allocate_virtual_page_cases _ _ _ Halloc)
      as (page & mm' & _ & [(_ & ? & _)|(_ & Hv & _)]); [done |].
    rewrite Hv, Hnext0, page_index_next in Hslot by lia. lia. }
  destruct (allocate_virtual_page_maps n0 mm0 p mm1 Hi0 ltac:(lia) Halloc Hp)
    as (-> & Hi1 & Hmap).
  rewrite page_index_next in * by lia.
  split; [| split].
  - intros Hroom. apply (run_defined L ops mm1 HL Hno (proj1 Hi1) Hroom).
  - intros mm2 Hrun.
    destruct (run_vm L ops mm1 mm2 (n0 + 1) HL Hi1 ltac:(lia) ltac:(lia) Hno Hrun)
      as (n2 & Hi2 & Hn2 & Hpt).
    assert (Hmap2 : slot_mapped (Z.to_nat n0) mm2).
    { destruct Hmap as (e & He & Hpe). exists e. rewrite Hpt; [done | lia | done]. }
    split.
    + apply virtual_to_physical_mapped. by rewrite page_index_next by lia.
    + destruct (free_virtual_page_step L n2 (VIRTUAL_BASE + PAGE_SIZE * n0) mm2 HL Hi2)
        as (mm3 & Hfr & _ & _).
      exists mm3. split; [done |]. by eapply free_virtual_page_unmaps.
  - intros v paddr mm Hin.
    split; [by apply map_page_translate | by apply map_page_translate_low].
Qed.

(** C6: the theorem at a page allocated after one [allocate(100)], in a
    manager whose vector holds eight blocks. *)
Lemma virtual_page_round_trip_witness :
  (exists mm2, run sample_lib demo_ops demo_mm1 = Some mm2) /\
  (forall mm2, run sample_lib demo_ops demo_mm1 = Some mm2 ->
               virtual_to_physical demo_page mm2 <> 0 /\
               exists mm3, free_virtual_page sample_lib demo_page mm2 = Some mm3 /\
                           virtual_to_physical demo_page mm3 = 0) /\
  (forall v paddr mm,
     (page_index v < length (page_table mm))%nat ->
     virtual_to_physical v (snd (map_page v paddr mm))
     = PAGE_SIZE * ((paddr / PAGE_SIZE) mod 2 ^ 40) + v mod PAGE_SIZE /\
     (0 <= paddr < 2 ^ 52 ->
      virtual_to_physical v (snd (map_page v paddr mm))
      = paddr - paddr mod PAGE_SIZE + v mod PAGE_SIZE)).
Proof.
  destruct (virtual_page_round_trip sample_lib demo_pool 0 warm_manager
              [OpAllocate 100] demo_ops demo_mm0 demo_mm1 demo_page sample_lib_ok)
    as (Hdef & Hsound & Hmap).
  - reflexivity.
  - vm_compute. discriminate.
  - reflexivity.
  - reflexivity.
  - reflexivity.
  - reflexivity.
  - reflexivity.
  - reflexivity.
  - reflexivity.
  - reflexivity.
  - vm_compute. discriminate.
  - vm_compute. lia.
  - reflexivity.
  - split; [| split; [exact Hsound | exact Hmap]].
    apply Hdef. vm_compute. lia.
Defined.

(** C6 as stated fails in three ways.  The table has 1024 slots, but
    [allocate_virtual_page] drops the result of [map_page]: after 1024 pages
    were taken and given back, the next page it returns translates to [0].
    A frame number has 40 bits: mapping the page-aligned address [2^52]
    yields [0], not [2^52].  And [free_virtual_page] on any address of a
    page, here [p + 1], unmaps the page [p] although
    [free_virtual_page(p)] was never called. *)
Lemma virtual_page_not_mapped :
  after sample_lib (page_churn 1024) demo_init (fun mm =>
    exists mm', allocate_virtual_page mm = Some (0x1400000, mm') /\
                virtual_to_physical 0x1400000 mm' = 0) /\
  virtual_to_physical VIRTUAL_BASE (snd (map_page VIRTUAL_BASE (2 ^ 52) demo_init)) = 0 /\
  after sample_lib [OpAllocateVirtualPage] demo_init (fun mm =>
    virtual_to_physical VIRTUAL_BASE mm <> 0) /\
  after sample_lib [OpAllocateVirtualPage; OpFreeVirtualPage (VIRTUAL_BASE + 1)] demo_init
    (fun mm => virtual_to_physical VIRTUAL_BASE mm = 0).
Proof.
  split; [| split; [| split]].
  - vm_compute. eexists. split; reflexivity.
  - vm_compute. reflexivity.
  - vm_compute. discriminate.
  - vm_compute. reflexivity.
Qed.
End MemoryFacts.
(** ** The scheduler *)

Module ProcessFacts.
Import Process.

(** *** Pids *)

Lemma with_pcb_pids ptr f table :
  (forall p, pid (f p) = pid p) -> pid <$> with_pcb ptr f table = pid <$> table.
Proof.
  intros Hf. unfold with_pcb. induction table as [|p t IH]; csimpl; [done |].
  rewrite IH. by destruct (pid p =? ptr); rewrite ?Hf.
Qed.

Lemma filter_pids_sublist (f : ProcessControlBlock -> bool) table :
  sublist (pid <$> List.filter f table) (pid <$> table).
Proof.
  induction table as [|p t IH]; csimpl; [done |].
  destruct (f p); csimpl; [by apply sublist_skip | by apply sublist_cons].
Qed.

Lemma StronglySorted_snoc hist z :
  StronglySorted Z.lt hist -> Forall (fun y => y < z) hist ->
  StronglySorted Z.lt (hist ++ [z]).
Proof.
  induction 1 as [|y hist Hs IH Hall]; intros Hlt; simpl.
  - repeat constructor.
  - apply Forall_cons in Hlt as [Hy Hlt]. constructor; [by apply IH |].
    apply Forall_app. split; [done |]. by repeat constructor.
Qed.

Lemma terminate_pids p pm hist :
  pids_inv hist pm -> pids_inv hist (snd (terminate_process p pm)).
Proof.
  intros (Hn & Hs & Hb & Hsub). unfold terminate_process.
  destruct (pid_map pm !! p); [| done].
  split; [done |]. split; [done |]. split; [done |].
  unfold table_pids in *. simpl. etrans; [apply filter_pids_sublist | done].
Qed.

Lemma suspend_pids p pm hist :
  pids_inv hist pm -> pids_inv hist (snd (suspend_process p pm)).
Proof.
  intros (Hn & Hs & Hb & Hsub). unfold suspend_process.
  destruct (pid_map pm !! p); [| done].
  split; [done |]. split; [done |]. split; [done |].
  unfold table_pids in *. simpl. by rewrite with_pcb_pids.
Qed.

Lemma resume_pids p pm hist :
  pids_inv hist pm -> pids_inv hist (snd (resume_process p pm)).
Proof.
  intros (Hn & Hs & Hb & Hsub). unfold resume_process.
  destruct (pid_map pm !! p); [| done].
  destruct (deref _ _); [| done].
  destruct (state_eqb _ _); [| done].
  split; [done |]. split; [done |]. split; [done |].
  unfold table_pids in *. simpl. by rewrite with_pcb_pids.
Qed.

Lemma schedule_pids pm pm' hist :
  schedule pm = Some pm' -> pids_inv hist pm -> pids_inv hist pm'.
Proof.
  unfold schedule. destruct (negb _); [by intros; simplify_eq |].
  destruct (select_next_process pm) as [nxt|]; [| by intros; simplify_eq].
  destruct (bool_decide _); [by intros; simplify_eq |].
  unfold context_switch.
  intros Hcs (Hn & Hs & Hb & Hsub).
  assert (exists t, pid <$> t = table_pids pm /\
            pm' = mkPM (with_pcb nxt (set_state PROCESS_RUNNING) t) (pid_map pm)
                       (next_pid pm) (Some nxt) (scheduler_running pm)) as (t & Ht & ->).
  { destruct (current_process pm) as [old|]; simpl in Hcs.
    - destruct (deref old _); simplify_eq/=.
      eexists. split; [| done]. by rewrite with_pcb_pids.
    - simplify_eq. by eexists. }
  split; [done |]. split; [done |]. split; [done |].
  unfold table_pids in *. simpl. by rewrite with_pcb_pids, Ht.
Qed.

Lemma set_table_pids t pm hist :
  pid <$> t = table_pids pm -> pids_inv hist pm -> pids_inv hist (set_table t pm).
Proof.
  intros Ht (Hn & Hs & Hb & Hsub).
  split; [done |]. split; [done |]. split; [done |].
  unfold table_pids in *. simpl. by rewrite Ht.
Qed.

Lemma create_pids path mem pm r pm' hist :
  create_process path mem pm = Some (r, pm') -> pids_inv hist pm ->
  pids_inv (hist ++ created_pids [RetInt r]) pm'.
Proof.
  unfold create_process, create_pcb.
  destruct (Z.eqb_spec (next_pid pm) INT_MAX) as [|_]; [done |].
  intros Hc (Hn & Hs & Hb & Hsub).
  destruct (match current_process pm with
            | Some cur => pid <$> deref cur (process_table pm)
            | None => Some 0
            end) as [parent|]; [| done].
  simpl in Hc. destruct (mem =? 0); simpl in Hc; injection Hc as <- <-.
  - simpl. rewrite app_nil_r. split; [simpl; lia |]. split; [done |].
    split; [| done]. eapply Forall_impl; [done |]. simpl. lia.
  - simpl. destruct (Z.eqb_spec (next_pid pm) (-1)) as [|_]; [lia |].
    split; [simpl; lia |]. split.
    + apply StronglySorted_snoc; [done |]. eapply Forall_impl; [done |]. simpl. lia.
    + split.
      * apply Forall_app. split; [eapply Forall_impl; [done |]; simpl; lia |].
        constructor; [simpl; lia | done].
      * unfold table_pids in *. simpl. rewrite fmap_app. simpl.
        by apply sublist_app.
Qed.

(** A [send_signal] that returns has changed nothing. *)
Lemma send_signal_same p signal pm b pm' :
  send_signal p signal pm = Some (b, pm') -> pm' = pm.
Proof.
  unfold send_signal. destruct (pid_map pm !! p); [| by intros [= _ <-]].
  destruct (signal =? 9); [done |]. destruct (signal =? 19); [done |].
  destruct (signal =? 18); [done |]. by intros [= _ <-].
Qed.

Lemma step_pids op pm r pm' hist :
  step op pm = Some (r, pm') -> pids_inv hist pm ->
  pids_inv (hist ++ created_pids [r]) pm'.
Proof.
  destruct op; simpl; intros Hstep Hinv.
  - simplify_eq. rewrite app_nil_r. done.
  - destruct (create_process path mem pm) as [[z pm1]|] eqn:Hc; simplify_eq/=.
    by eapply create_pids.
  - simplify_eq. rewrite app_nil_r. by apply terminate_pids.
  - simplify_eq. rewrite app_nil_r. by apply suspend_pids.
  - simplify_eq. rewrite app_nil_r. by apply resume_pids.
  - destruct (schedule pm) as [pm1|] eqn:Hsch; simplify_eq/=.
    rewrite app_nil_r. by eapply schedule_pids.
  - simplify_eq. rewrite app_nil_r. unfold set_process_priority.
    destruct (pid_map pm !! p); [| done].
    apply set_table_pids; [| done]. by apply with_pcb_pids.
  - destruct (send_signal p signal pm) as [[b pm1]|] eqn:Hs; simplify_eq/=.
    apply send_signal_same in Hs as ->. by rewrite app_nil_r.
  - simplify_eq. rewrite app_nil_r.
    apply set_table_pids; [| done]. apply with_pcb_pids.
    intros q. by destruct (process_thread q).
  - simplify_eq. rewrite app_nil_r.
    apply set_table_pids; [| done]. apply with_pcb_pids.
    intros q. by destruct (process_thread q).
  - simplify_eq. rewrite app_nil_r.
    apply set_table_pids; [| done]. apply with_pcb_pids.
    intros q. by destruct (process_thread q).
Qed.

Lemma created_pids_cons r rs : created_pids (r :: rs) = created_pids [r] ++ created_pids rs.
Proof. destruct r as [| |z]; simpl; try done. by destruct (z =? -1). Qed.

Lemma run_pids ops : forall pm rs pm' hist,
  run ops pm = Some (rs, pm') -> pids_inv hist pm ->
  pids_inv (hist ++ created_pids rs) pm'.
Proof.
  induction ops as [|op ops IH]; intros pm rs pm' hist Hrun Hinv; simpl in Hrun.
  - simplify_eq. by rewrite app_nil_r.
  - destruct (step op pm) as [[r pm1]|] eqn:Hstep; [| done]. simpl in Hrun.
    destruct (run ops pm1) as [[rs1 pm2]|] eqn:Hrun1; [| done].
    injection Hrun as <- <-.
    rewrite created_pids_cons, app_assoc.
    eapply IH; [done |]. by eapply step_pids.
Qed.

(** C5.  In every run of the manager from its constructor, whatever the
    steps (creations, terminations, the other operations, steps of the
    execution units), the pids returned by the successful [create_process]
    calls are strictly increasing in the order of the calls, hence pairwise
    distinct; the pids of the records in the table are among them, in that
    order, each at most once, also after records were terminated and
    removed; and every pid handed out is below [next_pid].  The run is
    taken to be defined: the counter stays below [INT_MAX], no destroyed
    record is read and [send_signal] does not lock the mutex a second time
    ([create_terminate_run_defined] shows that sequences of creations and
    terminations shorter than [INT_MAX - 1] are). *)
Theorem pids_strictly_increasing (ops : list Op) (rs : list Ret) (pm : ProcessManager) :
  run ops new_manager = Some (rs, pm) ->
  StronglySorted Z.lt (created_pids rs) /\
  NoDup (created_pids rs) /\
  sublist (table_pids pm) (created_pids rs) /\
  Forall (fun z => z < next_pid pm) (created_pids rs).
Proof.
  intros Hrun.
  destruct (run_pids ops new_manager rs pm [] Hrun) as (Hn & Hs & Hb & Hsub).
  { split; [simpl; lia |]. split; [constructor |]. split; [constructor |].
    unfold table_pids; simpl. done. }
  simpl in *. split; [done |]. split; [| split; [done |]].
  - clear -Hs. induction Hs as [|z l Hs IH Hall]; [constructor |].
    constructor; [| done]. intros Hin.
    pose proof (proj1 (Forall_forall _ _) Hall z Hin). lia.
  - eapply Forall_impl; [done |]. simpl. lia.
Qed.

(** Runs of creations and terminations are defined until the counter is
    exhausted. *)
Lemma create_terminate_run_defined ops : forall pm,
  current_process pm = None ->
  next_pid pm + Z.of_nat (length ops) <= INT_MAX ->
  forallb is_create_or_terminate ops = true ->
  exists rs pm', run ops pm = Some (rs, pm').
Proof.
  induction ops as [|op ops IH]; intros pm Hcur Hlen Hops; simpl in *.
  - by eexists _, _.
  - apply andb_prop in Hops as [Hop Hops].
    assert (exists r pm1, step op pm = Some (r, pm1) /\ current_process pm1 = None /\
                          next_pid pm1 <= next_pid pm + 1) as (r & pm1 & -> & Hcur1 & Hn1).
    { destruct op; simpl in *; try done.
      - unfold create_process, create_pcb.
        destruct (Z.eqb_spec (next_pid pm) INT_MAX) as [|_]; [lia |].
        rewrite Hcur. simpl. destruct (mem =? 0); simpl; eexists _, _; by repeat split.
      - eexists _, _. split; [done |]. unfold terminate_process.
        destruct (pid_map pm !! p); simpl; split; (done || lia). }
    simpl. destruct (IH pm1 Hcur1 ltac:(lia) Hops) as (rs & pm2 & ->).
    by eexists _, _.
Qed.

(** C5: the theorem at the run "create a, create b, terminate 1, create c",
    which returns the pids 1, 2 and 3 and leaves the records 2 and 3. *)
Lemma pids_strictly_increasing_witness :
  StronglySorted Z.lt (created_pids [RetInt 1; RetInt 2; RetBool true; RetInt 3]) /\
  NoDup (created_pids [RetInt 1; RetInt 2; RetBool true; RetInt 3]) /\
  sublist (table_pids after_restart)
          (created_pids [RetInt 1; RetInt 2; RetBool true; RetInt 3]) /\
  Forall (fun z => z < next_pid after_restart)
         (created_pids [RetInt 1; RetInt 2; RetBool true; RetInt 3]).
Proof.
  exact (pids_strictly_increasing
           [OpCreate "a" 0x5000; OpCreate "b" 0x6000; OpTerminate 1; OpCreate "c" 0x7000]
           [RetInt 1; RetInt 2; RetBool true; RetInt 3] after_restart eq_refl).
Defined.

(** *** RUNNING records *)

Lemma with_pcb_not_running ptr f table (P : ProcessControlBlock -> Prop) :
  (forall p, running (f p) = false) ->
  Forall (fun r => running r = true -> P r) table ->
  Forall (fun r => running r = true -> P r) (with_pcb ptr f table).
Proof.
  intros Hf Hall. unfold with_pcb. apply Forall_fmap.
  eapply Forall_impl; [done |]. simpl. intros r Hr.
  destruct (pid r =? ptr); [by rewrite Hf | done].
Qed.

Lemma with_pcb_same_state ptr f table (P : Z -> Prop) :
  (forall p, running (f p) = running p /\ pid (f p) = pid p) ->
  Forall (fun r => running r = true -> P (pid r)) table ->
  Forall (fun r => running r = true -> P (pid r)) (with_pcb ptr f table).
Proof.
  intros Hf Hall. unfold with_pcb. apply Forall_fmap.
  eapply Forall_impl; [done |]. simpl. intros r Hr.
  destruct (pid r =? ptr); [| done]. destruct (Hf r) as [-> ->]. done.
Qed.

Lemma filter_Forall (f : ProcessControlBlock -> bool) (P : ProcessControlBlock -> Prop) table :
  Forall P table -> Forall P (List.filter f table).
Proof.
  induction 1 as [|r t Hr _ IH]; simpl; [done |]. destruct (f r); [by constructor | done].
Qed.

Lemma terminate_running p pm :
  running_is_current pm -> running_is_current (snd (terminate_process p pm)).
Proof.
  unfold running_is_current, terminate_process. intros Hr.
  destruct (pid_map pm !! p); [| done]. simpl. by apply filter_Forall.
Qed.

Lemma suspend_running p pm :
  running_is_current pm -> running_is_current (snd (suspend_process p pm)).
Proof.
  unfold running_is_current, suspend_process. intros Hr.
  destruct (pid_map pm !! p); [| done]. simpl.
  by apply (with_pcb_not_running _ _ _ (fun r => current_process pm = Some (pid r))).
Qed.

Lemma resume_running p pm :
  running_is_current pm -> running_is_current (snd (resume_process p pm)).
Proof.
  unfold running_is_current, resume_process. intros Hr.
  destruct (pid_map pm !! p); [| done].
  destruct (deref _ _); [| done]. destruct (state_eqb _ _); [| done]. simpl.
  by apply (with_pcb_not_running _ _ _ (fun r => current_process pm = Some (pid r))).
Qed.

Lemma schedule_running pm pm' :
  schedule pm = Some pm' -> running_is_current pm -> running_is_current pm'.
Proof.
  unfold schedule. destruct (negb _); [by intros; simplify_eq |].
  destruct (select_next_process pm) as [nxt|]; [| by intros; simplify_eq].
  destruct (bool_decide _); [by intros; simplify_eq |].
  unfold context_switch, running_is_current. intros Hcs Hr.
  assert (exists t, Forall (fun r => running r = true -> False) t /\
            pm' = mkPM (with_pcb nxt (set_state PROCESS_RUNNING) t) (pid_map pm)
                       (next_pid pm) (Some nxt) (scheduler_running pm)) as (t & Ht & ->).
  { destruct (current_process pm) as [old|] eqn:Hcur; simpl in Hcs.
    - destruct (deref old _); simplify_eq/=.
      eexists. split; [| done]. unfold with_pcb. apply Forall_fmap.
      eapply Forall_impl; [done |]. simpl. intros r Hrun.
      destruct (Z.eqb_spec (pid r) old) as [|Hne]; [done |].
      intros Hrr. specialize (Hrun Hrr). congruence.
    - simplify_eq. eexists. split; [| done].
      eapply Forall_impl; [done |]. simpl. intros r Hrun Hrr. by specialize (Hrun Hrr). }
  simpl. unfold with_pcb. apply Forall_fmap.
  eapply Forall_impl; [done |]. simpl. intros r Hrun.
  destruct (Z.eqb_spec (pid r) nxt) as [<- |Hne]; [done |].
  intros Hrr. by specialize (Hrun Hrr).
Qed.

Lemma create_running path mem pm r pm' :
  create_process path mem pm = Some (r, pm') ->
  running_is_current pm -> running_is_current pm'.
Proof.
  unfold create_process, create_pcb, running_is_current.
  destruct (next_pid pm =? INT_MAX); [done |].
  destruct (match current_process pm with
            | Some cur => pid <$> deref cur (process_table pm)
            | None => Some 0
            end) as [parent|]; [| done].
  simpl. destruct (mem =? 0); simpl; intros Hc Hr; injection Hc as <- <-; simpl; [done |].
  apply Forall_app. split; [done |]. by repeat constructor.
Qed.

Lemma step_running op pm r pm' :
  is_exec_step op = false ->
  step op pm = Some (r, pm') -> running_is_current pm -> running_is_current pm'.
Proof.
  destruct op; simpl; intros Hop Hstep Hr; try done.
  - by simplify_eq.
  - destruct (create_process path mem pm) as [[z pm1]|] eqn:Hc; simplify_eq/=.
    by eapply create_running.
  - simplify_eq. by apply terminate_running.
  - simplify_eq. by apply suspend_running.
  - simplify_eq. by apply resume_running.
  - destruct (schedule pm) as [pm1|] eqn:Hsch; simplify_eq/=. by eapply schedule_running.
  - simplify_eq. unfold set_process_priority, running_is_current in *.
    destruct (pid_map pm !! p); [| done]. simpl.
    by apply (with_pcb_same_state _ _ _ (fun z => current_process pm = Some z)).
  - destruct (send_signal p signal pm) as [[b pm1]|] eqn:Hs; simplify_eq/=.
    by apply send_signal_same in Hs as ->.
Qed.

Lemma run_running ops : forall pm rs pm',
  forallb (fun op => negb (is_exec_step op)) ops = true ->
  run ops pm = Some (rs, pm') -> running_is_current pm -> running_is_current pm'.
Proof.
  induction ops as [|op ops IH]; intros pm rs pm' Hops Hrun Hr; simpl in *.
  - by simplify_eq.
  - apply andb_prop in Hops as [Hop%negb_true_iff Hops].
    destruct (step op pm) as [[r pm1]|] eqn:Hstep; [| done]. simpl in Hrun.
    destruct (run ops pm1) as [[rs1 pm2]|] eqn:Hrun1; [| done].
    injection Hrun as <- <-.
    eapply IH; [done | done |]. by eapply step_running.
Qed.

Lemma running_count_le_1 (c : option Z) (table : list ProcessControlBlock) :
  NoDup (pid <$> table) ->
  Forall (fun r => running r = true -> c = Some (pid r)) table ->
  (length (List.filter running table) <= 1)%nat.
Proof.
  induction table as [|r t IH]; csimpl; intros Hnd Hall; [lia |].
  apply NoDup_cons in Hnd as [Hr Hnd]. apply Forall_cons in Hall as [Hc Hall].
  specialize (IH Hnd Hall).
  destruct (running r) eqn:Hrun; [| done]. simpl.
  assert (List.filter running t = []) as ->; [| simpl; lia].
  clear IH Hnd. induction t as [|q t IHt]; [done |]. simpl.
  apply Forall_cons in Hall as [Hq Hall].
  destruct (running q) eqn:Hrq.
  - exfalso. apply Hr. specialize (Hc eq_refl). specialize (Hq eq_refl).
    rewrite Hc in Hq. injection Hq as ->. csimpl. left.
  - apply IHt; [| done]. intros Hin. apply Hr. csimpl. by right.
Qed.

Lemma StronglySorted_lt_NoDup l : StronglySorted Z.lt l -> NoDup l.
Proof.
  induction 1 as [|z l Hs IH Hall]; [constructor |].
  constructor; [| done]. intros Hin.
  pose proof (proj1 (Forall_forall _ _) Hall z Hin). lia.
Qed.

(** C3, as amended.  In every state that the manager reaches from its
    constructor by its own operations alone ([initialize], [create_process],
    [terminate_process], [suspend_process], [resume_process],
    [set_process_priority], [send_signal], [schedule]) at most one record is
    RUNNING, right after a [schedule()] call as at any other point.  The
    steps of the execution units are left out. *)
Theorem manager_steps_one_running (ops : list Op) (rs : list Ret) (pm : ProcessManager) :
  forallb (fun op => negb (is_exec_step op)) ops = true ->
  run ops new_manager = Some (rs, pm) ->
  (running_count pm <= 1)%nat.
Proof.
  intros Hops Hrun.
  destruct (run_pids ops new_manager rs pm [] Hrun) as (Hn & Hs & Hb & Hsub).
  { split; [simpl; lia |]. split; [constructor |]. split; [constructor |].
    unfold table_pids; simpl. done. }
  apply (running_count_le_1 (current_process pm)).
  - eapply sublist_NoDup; [| apply Hsub]. by apply StronglySorted_lt_NoDup.
  - apply (run_running ops new_manager rs pm Hops Hrun). constructor.
Qed.

(** C3: the theorem at "initialize, create a, create b, schedule". *)
Lemma manager_steps_one_running_witness : (running_count scheduled_two <= 1)%nat.
Proof.
  exact (manager_steps_one_running (boot_two ++ [OpSchedule])
           [RetBool true; RetInt 1; RetInt 2; RetVoid] scheduled_two eq_refl eq_refl).
Defined.

(** C3 as stated fails: the first statement of [execute_process] marks the
    unit's own record RUNNING.  With two processes started, two records are
    RUNNING, also right after a [schedule()] call has returned. *)
Lemma two_records_running :
  after (boot_two ++ [OpExecBegin 1; OpExecBegin 2; OpSchedule]) new_manager
        (fun pm => running_count pm = 2%nat).
Proof. reflexivity. Qed.

(** *** Selection *)

Lemma state_eqb_eq a b : state_eqb a b = true <-> a = b.
Proof. destruct a, b; simpl; split; congruence. Qed.

Lemma select_scan_keep best highest table :
  Forall (fun c => ready c -> priority c <= highest) table ->
  select_scan best highest table = best.
Proof.
  revert best highest. induction table as [|c t IH]; intros best highest Hall; simpl; [done |].
  apply Forall_cons in Hall as [Hc Hall].
  destruct (state_eqb (state c) PROCESS_READY) eqn:Hst; simpl; [| by apply IH].
  apply state_eqb_eq in Hst. specialize (Hc Hst).
  destruct (Z.ltb_spec highest (priority c)); [lia | by apply IH].
Qed.

Lemma select_scan_first_max pre r post : forall best highest,
  highest < priority r -> ready r ->
  Forall (fun c => ready c -> priority c < priority r) pre ->
  Forall (fun c => ready c -> priority c <= priority r) post ->
  select_scan best highest (pre ++ r :: post) = Some (pid r).
Proof.
  induction pre as [|c pre IH]; intros best highest Hh Hr Hpre Hpost; simpl.
  - unfold ready in Hr. rewrite Hr. simpl.
    destruct (Z.ltb_spec highest (priority r)); [| lia].
    by apply select_scan_keep.
  - apply Forall_cons in Hpre as [Hc Hpre].
    destruct (state_eqb (state c) PROCESS_READY) eqn:Hst; simpl; [| by apply IH].
    apply state_eqb_eq in Hst. specialize (Hc Hst).
    destruct (Z.ltb_spec highest (priority c)); by apply IH.
Qed.

(** C2, as amended.  While the scheduler is running: let [r] be READY with
    a priority of at least [0], every READY record before it in the table
    have a lower priority and every READY record after it a priority that is
    not higher.  Then [select_next_process] returns [r].  If [r] is already
    the record [current_process] points to, [schedule()] changes nothing
    (and [r] stays READY).  Otherwise, when [current_process] is null or
    points to a record of the table that is RUNNING, that record is set to
    READY, [r] is set to RUNNING and becomes current, and no other record
    changes. *)
Theorem schedule_selects_highest_priority
    (pm : ProcessManager) (pre post : list ProcessControlBlock) (r : ProcessControlBlock) :
  scheduler_running pm = true ->
  process_table pm = pre ++ r :: post ->
  ready r -> 0 <= priority r ->
  Forall (fun c => ready c -> priority c < priority r) pre ->
  Forall (fun c => ready c -> priority c <= priority r) post ->
  select_next_process pm = Some (pid r) /\
  (current_process pm = Some (pid r) -> schedule pm = Some pm) /\
  (current_process pm <> Some (pid r) ->
   (forall old, current_process pm = Some old ->
                exists o, deref old (process_table pm) = Some o /\
                          state o = PROCESS_RUNNING) ->
   exists pm', schedule pm = Some pm' /\
               current_process pm' = Some (pid r) /\
               process_table pm'
               = switched (current_process pm) (pid r) <$> process_table pm).
Proof.
  intros Hrun Htab Hr Hprio Hpre Hpost.
  assert (Hsel : select_next_process pm = Some (pid r)).
  { unfold select_next_process. rewrite Htab.
    apply select_scan_first_max; (done || lia). }
  split; [done |]. unfold schedule. rewrite Hrun, Hsel. simpl. split.
  - intros Hcur. by rewrite bool_decide_eq_true_2.
  - intros Hcur Hlive. rewrite bool_decide_eq_false_2 by done.
    unfold context_switch.
    destruct (current_process pm) as [old|] eqn:Hold.
    + destruct (Hlive old eq_refl) as (o & Ho & _). rewrite Ho. simpl.
      eexists. split; [done |]. split; [done |]. simpl.
      unfold with_pcb. rewrite <- list_fmap_compose. apply list_fmap_ext.
      intros i c _. simpl. unfold switched.
      assert (old <> pid r) by congruence.
      destruct (Z.eqb_spec (pid c) old) as [Heq|Hne]; simpl.
      * subst old. destruct (Z.eqb_spec (pid c) (pid r)); [done |].
        by rewrite bool_decide_eq_true_2.
      * destruct (pid c =? pid r); [done |].
        rewrite bool_decide_eq_false_2; [done | congruence].
    + simpl. eexists. split; [done |]. split; [done |]. simpl.
      unfold with_pcb. apply list_fmap_ext. intros i c _. unfold switched.
      destruct (pid c =? pid r); [done |]. by rewrite bool_decide_eq_false_2.
Qed.

(** C2: the theorem at two READY records of priorities 5 and 10 and no
    current record; the second one is selected and RUNNING afterwards. *)
Lemma schedule_selects_highest_priority_witness :
  select_next_process two_ready = Some 2 /\
  (current_process two_ready = Some 2 -> schedule two_ready = Some two_ready) /\
  exists pm', schedule two_ready = Some pm' /\
              current_process pm' = Some 2 /\
              process_table pm'
              = [mkPCB 1 0 PROCESS_READY "a" 0x5000 65536 5 0 ThreadCreated false;
                 mkPCB 2 0 PROCESS_RUNNING "b" 0x6000 65536 10 0 ThreadCreated false].
Proof.
  destruct (schedule_selects_highest_priority two_ready
              [mkPCB 1 0 PROCESS_READY "a" 0x5000 65536 5 0 ThreadCreated false] []
              (mkPCB 2 0 PROCESS_READY "b" 0x6000 65536 10 0 ThreadCreated false))
    as (Hsel & Hsame & Hswitch).
  - reflexivity.
  - reflexivity.
  - reflexivity.
  - simpl. lia.
  - constructor; [simpl; lia | constructor].
  - constructor.
  - split; [exact Hsel |]. split; [exact Hsame |].
    apply Hswitch; [discriminate | intros old Hold; discriminate Hold].
Defined.

(** C2 as stated fails in two ways.  The scan starts from the priority [-1]:
    a READY record of priority [-1] is never selected, even when it is the
    only one.  And the selected record is compared with [current_process],
    not with the RUNNING record: after "schedule, suspend 2, resume 2"
    record 2 is READY and still current, and with exactly two READY records
    of priorities 5 and 10 [schedule()] leaves both READY. *)
Lemma schedule_leaves_ready_unselected :
  after [OpInitialize; OpCreate "a" 0x5000; OpSetPriority 1 (-1); OpSchedule] new_manager
    (fun pm => state_of 1 pm = Some PROCESS_READY /\ current_process pm = None /\
               running_count pm = 0%nat) /\
  after (boot_two ++ [OpSetPriority 1 5; OpSetPriority 2 10; OpSchedule;
                      OpSuspend 2; OpResume 2; OpSchedule]) new_manager
    (fun pm => (priority <$> process_table pm) = [5; 10] /\
               state_of 1 pm = Some PROCESS_READY /\
               state_of 2 pm = Some PROCESS_READY /\
               running_count pm = 0%nat).
Proof. split; vm_compute; repeat split; reflexivity. Qed.

(** *** Suspend and resume *)

(** [suspend_process] succeeds on every known pid, [resume_process] on
    BLOCKED records only. *)
Lemma suspend_process_known p ptr pm :
  pid_map pm !! p = Some ptr -> fst (suspend_process p pm) = true.
Proof. intros H. unfold suspend_process. by rewrite H. Qed.

Lemma resume_process_refused p pm :
  fst (resume_process p pm) = false -> snd (resume_process p pm) = pm.
Proof.
  unfold resume_process. destruct (pid_map pm !! p); [| done].
  destruct (deref _ _); [| done]. by destruct (state_eqb _ _).
Qed.

Lemma resume_process_legal p pm :
  fst (resume_process p pm) = true ->
  exists ptr, pid_map pm !! p = Some ptr /\
              state_of ptr pm = Some PROCESS_BLOCKED /\
              process_table (snd (resume_process p pm))
              = with_pcb ptr (set_state PROCESS_READY) (process_table pm).
Proof.
  unfold resume_process, state_of. destruct (pid_map pm !! p) as [ptr|]; [| done].
  destruct (deref _ _) as [r|] eqn:Hd; [| done].
  destruct (state_eqb _ _) eqn:Hst; [| done].
  apply state_eqb_eq in Hst. intros _. exists ptr. split; [done |].
  rewrite Hd. simpl. by rewrite Hst.
Qed.

(** C8: what the code does with a record whose execution unit has finished.
    The record is TERMINATED; [suspend_process] returns [true] and moves it
    to BLOCKED, where [resume_process] returns [false] and changes
    nothing. *)
Lemma suspend_terminated_succeeds :
  after [OpInitialize; OpCreate "a" 0x5000; OpExecBegin 1; OpExecEnd 1] new_manager
    (fun pm => state_of 1 pm = Some PROCESS_TERMINATED /\
               fst (suspend_process 1 pm) = true /\
               state_of 1 (snd (suspend_process 1 pm)) = Some PROCESS_BLOCKED /\
               resume_process 1 pm = (false, pm)).
Proof. vm_compute. repeat split; reflexivity. Qed.

End ProcessFacts.

(** ** The KILL system call *)

Module SyscallFacts.
Import Process Syscalls.

(** [sys_kill] reads the signal and does not use it. *)
Lemma sys_kill_ignores_signal params k signal :
  sys_kill params k
  = sys_kill (mkParams (arg1 params) signal (arg3 params) (arg4 params)
                       (ptr params) (str params)) k.
Proof. done. Qed.

(** C10: what the code does on KILL with signal 19 for a live process.
    [sys_kill] returns [0] and the record is gone from the table, where
    [suspend_process], which signal 19 stands for, leaves it in the table,
    BLOCKED. *)
Lemma sys_kill_stop_terminates :
  run [OpInitialize; OpCreate "a" 0x5000] new_manager
    = Some ([RetBool true; RetInt 1], one_ready) /\
  (let '(ret, k) := sys_kill (mkParams 1 19 0 0 0 "") (mkKernel (Some one_ready)) in
   ret = 0 /\ (process_table <$> process_manager k) = Some []) /\
  fst (suspend_process 1 one_ready) = true /\
  state_of 1 (snd (suspend_process 1 one_ready)) = Some PROCESS_BLOCKED.
Proof. repeat split; reflexivity. Qed.

(** [send_signal] itself does not return on the signals it dispatches:
    it calls [terminate_process], [suspend_process] and [resume_process]
    with [process_mutex] held.  Other signals, and unknown pids, are
    answered. *)
Lemma send_signal_relocks :
  send_signal 1 9 one_ready = None /\
  send_signal 1 19 one_ready = None /\
  send_signal 1 18 one_ready = None /\
  send_signal 1 15 one_ready = Some (true, one_ready) /\
  send_signal 5 19 one_ready = Some (false, one_ready).
Proof. repeat split; reflexivity. Qed.

End SyscallFacts.

(** ** Further operations of the allocator *)

Module MemoryRestFacts.
Import Memory MemoryRest MemoryFacts.

(** The sample arenas are tiled. *)
Lemma demo_init_inv : arena_inv demo_init.
Proof. apply initialize_inv; [discriminate | reflexivity | by vm_compute]. Qed.

Lemma demo_mm0_inv : arena_inv demo_mm0.
Proof. apply (allocate_inv 100 demo_init demo_pool); [reflexivity | apply demo_init_inv]. Qed.

Lemma demo_mm1_inv : arena_inv demo_mm1.
Proof.
  apply (allocate_virtual_page_inv demo_mm0 demo_page); [reflexivity | apply demo_mm0_inv].
Qed.

(** *** Failure and success of [allocate] *)

Lemma set_blocks_same mm : set_blocks (memory_blocks mm) mm = mm.
Proof. by destruct mm. Qed.

(** X1.  When no free block of the table holds the rounded request,
    [allocate] is defined, returns the null pointer and leaves the manager
    as it was: no block is split and no allocation is recorded. *)
Theorem allocate_fails_cleanly (sz : Z) (mm : MemoryManager) :
  Forall (fun b => fits (align8 sz) b = false) (memory_blocks mm) ->
  allocate sz mm = Some (0, mm).
Proof.
  intros Hno. unfold allocate. destruct (sz =? 0); [done |].
  unfold first_fit_allocate.
  rewrite (proj2 (first_fit_scan_none _ _) Hno). simpl.
  by rewrite set_blocks_same.
Qed.

Lemma allocate_fails_cleanly_witness :
  allocate (MEMORY_POOL_SIZE + 1) demo_init = Some (0, demo_init).
Proof. apply allocate_fails_cleanly. repeat constructor. Defined.

(** The shape of a defined [allocate] that returns a pointer. *)
Lemma allocate_records_block (sz : Z) (mm mm' : MemoryManager) (p : Z) :
  allocate sz mm = Some (p, mm') -> p <> 0 ->
  sz <> 0 /\
  allocated_blocks mm' = <[p := align8 sz]> (allocated_blocks mm) /\
  memory_pool mm' = memory_pool mm /\ pool_size mm' = pool_size mm /\
  exists pre b post,
    memory_blocks mm = pre ++ b :: post /\
    Forall (fun c => fits (align8 sz) c = false) pre /\
    fits (align8 sz) b = true /\ address b = p /\
    memory_blocks mm'
    = pre ++ mkBlock p (align8 sz) false (process_id b) :: post
          ++ (if align8 sz <? size b
              then [mkBlock (p + align8 sz) (size b - align8 sz) true (-1)] else []).
Proof.
  intros Ha Hp. destruct (allocate_shape _ _ _ _ Ha) as [Hmm [(_ & ? & _)|(Hsz & Hffa)]];
    [done |].
  split; [done |].
  split; [rewrite Hmm; simpl; by destruct (Z.eqb_spec p 0) |].
  split; [by rewrite Hmm |]. split; [by rewrite Hmm |].
  destruct (first_fit_allocate_cases _ _ _ _ _ Hffa)
    as [(? & _)|(pre & b & post & Hbs & Hpre & Hb & -> & Hcase)]; [done |].
  exists pre, b, post. split; [done |]. split; [done |]. split; [done |]. split; [done |].
  destruct Hcase as [[Heq ->]|(Hlt & _ & ->)].
  - rewrite Heq, Z.ltb_irrefl, app_nil_r. done.
  - destruct (Z.ltb_spec (align8 sz) (size b)); [done | lia].
Qed.

(** *** Free memory *)

Lemma free_size_app l1 l2 : free_size (l1 ++ l2) = free_size l1 + free_size l2.
Proof. induction l1 as [|b l1 IH]; simpl; [done | rewrite IH; lia]. Qed.

Lemma free_size_perm l1 l2 : l1 ≡ₚ l2 -> free_size l1 = free_size l2.
Proof. induction 1; simpl; lia. Qed.

Lemma get_free_memory_eq mm :
  arena_inv mm -> get_free_memory mm = free_size (memory_blocks mm).
Proof.
  intros [Hpsz Ht]. unfold arena_tiled in Ht.
  assert (Hpos : 0 <= pool_size mm) by lia.
  pose proof (tiles_total_size _ _ _ Hpos Ht) as Htot.
  destruct Ht as [Hw _].
  pose proof (free_size_bounds _ _ _ Hw) as Hfb.
  unfold get_free_memory. rewrite (fold_free_size _ _ _ 0 Hw); lia.
Qed.

Lemma merge_from_free_size pool psz cur rest :
  psz < 2 ^ 64 -> Forall (within pool psz) (cur :: rest) ->
  free_size (merge_from cur rest) = free_size (cur :: rest).
Proof.
  intros Hpsz. revert cur. induction rest as [|nxt rest IH]; intros cur Hw; [done |].
  apply Forall_cons in Hw as [Hc Hr]. pose proof Hr as Hr'.
  apply Forall_cons in Hr' as [Hn Hrest]. simpl.
  destruct (mergeable cur nxt) eqn:Hm.
  - unfold mergeable in Hm.
    apply andb_prop in Hm as [[Hfc Hfn]%andb_prop Hadj%Z.eqb_eq].
    destruct Hc as (Hlo & Hs0 & Hhi). destruct Hn as (Hlo' & Hs0' & Hhi').
    assert (Hsum : wrap64 (size cur + size nxt) = size cur + size nxt)
      by (apply wrap64_small; lia).
    rewrite IH.
    + simpl. rewrite Hsum, Hfc, Hfn. lia.
    + constructor; [| done]. unfold within; simpl. rewrite Hsum. lia.
  - change (free_size (cur :: merge_from nxt rest))
      with ((if is_free cur then size cur else 0) + free_size (merge_from nxt rest)).
    by rewrite (IH nxt Hr).
Qed.

Lemma coalesce_free_size L pool psz bs bs' :
  lib_ok L -> psz < 2 ^ 64 -> Forall (within pool psz) bs ->
  coalesce_free_blocks L bs = Some bs' -> free_size bs' = free_size bs.
Proof.
  intros HL Hpsz Hw [_ ->]%coalesce_result.
  pose proof (std_sort_perm L bs HL) as Hp.
  rewrite <- (free_size_perm _ _ Hp). rewrite <- Hp in Hw.
  unfold merge_blocks. destruct (std_sort L bs) as [|b rest]; [done |].
  by eapply merge_from_free_size.
Qed.

(** X2.  On a tiled arena [allocate] is defined when the block vector has
    room for one more block.  A defined [allocate] that returns a pointer
    records the rounded size under that pointer and touches no other
    record; the table then holds a used block of that size at that address;
    the free memory drops, and the used memory grows, by exactly the rounded
    size. *)
Theorem allocate_accounts (sz : Z) (mm : MemoryManager) :
  arena_inv mm ->
  ((length (memory_blocks mm) < blocks_capacity mm)%nat -> is_Some (allocate sz mm)) /\
  forall p mm',
    allocate sz mm = Some (p, mm') -> p <> 0 ->
    allocated_blocks mm' !! p = Some (align8 sz) /\
    (forall q, q <> p -> allocated_blocks mm' !! q = allocated_blocks mm !! q) /\
    (exists b, b ∈ memory_blocks mm' /\ address b = p /\ size b = align8 sz /\
               is_free b = false) /\
    get_free_memory mm' = get_free_memory mm - align8 sz /\
    get_used_memory mm' = get_used_memory mm + align8 sz.
Proof.
  intros Hinv. split; [apply allocate_defined |]. intros p mm' Halloc Hp.
  pose proof (allocate_inv _ _ _ _ Halloc Hinv) as Hinv'.
  destruct (allocate_records_block _ _ _ _ Halloc Hp)
    as (Hsz & Hmap & _ & Hps & pre & b & post & Hbs & Hpre & Hb & Ha & Hbs').
  rewrite Hmap. split; [apply lookup_insert_eq |].
  split; [intros q Hq; by apply lookup_insert_ne |].
  split.
  { exists (mkBlock p (align8 sz) false (process_id b)). split; [| done].
    rewrite Hbs'. apply elem_of_app. right. left. }
  assert (Hfree : get_free_memory mm' = get_free_memory mm - align8 sz).
  { rewrite !get_free_memory_eq by done. rewrite Hbs', Hbs.
    rewrite !free_size_app. simpl. rewrite free_size_app.
    unfold fits in Hb. apply andb_prop in Hb as [-> Hle%Z.leb_le].
    destruct (Z.ltb_spec (align8 sz) (size b)); simpl; lia. }
  split; [done |].
  destruct (tiles_conservation mm ltac:(destruct Hinv; lia) (proj2 Hinv)) as [_ H1].
  destruct (tiles_conservation mm' ltac:(destruct Hinv'; lia) (proj2 Hinv')) as [_ H2].
  unfold get_total_memory in *. lia.
Qed.

Lemma allocate_accounts_witness :
  allocate 100 demo_init = Some (demo_pool, demo_mm0) /\
  allocated_blocks demo_mm0 !! demo_pool = Some (align8 100) /\
  (forall q, q <> demo_pool ->
     allocated_blocks demo_mm0 !! q = allocated_blocks demo_init !! q) /\
  (exists b, b ∈ memory_blocks demo_mm0 /\ address b = demo_pool /\
             size b = align8 100 /\ is_free b = false) /\
  get_free_memory demo_mm0 = get_free_memory demo_init - align8 100 /\
  get_used_memory demo_mm0 = get_used_memory demo_init + align8 100.
Proof.
  split; [reflexivity |].
  apply (proj2 (allocate_accounts 100 demo_init demo_init_inv) demo_pool demo_mm0).
  - reflexivity.
  - discriminate.
Defined.

(** *** Round trip of [allocate] and [deallocate] *)

Lemma cover_count_elem x c l :
  c ∈ l -> covers x c = true -> (1 <= cover_count x l)%nat.
Proof.
  induction 1 as [c l|c d l _ IH]; simpl; intros Hc.
  - rewrite Hc. lia.
  - specialize (IH Hc). lia.
Qed.

(** In a tiling no two blocks of positive size start at the same address. *)
Lemma tiles_distinct_start pool psz pre b post :
  tiles pool psz (pre ++ b :: post) -> 0 < size b ->
  Forall (fun c => 0 < size c) pre ->
  Forall (fun c => address c <> address b) pre.
Proof.
  intros [Hw Hc] Hb Hpos. apply Forall_forall. intros c Hin Heq.
  pose proof (proj1 (Forall_forall _ _) Hpos c Hin) as Hcpos. simpl in Hcpos.
  apply Forall_app in Hw as [_ Hw]. apply Forall_cons in Hw as [(Hlo & _ & Hhi) _].
  specialize (Hc (address b) ltac:(lia)).
  rewrite cover_count_app in Hc. simpl in Hc.
  assert (Hcb : covers (address b) b = true).
  { unfold covers. apply andb_true_intro. split; [apply Z.leb_le | apply Z.ltb_lt]. all: lia. }
  assert (Hcc : covers (address b) c = true).
  { unfold covers. rewrite Heq.
    apply andb_true_intro. split; [apply Z.leb_le | apply Z.ltb_lt]; lia. }
  pose proof (cover_count_elem _ _ _ Hin Hcc). rewrite Hcb in Hc. lia.
Qed.

Lemma release_block_at p pre b rest :
  Forall (fun c => address c <> p) pre -> address b = p ->
  release_block p (pre ++ b :: rest) = pre ++ mkBlock p (size b) true (-1) :: rest.
Proof.
  intros Hpre Hb. induction Hpre as [|c pre Hc _ IH]; simpl.
  - destruct (Z.eqb_spec (address b) p); [by rewrite Hb | done].
  - destruct (Z.eqb_spec (address c) p); [done | by rewrite IH].
Qed.

(** X3.  [deallocate] undoes [allocate]: on a tiled arena whose blocks have
    positive size, where [allocate] is defined when the block vector has
    room for one more block, freeing the pointer that a defined allocation
    returned is defined and completes, brings the free memory back to what
    it was before the allocation, erases the record and leaves the arena
    tiled. *)
Theorem allocate_deallocate_round_trip (L : StdLib) (sz : Z) (mm : MemoryManager) :
  lib_ok L ->
  arena_inv mm ->
  Forall (fun b => 0 < size b) (memory_blocks mm) ->
  0 < align8 sz ->
  ((length (memory_blocks mm) < blocks_capacity mm)%nat -> is_Some (allocate sz mm)) /\
  forall p mm1,
    allocate sz mm = Some (p, mm1) -> p <> 0 ->
    exists mm2,
      deallocate L p mm1 = Some (FreeDone, mm2) /\
      get_free_memory mm2 = get_free_memory mm /\
      allocated_blocks mm2 = delete p (allocated_blocks mm) /\
      arena_tiled mm2.
Proof.
  intros HL Hinv Hpos Hsz. split; [apply allocate_defined |]. intros p mm1 Halloc Hp.
  pose proof (allocate_inv _ _ _ _ Halloc Hinv) as Hinv1.
  destruct (allocate_records_block _ _ _ _ Halloc Hp)
    as (_ & Hmap & Hpool & Hps & pre & b & post & Hbs & Hpre & Hb & Ha & Hbs1).
  destruct (deallocate_inv L p mm1 HL Hinv1) as (r & mm2 & Hd & Hinv2).
  exists mm2. pose proof Hd as Hd0. unfold deallocate in Hd.
  destruct (Z.eqb_spec p 0) as [|_]; [done |].
  rewrite Hmap, lookup_insert_eq in Hd.
  destruct (coalesce_free_blocks L _) as [bs2|] eqn:Hco; [| done].
  simpl in Hd. injection Hd as Hr Hmm2. subst r.
  split; [done |].
  split; [| split; [rewrite <- Hmm2; simpl; apply delete_insert_eq
                   | apply Hinv2]].
  rewrite <- Hmm2 in Hinv2 |- *.
  rewrite (get_free_memory_eq _ Hinv2), (get_free_memory_eq _ Hinv). simpl.
  assert (Hdist : Forall (fun c => address c <> p) pre).
  { destruct Hinv as [_ Ht]. unfold arena_tiled in Ht. rewrite Hbs in Ht, Hpos.
    rewrite <- Ha. apply (tiles_distinct_start _ _ _ _ _ Ht).
    - apply Forall_app in Hpos as [_ Hpos]. by apply Forall_cons in Hpos as [? _].
    - by apply Forall_app in Hpos as [? _]. }
  rewrite Hbs1 in Hco.
  rewrite (release_block_at p pre (mkBlock p (align8 sz) false (process_id b)) _ Hdist eq_refl)
    in Hco.
  destruct Hinv1 as [Hpsz1 [Hw1 _]]. rewrite Hbs1, Hpool, Hps in Hw1.
  erewrite (coalesce_free_size L (memory_pool mm) (pool_size mm)); [| done | lia | | exact Hco].
  - rewrite Hbs, !free_size_app. simpl. rewrite free_size_app.
    unfold fits in Hb. apply andb_prop in Hb as [-> Hle%Z.leb_le].
    destruct (Z.ltb_spec (align8 sz) (size b)); simpl; lia.
  - apply Forall_app in Hw1 as [Hw1 Hw2]. apply Forall_cons in Hw2 as [Hw2 Hw3].
    apply Forall_app. split; [done |]. constructor; [| done]. exact Hw2.
Qed.

Lemma allocate_deallocate_round_trip_witness :
  allocate 100 demo_init = Some (demo_pool, demo_mm0) /\
  exists mm2,
    deallocate sample_lib demo_pool demo_mm0 = Some (FreeDone, mm2) /\
    get_free_memory mm2 = get_free_memory demo_init /\
    allocated_blocks mm2 = delete demo_pool (allocated_blocks demo_init) /\
    arena_tiled mm2.
Proof.
  split; [reflexivity |].
  apply (proj2 (allocate_deallocate_round_trip sample_lib 100 demo_init sample_lib_ok
                  demo_init_inv ltac:(repeat constructor) eq_refl)).
  - reflexivity.
  - discriminate.
Defined.

(** *** Double free *)

(** X4.  Freeing a pointer a second time, right after its free completed,
    is reported as invalid and changes nothing. *)
Theorem double_free_detected (L : StdLib) (p : Z) (mm mm' : MemoryManager) :
  deallocate L p mm = Some (FreeDone, mm') ->
  deallocate L p mm' = Some (FreeInvalid, mm').
Proof.
  intros Hd.
  assert (Hp : p <> 0).
  { intros ->. unfold deallocate in Hd. simpl in Hd. by injection Hd. }
  apply deallocate_unknown; [done |].
  by eapply deallocate_erases_record.
Qed.

Lemma double_free_detected_witness :
  exists mm',
    deallocate sample_lib demo_pool demo_mm0 = Some (FreeDone, mm') /\
    deallocate sample_lib demo_pool mm' = Some (FreeInvalid, mm').
Proof.
  eexists. split; [reflexivity |].
  apply (double_free_detected sample_lib demo_pool demo_mm0). reflexivity.
Defined.

(** *** Aligned allocation *)

Lemma pow2_bounds k : 0 <= k < 64 -> 0 < 2 ^ k <= 2 ^ 63.
Proof.
  intros Hk. split; [apply Z.pow_pos_nonneg; lia |].
  apply Z.pow_le_mono_r; lia.
Qed.

Lemma mask_pow2 k x :
  0 <= k < 64 -> 0 <= x < 2 ^ 64 ->
  Z.land x (wrap64 (Z.lnot (wrap64 (2 ^ k - 1)))) = 2 ^ k * (x / 2 ^ k).
Proof.
  intros Hk Hx. pose proof (pow2_bounds k Hk) as Hp.
  rewrite (wrap64_small (2 ^ k - 1)) by lia.
  replace (2 ^ k - 1) with (Z.ones k) by (rewrite Z.ones_equiv; lia).
  unfold wrap64. rewrite <- (Z.land_ones _ 64) by lia.
  rewrite Z.land_assoc, Z.land_ones, <- Z.ldiff_land by lia.
  rewrite Z.ldiff_ones_r, Z.shiftr_div_pow2, Z.shiftl_mul_pow2 by lia.
  rewrite Z.mod_small; [lia |].
  pose proof (Z.mul_div_le x (2 ^ k) ltac:(lia)).
  pose proof (Z.div_pos x (2 ^ k) ltac:(lia) ltac:(lia)). lia.
Qed.

Lemma pow2_accepted k :
  0 <= k < 64 ->
  (2 ^ k =? 0) || negb (Z.land (2 ^ k) (wrap64 (2 ^ k - 1)) =? 0) = false.
Proof.
  intros Hk. pose proof (pow2_bounds k Hk) as Hp.
  rewrite (wrap64_small (2 ^ k - 1)) by lia.
  replace (2 ^ k - 1) with (Z.ones k) by (rewrite Z.ones_equiv; lia).
  rewrite Z.land_ones, Z.mod_same by lia.
  destruct (Z.eqb_spec (2 ^ k) 0); [lia | done].
Qed.

Lemma align8_ge x : 0 <= x <= 2 ^ 64 - 8 -> x <= align8 x.
Proof.
  intros Hx. rewrite align8_round, wrap64_small by lia.
  pose proof (Z.div_mod (x + 7) 8 ltac:(lia)).
  pose proof (Z.mod_pos_bound (x + 7) 8 ltac:(lia)). lia.
Qed.

(** X5.  For an alignment [2 ^ k] with [k < 64] and a request that stays
    below the top of [size_t], [allocate_aligned] is defined when the block
    vector has room for one more block, and the pointer that a defined
    [allocate_aligned] returns, if not null, is a multiple of the
    alignment; it lies in the first [2 ^ k] bytes of the block recorded for
    the underlying allocation of [size + alignment - 1] bytes, and [size]
    bytes fit between it and the end of that block. *)
Theorem allocate_aligned_aligned (k sz : Z) (mm : MemoryManager) :
  0 <= k < 64 -> 0 <= sz -> sz + 2 ^ k - 1 <= 2 ^ 64 - 8 ->
  arena_inv mm -> 0 < memory_pool mm -> memory_pool mm + pool_size mm < 2 ^ 64 ->
  ((length (memory_blocks mm) < blocks_capacity mm)%nat ->
   is_Some (allocate_aligned sz (2 ^ k) mm)) /\
  forall r mm',
    allocate_aligned sz (2 ^ k) mm = Some (r, mm') -> r <> 0 ->
    r mod 2 ^ k = 0 /\
    exists ptr,
      allocated_blocks mm' !! ptr = Some (align8 (sz + 2 ^ k - 1)) /\
      ptr <= r < ptr + 2 ^ k /\
      r + sz <= ptr + align8 (sz + 2 ^ k - 1).
Proof.
  intros Hk Hsz Hfit Hinv Hpool Hend. split; [apply allocate_aligned_defined |].
  intros r mm' Hal Hr.
  pose proof (pow2_bounds k Hk) as Hp.
  destruct (allocate_aligned_cases _ _ _ _ _ Hal) as [(? & _)|(ptr & Halloc & Hres)];
    [done |].
  rewrite (wrap64_small (sz + 2 ^ k - 1)) in Halloc by lia.
  destruct (Z.eqb_spec ptr 0) as [|Hptr]; [done |]. subst r.
  pose proof (allocate_inv _ _ _ _ Halloc Hinv) as Hinv1.
  destruct (allocate_records_block _ _ _ _ Halloc Hptr)
    as (_ & Hmap & Hpl & Hps & pre & b & post & Hbs & Hpre & Hb & Ha & Hbs1).
  assert (Hin : within (memory_pool mm) (pool_size mm)
                       (mkBlock ptr (align8 (sz + 2 ^ k - 1)) false (process_id b))).
  { destruct Hinv1 as [_ [Hw _]]. rewrite Hbs1, Hpl, Hps in Hw.
    apply Forall_app in Hw as [_ Hw]. by apply Forall_cons in Hw as [? _]. }
  destruct Hin as (Hlo & _ & Hhi). simpl in Hlo, Hhi.
  pose proof (align8_ge (sz + 2 ^ k - 1) ltac:(lia)) as Hge.
  rewrite (wrap64_small (ptr + 2 ^ k - 1)) in * by lia.
  rewrite mask_pow2 in * by lia.
  pose proof (Z.div_mod (ptr + 2 ^ k - 1) (2 ^ k) ltac:(lia)) as Hdm.
  pose proof (Z.mod_pos_bound (ptr + 2 ^ k - 1) (2 ^ k) ltac:(lia)) as Hmb.
  split; [rewrite Z.mul_comm; apply Z.mod_mul; lia |].
  exists ptr. split; [rewrite Hmap; apply lookup_insert_eq |]. lia.
Qed.

Lemma allocate_aligned_aligned_witness :
  exists r mm',
    allocate_aligned 100 (2 ^ 6) demo_init = Some (r, mm') /\
    r mod 2 ^ 6 = 0 /\
    exists ptr,
      allocated_blocks mm' !! ptr = Some (align8 (100 + 2 ^ 6 - 1)) /\
      ptr <= r < ptr + 2 ^ 6 /\
      r + 100 <= ptr + align8 (100 + 2 ^ 6 - 1).
Proof.
  destruct (allocate_aligned_aligned 6 100 demo_init) as [_ Hsound].
  - lia.
  - lia.
  - vm_compute. discriminate.
  - apply demo_init_inv.
  - reflexivity.
  - reflexivity.
  - eexists _, _. split; [reflexivity |].
    apply Hsound; [reflexivity | vm_compute; discriminate].
Defined.

Lemma not_pow2_land al :
  0 < al -> (forall k, 0 <= k -> al <> 2 ^ k) -> Z.land al (al - 1) <> 0.
Proof.
  intros Hal Hnp Hz.
  pose proof (Z.log2_spec al Hal) as [Hlo Hhi].
  pose proof (Z.log2_nonneg al) as Hk.
  specialize (Hnp (Z.log2 al) Hk).
  assert (Hlog : Z.log2 (al - 1) = Z.log2 al).
  { apply Z.log2_unique; [done |]. rewrite <- Z.add_1_r in Hhi |- *. lia. }
  assert (Hb1 : Z.testbit al (Z.log2 al) = true) by (apply Z.bit_log2; lia).
  assert (Hb2 : Z.testbit (al - 1) (Z.log2 al) = true).
  { rewrite <- Hlog. apply Z.bit_log2. lia. }
  pose proof (Z.land_spec al (al - 1) (Z.log2 al)) as Hs.
  rewrite Hz, Hb1, Hb2, Z.bits_0 in Hs. done.
Qed.

(** X6.  [allocate_aligned] with an alignment that is zero or not a power
    of two is defined, returns the null pointer and leaves the manager as it
    was. *)
Theorem allocate_aligned_rejects (sz al : Z) (mm : MemoryManager) :
  0 <= al < 2 ^ 64 -> (forall k, 0 <= k -> al <> 2 ^ k) ->
  allocate_aligned sz al mm = Some (0, mm).
Proof.
  intros Hal Hnp. unfold allocate_aligned.
  destruct (Z.eqb_spec al 0) as [|Hnz]; [done |]. simpl.
  rewrite (wrap64_small (al - 1)) by lia.
  destruct (Z.eqb_spec (Z.land al (al - 1)) 0) as [Hz|_]; [| done].
  exfalso. by apply (not_pow2_land al ltac:(lia) Hnp).
Qed.

Lemma allocate_aligned_rejects_witness :
  allocate_aligned 100 24 demo_init = Some (0, demo_init).
Proof.
  apply allocate_aligned_rejects; [lia |].
  intros k Hk Heq.
  assert (Hk5 : k < 5).
  { destruct (Z.ltb_spec k 5) as [|Hge]; [done |].
    pose proof (Z.pow_le_mono_r 2 5 k ltac:(lia) Hge). lia. }
  assert (k = 0 \/ k = 1 \/ k = 2 \/ k = 3 \/ k = 4) as [-> | [-> | [-> | [-> | ->]]]] by lia;
    discriminate Heq.
Defined.

(** *** Allocated blocks under coalescing and bulk release *)

Lemma filter_perm (f : MemoryBlock -> bool) l1 l2 :
  l1 ≡ₚ l2 -> List.filter f l1 ≡ₚ List.filter f l2.
Proof.
  induction 1 as [|b l1 l2 _ IH|b c l|l1 l2 l3 _ IH1 _ IH2]; simpl.
  - done.
  - destruct (f b); [by constructor | done].
  - destruct (f b), (f c); try done. apply Permutation_swap.
  - by etrans.
Qed.

Lemma used_merge_from cur rest : used (merge_from cur rest) = used (cur :: rest).
Proof.
  revert cur. induction rest as [|nxt rest IH]; intros cur; [done |]. simpl.
  destruct (mergeable cur nxt) eqn:Hm.
  - unfold mergeable in Hm. apply andb_prop in Hm as [[Hfc Hfn]%andb_prop _].
    rewrite IH. unfold used. simpl. by rewrite Hfc, Hfn.
  - unfold used in *. simpl. by rewrite (IH nxt).
Qed.

Lemma coalesce_used L bs bs' :
  lib_ok L -> coalesce_free_blocks L bs = Some bs' -> used bs' ≡ₚ used bs.
Proof.
  intros HL [_ ->]%coalesce_result. pose proof (std_sort_perm L bs HL) as Hp.
  rewrite <- (filter_perm _ _ _ Hp : used (std_sort L bs) ≡ₚ used bs).
  unfold merge_blocks. destruct (std_sort L bs) as [|b rest]; [done |].
  by rewrite used_merge_from.
Qed.

(** X7.  On a tiled arena [coalesce_free_blocks] is defined; it keeps the
    used blocks, up to their order, and the amount of free memory, and the
    table does not grow - whatever order [std::sort] gives to blocks of
    equal address. *)
Theorem coalesce_keeps_allocations (L : StdLib) (mm : MemoryManager) :
  lib_ok L ->
  arena_inv mm ->
  exists bs,
    coalesce_free_blocks L (memory_blocks mm) = Some bs /\
    used bs ≡ₚ used (memory_blocks mm) /\
    free_size bs = free_size (memory_blocks mm) /\
    (length bs <= length (memory_blocks mm))%nat.
Proof.
  intros HL Hinv. destruct (coalesce_inv L mm HL Hinv) as (bs & Hco & _).
  exists bs. split; [done |]. split; [by eapply coalesce_used |].
  destruct Hinv as [Hpsz [Hw _]]. split.
  - eapply (coalesce_free_size L); [done | | exact Hw | done]. lia.
  - by eapply coalesce_length.
Qed.

Lemma coalesce_keeps_allocations_witness :
  exists bs,
    coalesce_free_blocks sample_lib (memory_blocks demo_mm1) = Some bs /\
    used bs ≡ₚ used (memory_blocks demo_mm1) /\
    free_size bs = free_size (memory_blocks demo_mm1) /\
    (length bs <= length (memory_blocks demo_mm1))%nat.
Proof.
  apply coalesce_keeps_allocations; [apply sample_lib_ok | apply demo_mm1_inv].
Defined.

Lemma used_cons b l : used (b :: l) = if is_free b then used l else b :: used l.
Proof. unfold used. simpl. by destruct (is_free b). Qed.

Lemma used_release_owned pid bs :
  used (release_owned pid <$> bs)
  = List.filter (fun b => negb (owned_by pid b)) (used bs).
Proof.
  induction bs as [|b bs IH]; [done |].
  rewrite fmap_cons, !used_cons, IH. unfold release_owned, owned_by.
  destruct (is_free b) eqn:Hf; destruct (process_id b =? pid) eqn:Ho; simpl;
    rewrite ?Hf, ?Ho; done.
Qed.

Lemma free_size_release_owned pid bs :
  free_size (release_owned pid <$> bs)
  = free_size bs + total_size (List.filter (owned_by pid) (used bs)).
Proof.
  induction bs as [|b bs IH]; [done |].
  rewrite fmap_cons, used_cons.
  change (free_size (release_owned pid b :: (release_owned pid <$> bs)))
    with ((if is_free (release_owned pid b) then size (release_owned pid b) else 0)
          + free_size (release_owned pid <$> bs)).
  rewrite IH. unfold release_owned, owned_by.
  destruct (is_free b) eqn:Hf; destruct (process_id b =? pid) eqn:Ho; simpl;
    rewrite ?Hf, ?Ho; simpl; lia.
Qed.

(** X8.  [deallocate_process_memory] on a tiled arena is defined; the used
    blocks afterwards are the used blocks that [pid] did not own, and the
    free memory has grown by the sizes of the used blocks [pid] owned. *)
Theorem process_release_frees_owner (L : StdLib) (pid : Z) (mm : MemoryManager) :
  lib_ok L ->
  arena_inv mm ->
  exists mm',
    deallocate_process_memory L pid mm = Some mm' /\
    used (memory_blocks mm')
      ≡ₚ List.filter (fun b => negb (owned_by pid b)) (used (memory_blocks mm)) /\
    get_free_memory mm'
    = get_free_memory mm + total_size (List.filter (owned_by pid) (used (memory_blocks mm))).
Proof.
  intros HL Hinv.
  destruct (deallocate_process_memory_inv L pid mm HL Hinv) as (mm' & Hd & Hinv').
  exists mm'. split; [done |].
  rewrite (get_free_memory_eq _ Hinv'), (get_free_memory_eq _ Hinv).
  unfold deallocate_process_memory in Hd.
  destruct (coalesce_free_blocks L _) as [bs|] eqn:Hco; [| done].
  simpl in Hd. injection Hd as <-. simpl. split.
  - rewrite (coalesce_used L _ _ HL Hco). by rewrite used_release_owned.
  - destruct Hinv as [Hpsz [Hw _]].
    erewrite (coalesce_free_size L (memory_pool mm) (pool_size mm));
      [| done | lia | | exact Hco].
    + apply free_size_release_owned.
    + eapply within_same_span; [apply release_owned_span | done].
Qed.

Lemma process_release_frees_owner_witness :
  exists mm1 mm',
    snd <$> allocate_for_process 7 16 demo_init = Some mm1 /\
    deallocate_process_memory sample_lib 7 mm1 = Some mm' /\
    used (memory_blocks mm')
      ≡ₚ List.filter (fun b => negb (owned_by 7 b)) (used (memory_blocks mm1)) /\
    get_free_memory mm'
    = get_free_memory mm1
      + total_size (List.filter (owned_by 7) (used (memory_blocks mm1))).
Proof.
  eexists. 
  destruct (process_release_frees_owner sample_lib 7
              (state_after demo_init (allocate_for_process 7 16 demo_init)) sample_lib_ok)
    as (mm' & H).
  - apply (allocate_for_process_inv 7 16 demo_init demo_pool); [reflexivity |].
    apply demo_init_inv.
  - exists mm'. split; [reflexivity | exact H].
Defined.

(** *** Round trip of [allocate_for_process] and [deallocate_process_memory] *)

Lemma stamp_block_at p pid pre b rest :
  Forall (fun c => address c <> p) pre -> address b = p ->
  stamp_block p pid (pre ++ b :: rest)
  = pre ++ mkBlock p (size b) (is_free b) pid :: rest.
Proof.
  intros Hpre Hb. induction Hpre as [|c pre Hc _ IH]; simpl.
  - destruct (Z.eqb_spec (address b) p); [by rewrite Hb | done].
  - destruct (Z.eqb_spec (address c) p); [done | by rewrite IH].
Qed.

Lemma release_owned_others pid bs :
  Forall (fun b => is_free b = false -> process_id b <> pid) bs ->
  release_owned pid <$> bs = bs.
Proof.
  induction 1 as [|b bs Hb _ IH]; [done |].
  rewrite fmap_cons, IH. f_equal. unfold release_owned.
  destruct (is_free b) eqn:Hf; simpl; [by rewrite andb_false_r |].
  destruct (Z.eqb_spec (process_id b) pid) as [Heq|]; [| done].
  by specialize (Hb eq_refl).
Qed.

Lemma used_app l1 l2 : used (l1 ++ l2) = used l1 ++ used l2.
Proof. unfold used. apply List.filter_app. Qed.

(** X9.  [deallocate_process_memory] undoes [allocate_for_process] on the
    block table, not on the records: on a tiled arena whose blocks have
    positive size and where [pid] owns no used block,
    [allocate_for_process] is defined when the block vector has room for
    one more block; a defined call that returns a pointer leaves a used
    block of the rounded size at the pointer, owned by [pid]; releasing
    [pid] afterwards is defined and brings back the free memory and the used
    blocks of the state before, while the allocation record of the pointer
    stays. *)
Theorem process_allocation_round_trip (L : StdLib) (pid sz : Z) (mm : MemoryManager) :
  lib_ok L ->
  arena_inv mm ->
  Forall (fun b => 0 < size b) (memory_blocks mm) ->
  0 < align8 sz ->
  Forall (fun b => is_free b = false -> process_id b <> pid) (memory_blocks mm) ->
  ((length (memory_blocks mm) < blocks_capacity mm)%nat ->
   is_Some (allocate_for_process pid sz mm)) /\
  forall p mm1,
    allocate_for_process pid sz mm = Some (p, mm1) -> p <> 0 ->
    (exists b, b ∈ memory_blocks mm1 /\ address b = p /\ size b = align8 sz /\
               is_free b = false /\ process_id b = pid) /\
    exists mm2,
      deallocate_process_memory L pid mm1 = Some mm2 /\
      get_free_memory mm2 = get_free_memory mm /\
      used (memory_blocks mm2) ≡ₚ used (memory_blocks mm) /\
      allocated_blocks mm2 !! p = Some (align8 sz).
Proof.
  intros HL Hinv Hpos Hsz Hown. split; [apply allocate_for_process_defined |].
  intros p mm1 Hafp Hp.
  pose proof (allocate_for_process_inv _ _ _ _ _ Hafp Hinv) as Hinv1.
  destruct (allocate_for_process_cases _ _ _ _ _ Hafp) as (mm0 & Halloc & Hmm1).
  destruct (Z.eqb_spec p 0) as [|_]; [done |].
  destruct (allocate_records_block _ _ _ _ Halloc Hp)
    as (_ & Hmap & Hpool & Hps & pre & b & post & Hbs & Hpre & Hb & Ha & Hbs0).
  assert (Hdist : Forall (fun c => address c <> p) pre).
  { destruct Hinv as [_ Ht]. unfold arena_tiled in Ht. rewrite Hbs in Ht, Hpos.
    rewrite <- Ha. apply (tiles_distinct_start _ _ _ _ _ Ht).
    - apply Forall_app in Hpos as [_ Hpos]. by apply Forall_cons in Hpos as [? _].
    - by apply Forall_app in Hpos as [? _]. }
  assert (Hbs1 : stamp_block p pid (memory_blocks mm0)
                 = pre ++ mkBlock p (align8 sz) false pid :: post
                       ++ (if align8 sz <? size b
                           then [mkBlock (p + align8 sz) (size b - align8 sz) true (-1)]
                           else [])).
  { rewrite Hbs0. by rewrite stamp_block_at. }
  subst mm1. simpl in *. rewrite Hbs1 in *.
  split.
  { eexists. split; [apply elem_of_app; right; left |]. done. }
  destruct (deallocate_process_memory_inv L pid _ HL Hinv1) as (mm2 & Hd & Hinv2).
  exists mm2. split; [done |].
  rewrite (get_free_memory_eq _ Hinv2), (get_free_memory_eq _ Hinv).
  unfold deallocate_process_memory in Hd. simpl in Hd.
  destruct (coalesce_free_blocks L _) as [bs2|] eqn:Hco; [| done].
  simpl in Hd. injection Hd as <-. simpl.
  rewrite Hbs in Hown. apply Forall_app in Hown as [Hopre Hopost].
  apply Forall_cons in Hopost as [_ Hopost].
  assert (Hrel : release_owned pid <$>
                   (pre ++ mkBlock p (align8 sz) false pid :: post
                        ++ (if align8 sz <? size b
                            then [mkBlock (p + align8 sz) (size b - align8 sz) true (-1)]
                            else []))
                 = pre ++ mkBlock p (align8 sz) true (-1) :: post
                       ++ (if align8 sz <? size b
                           then [mkBlock (p + align8 sz) (size b - align8 sz) true (-1)]
                           else [])).
  { rewrite fmap_app, fmap_cons, fmap_app, !release_owned_others; try done.
    - unfold release_owned. simpl. by rewrite Z.eqb_refl.
    - destruct (align8 sz <? size b); by repeat constructor. }
  rewrite Hrel in Hco.
  unfold fits in Hb. apply andb_prop in Hb as [Hfree Hle%Z.leb_le].
  split; [| split; [| by rewrite Hmap, lookup_insert_eq]].
  - destruct Hinv1 as [Hpsz1 [Hw1 _]]. simpl in Hw1, Hpsz1.
    erewrite (coalesce_free_size L (memory_pool mm) (pool_size mm));
      [| done | lia | | exact Hco].
    + rewrite Hbs, !free_size_app. simpl. rewrite free_size_app, Hfree.
      destruct (Z.ltb_spec (align8 sz) (size b)); simpl; lia.
    + rewrite Hpool, Hps in Hw1.
      apply Forall_app in Hw1 as [Hw1 Hw2]. apply Forall_cons in Hw2 as [Hw2 Hw3].
      apply Forall_app. split; [done |]. constructor; [| done]. exact Hw2.
  - rewrite (coalesce_used L _ _ HL Hco), Hbs.
    rewrite !used_app, !used_cons, used_app. simpl. rewrite Hfree.
    destruct (align8 sz <? size b); simpl; by rewrite ?app_nil_r.
Qed.

Lemma process_allocation_round_trip_witness :
  exists mm1,
    allocate_for_process 7 16 demo_mm0 = Some (demo_pool + 104, mm1) /\
    (exists b, b ∈ memory_blocks mm1 /\
               address b = demo_pool + 104 /\ size b = align8 16 /\
               is_free b = false /\ process_id b = 7) /\
    exists mm2,
      deallocate_process_memory sample_lib 7 mm1 = Some mm2 /\
      get_free_memory mm2 = get_free_memory demo_mm0 /\
      used (memory_blocks mm2) ≡ₚ used (memory_blocks demo_mm0) /\
      allocated_blocks mm2 !! (demo_pool + 104) = Some (align8 16).
Proof.
  destruct (process_allocation_round_trip sample_lib 7 16 demo_mm0) as [_ Hsound].
  - apply sample_lib_ok.
  - apply demo_mm0_inv.
  - repeat constructor.
  - reflexivity.
  - repeat constructor; simpl; intros; lia.
  - eexists. split; [reflexivity |].
    apply Hsound; [reflexivity | vm_compute; discriminate].
Defined.

(** *** Pointers handed out are valid *)

Section StartsInside.
Variables pool psz : Z.

Lemma starts_inside_same_span l1 l2 :
  Forall2 same_span l1 l2 ->
  Forall (starts_inside pool psz) l1 -> Forall (starts_inside pool psz) l2.
Proof.
  induction 1 as [|b c l1 l2 [Ha _] _ IH]; intros Hs; [done |].
  apply Forall_cons in Hs as [Hb Hl]. constructor; [| by apply IH].
  unfold starts_inside in *. by rewrite <- Ha.
Qed.

Lemma first_fit_allocate_starts_inside sz cap bs p bs' :
  0 <= sz -> first_fit_allocate sz cap bs = Some (p, bs') ->
  Forall (within pool psz) bs ->
  Forall (starts_inside pool psz) bs ->
  Forall (starts_inside pool psz) bs'.
Proof.
  intros Hsz Hffa Hw Hs.
  destruct (first_fit_allocate_cases _ _ _ _ _ Hffa)
    as [(_ & -> & _)|(pre & b & post & -> & _ & _ & _ & Hcase)]; [done |].
  apply Forall_app in Hs as [Hpre Hs]. apply Forall_cons in Hs as [Hb Hpost].
  apply Forall_app in Hw as [_ Hw]. apply Forall_cons in Hw as [(Hlo & _ & Hhi) _].
  destruct Hcase as [[_ ->]|(Hlt & _ & ->)].
  - apply Forall_app. split; [done |]. by constructor.
  - apply Forall_app. split; [done |]. constructor; [done |].
    apply Forall_app. split; [done |]. constructor; [| done].
    unfold starts_inside. simpl. lia.
Qed.

Lemma merge_from_starts_inside cur rest :
  Forall (starts_inside pool psz) (cur :: rest) ->
  Forall (starts_inside pool psz) (merge_from cur rest).
Proof.
  revert cur. induction rest as [|nxt rest IH]; intros cur Hs; [done |]. simpl.
  apply Forall_cons in Hs as [Hc Hr]. pose proof Hr as Hr'.
  apply Forall_cons in Hr' as [_ Hrest].
  destruct (mergeable cur nxt).
  - apply IH. by constructor.
  - constructor; [done | by apply IH].
Qed.

Lemma coalesce_starts_inside L bs bs' :
  lib_ok L -> coalesce_free_blocks L bs = Some bs' ->
  Forall (starts_inside pool psz) bs -> Forall (starts_inside pool psz) bs'.
Proof.
  intros HL [_ ->]%coalesce_result Hs.
  rewrite <- (std_sort_perm L bs HL) in Hs. unfold merge_blocks.
  destruct (std_sort L bs) as [|b rest]; [done |].
  by apply merge_from_starts_inside.
Qed.

End StartsInside.

Lemma allocate_starts sz mm p mm' :
  allocate sz mm = Some (p, mm') -> starts_inv mm -> starts_inv mm'.
Proof.
  intros Ha [Hinv Hs]. split; [by eapply allocate_inv |].
  destruct (allocate_shape _ _ _ _ Ha) as [Hmm Hcase]. rewrite Hmm. simpl.
  destruct Hcase as [(_ & _ & ->)|(_ & Hffa)]; [done |].
  eapply first_fit_allocate_starts_inside;
    [apply align8_nonneg | exact Hffa | apply Hinv | done].
Qed.

Lemma allocate_aligned_starts sz al mm r mm' :
  allocate_aligned sz al mm = Some (r, mm') -> starts_inv mm -> starts_inv mm'.
Proof.
  intros [[_ ->]|(ptr & Ha & _)]%allocate_aligned_cases; [done | by eapply allocate_starts].
Qed.

Lemma allocate_for_process_starts pid sz mm p mm' :
  allocate_for_process pid sz mm = Some (p, mm') -> starts_inv mm -> starts_inv mm'.
Proof.
  intros Hafp Hi. split; [by eapply allocate_for_process_inv, Hi |].
  destruct (allocate_for_process_cases _ _ _ _ _ Hafp) as (mm1 & Ha & ->).
  pose proof (allocate_starts _ _ _ _ Ha Hi) as [_ Hs].
  destruct (p =? 0); [done |]. simpl.
  eapply starts_inside_same_span; [apply stamp_block_span | done].
Qed.

Lemma deallocate_starts L ptr mm r mm' :
  lib_ok L -> deallocate L ptr mm = Some (r, mm') -> starts_inv mm -> starts_inv mm'.
Proof.
  intros HL Hd [Hinv Hs].
  destruct (deallocate_inv L ptr mm HL Hinv) as (r' & mm'' & Hd' & Hinv').
  rewrite Hd in Hd'. injection Hd' as <- <-. split; [done |].
  unfold deallocate in Hd. destruct (ptr =? 0); [by injection Hd as _ <- |].
  destruct (allocated_blocks mm !! ptr); [| by injection Hd as _ <-].
  destruct (coalesce_free_blocks L _) as [bs|] eqn:Hco; [| done].
  simpl in Hd. injection Hd as _ <-. simpl.
  eapply coalesce_starts_inside; [done | exact Hco |].
  eapply starts_inside_same_span; [apply release_block_span | done].
Qed.

Lemma deallocate_process_memory_starts L pid mm mm' :
  lib_ok L -> deallocate_process_memory L pid mm = Some mm' ->
  starts_inv mm -> starts_inv mm'.
Proof.
  intros HL Hd [Hinv Hs].
  destruct (deallocate_process_memory_inv L pid mm HL Hinv) as (mm'' & Hd' & Hinv').
  rewrite Hd in Hd'. injection Hd' as <-. split; [done |].
  unfold deallocate_process_memory in Hd.
  destruct (coalesce_free_blocks L _) as [bs|] eqn:Hco; [| done].
  simpl in Hd. injection Hd as <-. simpl.
  eapply coalesce_starts_inside; [done | exact Hco |].
  eapply starts_inside_same_span; [apply release_owned_span | done].
Qed.

Lemma allocate_virtual_page_starts mm v mm' :
  allocate_virtual_page mm = Some (v, mm') -> starts_inv mm -> starts_inv mm'.
Proof.
  intros Hal Hi. split; [by eapply allocate_virtual_page_inv, Hi |].
  destruct (allocate_virtual_page_cases _ _ _ Hal)
    as (page & mm1 & Ha & [(_ & _ & ->)|(_ & _ & ->)]);
    pose proof (allocate_aligned_starts _ _ _ _ _ Ha Hi) as [_ Hs]; [done |].
  unfold map_page. simpl. by destruct (page_table mm1 !! _).
Qed.

Lemma free_virtual_page_starts L page mm mm' :
  lib_ok L -> free_virtual_page L page mm = Some mm' -> starts_inv mm -> starts_inv mm'.
Proof.
  intros HL. unfold free_virtual_page. destruct (_ =? 0); [by intros; simplify_eq |].
  destruct (deallocate L _ _) as [[r mm'']|] eqn:Hd; [| done].
  simpl. intros Heq Hi. injection Heq as <-.
  eapply deallocate_starts; [done | exact Hd |].
  destruct Hi as [Hinv Hs]. split; [by apply unmap_page_inv |].
  unfold unmap_page. by destruct (page_table mm !! _).
Qed.

Lemma step_starts L op mm mm' :
  lib_ok L -> is_initialize op = false -> step L op mm = Some mm' ->
  starts_inv mm -> starts_inv mm'.
Proof.
  intros HL Hop Hstep Hi.
  destruct op as [pool0|sz|sz al|ptr| |pid sz|pid| |page]; simpl in *; try done.
  - destruct (allocate sz mm) as [[p mm1]|] eqn:Hc; [| done]. injection Hstep as <-.
    by eapply allocate_starts.
  - destruct (allocate_aligned sz al mm) as [[p mm1]|] eqn:Hc; [| done].
    injection Hstep as <-. by eapply allocate_aligned_starts.
  - destruct (deallocate L ptr mm) as [[r mm'']|] eqn:Hd; [| done].
    simpl in Hstep. injection Hstep as <-. by eapply deallocate_starts.
  - destruct (coalesce_free_blocks L _) as [bs|] eqn:Hco; [| done].
    simpl in Hstep. injection Hstep as <-.
    destruct (coalesce_inv L mm HL (proj1 Hi)) as (bs' & Hco' & Hinv').
    rewrite Hco in Hco'. injection Hco' as <-. split; [done |].
    simpl. eapply coalesce_starts_inside; [done | exact Hco | apply Hi].
  - destruct (allocate_for_process pid sz mm) as [[p mm1]|] eqn:Hc; [| done].
    injection Hstep as <-. by eapply allocate_for_process_starts.
  - by eapply deallocate_process_memory_starts.
  - destruct (allocate_virtual_page mm) as [[p mm1]|] eqn:Hc; [| done].
    injection Hstep as <-. by eapply allocate_virtual_page_starts.
  - by eapply free_virtual_page_starts.
Qed.

Lemma run_starts L ops : forall mm mm',
  lib_ok L -> forallb (fun op => negb (is_initialize op)) ops = true ->
  run L ops mm = Some mm' -> starts_inv mm -> starts_inv mm'.
Proof.
  induction ops as [|op ops IH]; intros mm mm' HL Hops Hrun Hi; simpl in *.
  - by injection Hrun as <-.
  - apply andb_prop in Hops as [Hop%negb_true_iff Hops].
    destruct (step L op mm) as [mm1|] eqn:Hstep; [| done]. simpl in Hrun.
    eapply IH; [done | done | done |]. by eapply step_starts.
Qed.

Lemma initialize_starts L pool mmc :
  pool <> 0 -> memory_blocks mmc = [] -> 0 < pool_size mmc < 2 ^ 64 ->
  starts_inv (snd (initialize L pool mmc)).
Proof.
  intros Hp Hnil Hpsz. split; [by apply initialize_inv |].
  rewrite initialize_true by done. simpl. rewrite Hnil. simpl.
  constructor; [| done]. unfold starts_inside. simpl. lia.
Qed.

(** X10.  Take a session started by [initialize] on a pool that is not
    null, in a manager with an empty block table, and with no second
    [initialize].  Its calls are all defined when the vector that
    [initialize] leaves has room for one more block per operation.  In every
    state the session reaches with its calls defined, [allocate] is defined
    when the vector has room for one more block, and every pointer that a
    defined [allocate] returns and that is not null passes
    [validate_pointer]. *)
Theorem allocated_pointer_valid
    (L : StdLib) (pool : Z) (mmc : MemoryManager) (ops : list Op) (sz : Z) :
  lib_ok L ->
  pool <> 0 -> memory_blocks mmc = [] -> 0 < pool_size mmc < 2 ^ 64 ->
  forallb (fun op => negb (is_initialize op)) ops = true ->
  ((S (length ops) <= blocks_capacity (snd (initialize L pool mmc)))%nat ->
   is_Some (run L ops (snd (initialize L pool mmc)))) /\
  forall mm,
    run L ops (snd (initialize L pool mmc)) = Some mm ->
    ((length (memory_blocks mm) < blocks_capacity mm)%nat -> is_Some (allocate sz mm)) /\
    forall p mm',
      allocate sz mm = Some (p, mm') -> p <> 0 -> validate_pointer p mm' = true.
Proof.
  intros HL Hp Hnil Hpsz Hops. split.
  { intros Hroom.
    apply (run_defined L ops _ HL Hops (initialize_inv L pool mmc Hp Hnil Hpsz)).
    rewrite initialize_true in * by done. rewrite Hnil in *. simpl in *. lia. }
  intros mm Hrun. split; [apply allocate_defined |]. intros p mm' Halloc Hnz.
  pose proof (run_starts L ops _ _ HL Hops Hrun (initialize_starts L pool mmc Hp Hnil Hpsz))
    as [Hinv Hs].
  destruct (allocate_records_block _ _ _ _ Halloc Hnz)
    as (_ & _ & Hpl & Hps & pre & b & post & Hbs & _ & _ & Ha & _).
  rewrite Hbs in Hs.
  apply Forall_app in Hs as [_ Hs]. apply Forall_cons in Hs as [[Hlo Hhi] _].
  unfold validate_pointer. rewrite Hpl, Hps, <- Ha.
  destruct (Z.eqb_spec (address b) 0) as [Hz|_]; [congruence |].
  apply andb_true_intro. split; [by apply Z.leb_le | by apply Z.ltb_lt].
Qed.

Lemma allocated_pointer_valid_witness :
  run sample_lib [OpAllocate 100; OpAllocateVirtualPage] demo_init = Some demo_mm1 /\
  exists p mm',
    allocate 64 demo_mm1 = Some (p, mm') /\ validate_pointer p mm' = true.
Proof.
  split; [reflexivity |].
  destruct (allocated_pointer_valid sample_lib demo_pool warm_manager
              [OpAllocate 100; OpAllocateVirtualPage] 64 sample_lib_ok)
    as [_ Hsound].
  - discriminate.
  - reflexivity.
  - by vm_compute.
  - reflexivity.
  - eexists _, _. split; [reflexivity |].
    apply (proj2 (Hsound demo_mm1 eq_refl)); [reflexivity | vm_compute; discriminate].
Defined.

(** *** Page slots are independent *)

(** X11.  [map_page] and [unmap_page] on an address of one page slot leave
    the translation of every address of another slot as it was. *)
Theorem page_slots_independent (v w paddr : Z) (mm : MemoryManager) :
  page_index v <> page_index w ->
  virtual_to_physical w (snd (map_page v paddr mm)) = virtual_to_physical w mm /\
  virtual_to_physical w (unmap_page v mm) = virtual_to_physical w mm.
Proof.
  intros Hne. unfold map_page, unmap_page, virtual_to_physical.
  destruct (page_table mm !! page_index v) as [e|]; simpl; [| done].
  by rewrite !list_lookup_insert_ne.
Qed.

Lemma page_slots_independent_witness :
  virtual_to_physical (VIRTUAL_BASE + PAGE_SIZE)
    (snd (map_page VIRTUAL_BASE demo_pool demo_mm1))
  = virtual_to_physical (VIRTUAL_BASE + PAGE_SIZE) demo_mm1 /\
  virtual_to_physical (VIRTUAL_BASE + PAGE_SIZE) (unmap_page VIRTUAL_BASE demo_mm1)
  = virtual_to_physical (VIRTUAL_BASE + PAGE_SIZE) demo_mm1.
Proof. apply page_slots_independent. vm_compute. discriminate. Defined.

Lemma page_index_in_range v :
  0 <= v < 2 ^ 64 ->
  (page_index v < 1024)%nat <-> VIRTUAL_BASE <= v < VIRTUAL_BASE + 1024 * PAGE_SIZE.
Proof.
  intros Hv. unfold page_index, VIRTUAL_BASE, PAGE_SIZE, wrap64.
  pose proof (Z.mod_pos_bound (v - 16777216) (2 ^ 64) ltac:(lia)) as Hm.
  assert (H0 : 0 <= (v - 16777216) mod 2 ^ 64 / 4096) by (apply Z.div_pos; lia).
  rewrite <- (Nat2Z.id 1024), <- Z2Nat.inj_lt by lia.
  change (Z.of_nat 1024) with 1024.
  destruct (Z.lt_ge_cases v 16777216) as [Hlt|Hge].
  - replace ((v - 16777216) mod 2 ^ 64) with (v - 16777216 + 2 ^ 64)
      by (apply Z.mod_unique with (-1); lia).
    split; [| lia]. intros Hi.
    pose proof (Z.div_le_mono (1024 * 4096) (v - 16777216 + 2 ^ 64) 4096
                  ltac:(lia) ltac:(lia)) as Hd.
    rewrite Z.div_mul in Hd by lia. lia.
  - rewrite Z.mod_small by lia. split.
    + intros Hi. split; [done |].
      pose proof (Z.mul_succ_div_gt (v - 16777216) 4096 ltac:(lia)). lia.
    + intros [_ Hhi]. apply Z.div_lt_upper_bound; lia.
Qed.

(** X12.  With the page table of 1024 entries, [map_page] on a 64-bit
    address succeeds exactly on the addresses from [VIRTUAL_BASE] up to
    [VIRTUAL_BASE + 1024 * PAGE_SIZE]: an address below [VIRTUAL_BASE]
    wraps around to an index beyond the table.  Where it fails it leaves
    the manager as it was, [unmap_page] does nothing and the address
    translates to [0]. *)
Theorem mappable_addresses (v paddr : Z) (mm : MemoryManager) :
  length (page_table mm) = 1024%nat -> 0 <= v < 2 ^ 64 ->
  fst (map_page v paddr mm)
  = (VIRTUAL_BASE <=? v) && (v <? VIRTUAL_BASE + 1024 * PAGE_SIZE) /\
  (fst (map_page v paddr mm) = false ->
   snd (map_page v paddr mm) = mm /\ unmap_page v mm = mm /\
   virtual_to_physical v mm = 0).
Proof.
  intros Hlen Hv. pose proof (page_index_in_range v Hv) as Hin.
  unfold map_page, unmap_page, virtual_to_physical.
  destruct (page_table mm !! page_index v) as [e|] eqn:He; simpl.
  - split; [| done]. apply lookup_lt_Some in He. rewrite Hlen in He.
    apply Hin in He. symmetry. apply andb_true_intro.
    split; [apply Z.leb_le | apply Z.ltb_lt]; lia.
  - split; [| done]. apply lookup_ge_None in He. rewrite Hlen in He.
    symmetry. apply andb_false_iff.
    destruct (Z.leb_spec VIRTUAL_BASE v) as [Hlo|]; [right | by left].
    apply Z.ltb_ge. destruct (Z.lt_ge_cases v (VIRTUAL_BASE + 1024 * PAGE_SIZE)); [| done].
    assert (page_index v < 1024)%nat by (apply Hin; lia). lia.
Qed.

Lemma mappable_addresses_witness :
  fst (map_page (VIRTUAL_BASE - 1) demo_pool demo_init)
  = (VIRTUAL_BASE <=? VIRTUAL_BASE - 1)
    && (VIRTUAL_BASE - 1 <? VIRTUAL_BASE + 1024 * PAGE_SIZE) /\
  (fst (map_page (VIRTUAL_BASE - 1) demo_pool demo_init) = false ->
   snd (map_page (VIRTUAL_BASE - 1) demo_pool demo_init) = demo_init /\
   unmap_page (VIRTUAL_BASE - 1) demo_init = demo_init /\
   virtual_to_physical (VIRTUAL_BASE - 1) demo_init = 0).
Proof. apply mappable_addresses; [reflexivity | done]. Defined.

(** *** Virtual pages are handed out once *)

Lemma allocate_virtual_page_result n mm p mm' :
  vm_inv n mm -> 0 <= n < 2 ^ 51 - 1 ->
  allocate_virtual_page mm = Some (p, mm') -> p <> 0 ->
  p = VIRTUAL_BASE + PAGE_SIZE * n /\ vm_inv (n + 1) mm'.
Proof.
  intros Hinv Hn Halloc Hp.
  destruct (allocate_virtual_page_step n mm p mm' Hinv Hn Halloc) as (n' & Hi' & Hn' & _).
  destruct Hinv as (_ & _ & _ & _ & Hnext).
  destruct (allocate_virtual_page_cases _ _ _ Halloc)
    as (page & mm1 & Ha & [(_ & ? & _)|(_ & Hv & Hmm)]); [done |].
  rewrite Hnext in Hv. split; [done |].
  assert (Hnn : n' = n + 1).
  { destruct Hi' as (_ & _ & _ & _ & Hnext').
    rewrite Hmm in Hnext'. unfold map_page in Hnext'. simpl in Hnext'.
    destruct (page_table mm1 !! _) in Hnext'; simpl in Hnext';
      rewrite Hnext, wrap64_small in Hnext'
        by (unfold VIRTUAL_BASE, PAGE_SIZE; lia);
      unfold PAGE_SIZE in Hnext'; lia. }
  by rewrite <- Hnn.
Qed.

(** X13.  In a session started by [initialize] on a pool below [2 ^ 52],
    in a manager with an empty block table that had handed out [k] virtual
    pages before (none, for the manager as constructed), with no second
    [initialize] and fewer than [2 ^ 50 - k] operations, the virtual pages
    that [allocate_virtual_page] returns are page aligned, lie at or above
    [VIRTUAL_BASE] and increase strictly from call to call: a page is never
    handed out twice, whatever was freed in between. *)
Theorem virtual_pages_never_reused
    (L : StdLib) (pool k : Z) (mmc : MemoryManager) (ops0 ops : list Op)
    (mm0 mm1 mm2 mm3 : MemoryManager) (p q : Z) :
  lib_ok L ->
  0 < pool -> pool + MEMORY_POOL_SIZE + PAGE_SIZE <= 2 ^ 52 ->
  memory_blocks mmc = [] -> pool_size mmc = MEMORY_POOL_SIZE ->
  0 <= k -> next_virtual_address mmc = VIRTUAL_BASE + PAGE_SIZE * k ->
  forallb (fun op => negb (is_initialize op)) (ops0 ++ ops) = true ->
  k + Z.of_nat (length (ops0 ++ ops)) < 2 ^ 50 ->
  run L ops0 (snd (initialize L pool mmc)) = Some mm0 ->
  allocate_virtual_page mm0 = Some (p, mm1) -> p <> 0 ->
  run L ops mm1 = Some mm2 ->
  allocate_virtual_page mm2 = Some (q, mm3) -> q <> 0 ->
  VIRTUAL_BASE <= p < q /\ p mod PAGE_SIZE = 0 /\ q mod PAGE_SIZE = 0.
Proof.
  intros HL Hpool Hbound Hnil Hpsz Hk Hnext Hnoinit Hlen Hrun0 Hal1 Hp Hrun Hal2 Hq.
  rewrite forallb_app in Hnoinit. apply andb_prop in Hnoinit as [Hno0 Hno].
  rewrite length_app, Nat2Z.inj_add in Hlen.
  destruct (run_vm L ops0 _ _ k HL (initialize_vm_inv L pool k mmc Hpool Hbound Hnil Hpsz Hnext)
              Hk ltac:(lia) Hno0 Hrun0) as (n0 & Hi0 & Hn0 & _).
  destruct (allocate_virtual_page_result n0 mm0 p mm1 Hi0 ltac:(lia) Hal1 Hp) as [-> Hi1].
  destruct (run_vm L ops mm1 mm2 (n0 + 1) HL Hi1 ltac:(lia) ltac:(lia) Hno Hrun)
    as (n2 & Hi2 & Hn2 & _).
  destruct (allocate_virtual_page_result n2 mm2 q mm3 Hi2 ltac:(lia) Hal2 Hq) as [-> _].
  unfold VIRTUAL_BASE, PAGE_SIZE. split; [lia |].
  split.
  - replace (16777216 + 4096 * n0) with ((4096 + n0) * 4096) by lia. apply Z.mod_mul. lia.
  - replace (16777216 + 4096 * n2) with ((4096 + n2) * 4096) by lia. apply Z.mod_mul. lia.
Qed.

Lemma virtual_pages_never_reused_witness :
  exists mm2 q mm3,
    run sample_lib [OpAllocateVirtualPage] demo_mm1 = Some mm2 /\
    allocate_virtual_page mm2 = Some (q, mm3) /\
    VIRTUAL_BASE <= demo_page < q /\ demo_page mod PAGE_SIZE = 0 /\ q mod PAGE_SIZE = 0.
Proof.
  eexists _, _, _. split; [reflexivity |]. split; [reflexivity |].
  eapply (virtual_pages_never_reused sample_lib demo_pool 0 warm_manager
            [OpAllocate 100] [OpAllocateVirtualPage] demo_mm0 demo_mm1).
  - apply sample_lib_ok.
  - reflexivity.
  - vm_compute. discriminate.
  - reflexivity.
  - reflexivity.
  - reflexivity.
  - reflexivity.
  - reflexivity.
  - reflexivity.
  - reflexivity.
  - reflexivity.
  - vm_compute. discriminate.
  - reflexivity.
  - reflexivity.
  - vm_compute. discriminate.
Defined.

(** *** After shutdown *)

(** X14.  After [shutdown] the manager serves nothing: [allocate] returns
    the null pointer, [deallocate] reports a null or an invalid pointer,
    both without a change of state; no address translates and no page can
    be mapped; the free memory is [0] while the used memory is reported as
    the whole pool; and [deallocate_process_memory] runs the coalescing loop
    on an empty table, which is undefined. *)
Theorem shutdown_serves_nothing (L : StdLib) (mm : MemoryManager) (sz p v pid : Z) :
  allocate sz (shutdown mm) = Some (0, shutdown mm) /\
  deallocate L p (shutdown mm)
  = Some (if p =? 0 then FreeNull else FreeInvalid, shutdown mm) /\
  virtual_to_physical v (shutdown mm) = 0 /\
  fst (map_page v p (shutdown mm)) = false /\
  get_free_memory (shutdown mm) = 0 /\
  get_used_memory (shutdown mm) = wrap64 (pool_size mm) /\
  deallocate_process_memory L pid (shutdown mm) = None.
Proof.
  split; [unfold allocate; by destruct (sz =? 0) |].
  split; [unfold deallocate; by destruct (p =? 0) |].
  repeat split. unfold get_used_memory. simpl. by rewrite Z.sub_0_r.
Qed.

(** X15.  [initialize] after [shutdown] sets up a fresh arena, where a
    second [initialize] without [shutdown] does not: one free block that
    spans the pool, in the vector that [shutdown] cleared, no allocation
    record, 1024 page entries that are not present; the arena is tiled, all
    of it is free and nothing is used. *)
Theorem shutdown_then_initialize (L : StdLib) (pool : Z) (mm : MemoryManager) :
  pool <> 0 -> 0 < pool_size mm < 2 ^ 64 ->
  initialize L pool (shutdown mm)
  = (true, mkMM [mkBlock pool (pool_size mm) true (-1)]
               (push_capacity L 0 (blocks_capacity mm)) ∅ pool (pool_size mm)
               (replicate 1024 (mkPTE 0 false true true)) (next_virtual_address mm)) /\
  arena_inv (snd (initialize L pool (shutdown mm))) /\
  get_free_memory (snd (initialize L pool (shutdown mm))) = pool_size mm /\
  get_used_memory (snd (initialize L pool (shutdown mm))) = 0.
Proof.
  intros Hp Hpsz.
  set (mm1 := mkMM [mkBlock pool (pool_size mm) true (-1)]
                   (push_capacity L 0 (blocks_capacity mm)) ∅ pool (pool_size mm)
                   (replicate 1024 (mkPTE 0 false true true)) (next_virtual_address mm)).
  assert (Hinit : initialize L pool (shutdown mm) = (true, mm1)).
  { unfold initialize. by destruct (Z.eqb_spec pool 0). }
  rewrite Hinit. change (snd (true, mm1)) with mm1. split; [done |].
  assert (Hfree : get_free_memory mm1 = pool_size mm).
  { unfold get_free_memory. simpl. apply wrap64_small. lia. }
  split; [| split; [done |]].
  - split; [simpl; lia |]. unfold arena_tiled, tiles; simpl. split.
    + constructor; [| constructor]. unfold within; simpl. lia.
    + intros x Hx. unfold covers; simpl.
      destruct (Z.leb_spec pool x); destruct (Z.ltb_spec x (pool + pool_size mm));
        simpl; lia.
  - unfold get_used_memory. rewrite Hfree. unfold get_total_memory. simpl.
    by rewrite Z.sub_diag.
Qed.

Lemma shutdown_then_initialize_witness :
  initialize sample_lib demo_pool (shutdown demo_mm1)
  = (true, mkMM [mkBlock demo_pool (pool_size demo_mm1) true (-1)]
               (push_capacity sample_lib 0 (blocks_capacity demo_mm1)) ∅ demo_pool
               (pool_size demo_mm1) (replicate 1024 (mkPTE 0 false true true))
               (next_virtual_address demo_mm1)) /\
  arena_inv (snd (initialize sample_lib demo_pool (shutdown demo_mm1))) /\
  get_free_memory (snd (initialize sample_lib demo_pool (shutdown demo_mm1)))
  = pool_size demo_mm1 /\
  get_used_memory (snd (initialize sample_lib demo_pool (shutdown demo_mm1))) = 0.
Proof. apply shutdown_then_initialize; [discriminate | done]. Defined.

(** *** Best fit *)

Lemma best_fit_scan_spec sz bs : forall best best_size i,
  (best_fit_scan sz best best_size i bs = best /\
   Forall (fun c => fits sz c = true -> best_size <= size c) bs) \/
  (exists j b,
     best_fit_scan sz best best_size i bs = Some (i + j)%nat /\
     bs !! j = Some b /\ fits sz b = true /\ size b < best_size /\
     forall k c, bs !! k = Some c -> fits sz c = true ->
                 size b <= size c /\ ((k < j)%nat -> size b < size c)).
Proof.
  induction bs as [|a rest IH]; intros best best_size i; simpl.
  - left. by split.
  - destruct (is_free a && (sz <=? size a) && (size a <? best_size)) eqn:Hc.
    + apply andb_prop in Hc as [Hfit Hlt%Z.ltb_lt]. right.
      destruct (IH (Some i) (size a) (S i))
        as [[-> Hall]|(j & b & -> & Hj & Hb & Hlt' & Hmin)].
      * exists 0%nat, a. split; [f_equal; lia |]. split; [done |]. split; [done |].
        split; [done |]. intros [|k] c Hk Hfc; simpl in Hk.
        -- injection Hk as <-. split; [lia | lia].
        -- split; [| lia].
           by apply (proj1 (Forall_forall _ _) Hall c); [eapply list_elem_of_lookup_2 |].
      * exists (S j), b. split; [f_equal; lia |]. split; [done |]. split; [done |].
        split; [lia |]. intros [|k] c Hk Hfc; simpl in Hk.
        -- injection Hk as <-. split; [lia | intros _; lia].
        -- destruct (Hmin k c Hk Hfc) as [Hle Hst]. split; [done |].
           intros Hkj. apply Hst. lia.
    + assert (Ha : fits sz a = true -> best_size <= size a).
      { unfold fits. intros Hf. rewrite Hf in Hc. simpl in Hc. by apply Z.ltb_ge. }
      destruct (IH best best_size (S i))
        as [[-> Hall]|(j & b & -> & Hj & Hb & Hlt' & Hmin)].
      * left. split; [done |]. by constructor.
      * right. exists (S j), b. split; [f_equal; lia |]. split; [done |].
        split; [done |]. split; [done |]. intros [|k] c Hk Hfc; simpl in Hk.
        -- injection Hk as <-. specialize (Ha Hfc). split; [lia | intros _; lia].
        -- destruct (Hmin k c Hk Hfc) as [Hle Hst]. split; [done |].
           intros Hkj. apply Hst. lia.
Qed.

Lemma cover_count_insert x i b b' bs :
  bs !! i = Some b ->
  (cover_count x (<[i := b']> bs) + (if covers x b then 1 else 0)
   = cover_count x bs + (if covers x b' then 1 else 0))%nat.
Proof.
  revert i. induction bs as [|a rest IH]; intros [|i] Hi; simpl in *; try done.
  - injection Hi as ->. lia.
  - specialize (IH i Hi). lia.
Qed.

(** X16.  [best_fit_allocate] on a tiled arena (pool base not null, pool
    smaller than [SIZE_MAX]) is defined unless it has to split a block while
    the vector is full, and a defined call keeps the tiling.  When it
    returns the null pointer no free block holds the request and the table
    is as it was.  Otherwise the pointer is the address of a free block that
    holds the request and is the smallest such block, the earliest in table
    order among those of that size; the block is shrunk to the request and
    marked used in place. *)
Theorem best_fit_allocate_smallest
    (pool psz sz : Z) (cap : nat) (bs : list MemoryBlock) :
  0 <= sz -> 0 < pool -> psz < SIZE_MAX ->
  tiles pool psz bs ->
  ((length bs < cap)%nat -> is_Some (best_fit_allocate sz cap bs)) /\
  forall p bs',
    best_fit_allocate sz cap bs = Some (p, bs') ->
    tiles pool psz bs' /\
    (p = 0 -> bs' = bs /\ Forall (fun c => fits sz c = false) bs) /\
    (p <> 0 ->
     exists i b,
       bs !! i = Some b /\ address b = p /\ fits sz b = true /\
       bs' !! i = Some (mkBlock p sz false (process_id b)) /\
       forall k c, bs !! k = Some c -> fits sz c = true ->
                   size b <= size c /\ ((k < i)%nat -> size b < size c)).
Proof.
  intros Hsz Hpool Hpsz [Hw Hc]. unfold best_fit_allocate.
  destruct (best_fit_scan_spec sz bs None SIZE_MAX 0)
    as [[-> Hall]|(i & b & -> & Hi & Hb & Hlt & Hmin)].
  - split; [done |]. intros p bs' [= <- <-]. split; [by split |]. split; [| done].
    intros _. split; [done |].
    apply Forall_forall. intros c Hin.
    destruct (fits sz c) eqn:Hf; [| done].
    pose proof (proj1 (Forall_forall _ _) Hall c Hin Hf) as Hbig.
    pose proof (proj1 (Forall_forall _ _) Hw c Hin) as (Hlo & Hs0 & Hhi). lia.
  - simpl. rewrite Hi.
    pose proof (proj1 (Forall_forall _ _) Hw b (list_elem_of_lookup_2 _ _ _ Hi))
      as (Hlo & Hs0 & Hhi).
    assert (Hle : sz <= size b).
    { unfold fits in Hb. apply andb_prop in Hb as [_ Hle%Z.leb_le]. done. }
    split.
    { intros Hroom. destruct (sz <? size b); [| done].
      by destruct (Nat.ltb_spec (length bs) cap); [| lia]. }
    intros p bs' Heq.
    assert (Hres : p = address b /\
                   bs' = <[i := take_block sz b]> bs
                           ++ (if sz <? size b then [remainder sz b] else [])).
    { destruct (sz <? size b); [destruct (_ <? _)%nat; [| done] |];
        injection Heq as <- <-; by rewrite ?app_nil_r. }
    destruct Hres as [-> ->]. clear Heq.
    split; [| split; [lia |]].
    + split.
      * apply Forall_app. split.
        -- apply Forall_insert; [done |]. unfold within; simpl. lia.
        -- destruct (Z.ltb_spec sz (size b)); [| constructor].
           constructor; [unfold within; simpl; lia | constructor].
      * intros x Hx. rewrite cover_count_app.
        pose proof (cover_count_insert x i b (take_block sz b) bs Hi) as Hins.
        specialize (Hc x Hx). revert Hins.
        destruct (Z.ltb_spec sz (size b)); simpl; unfold covers; simpl;
          case_bounds; simpl; lia.
    + intros _. exists i, b. split; [done |]. split; [done |]. split; [done |].
      split; [| done].
      rewrite lookup_app_l by (rewrite length_insert; by eapply lookup_lt_Some).
      apply list_lookup_insert_eq. by eapply lookup_lt_Some.
Qed.

Lemma best_fit_allocate_smallest_witness :
  exists p bs',
    best_fit_allocate 64 (blocks_capacity demo_mm0) (memory_blocks demo_mm0)
    = Some (p, bs') /\
    p = demo_pool + 104 /\
    tiles demo_pool MEMORY_POOL_SIZE bs' /\
    exists i b,
      memory_blocks demo_mm0 !! i = Some b /\ address b = p /\
      fits 64 b = true /\
      bs' !! i = Some (mkBlock p 64 false (process_id b)) /\
      forall k c, memory_blocks demo_mm0 !! k = Some c -> fits 64 c = true ->
                  size b <= size c /\ ((k < i)%nat -> size b < size c).
Proof.
  destruct (best_fit_allocate_smallest demo_pool MEMORY_POOL_SIZE 64
              (blocks_capacity demo_mm0) (memory_blocks demo_mm0))
    as [_ Hsound].
  - lia.
  - reflexivity.
  - reflexivity.
  - exact (proj2 demo_mm0_inv).
  - eexists _, _. split; [reflexivity |]. split; [reflexivity |].
    destruct (Hsound _ _ eq_refl) as (Ht & _ & Hp). split; [exact Ht |].
    apply Hp. vm_compute. discriminate.
Defined.

End MemoryRestFacts.
(** ** Further operations of the scheduler *)

Module ProcessRestFacts.
Import Process ProcessRest ProcessFacts.

(** *** The map and the table *)

Lemma tracks_set_table t pm :
  pid <$> t = table_pids pm -> tracks pm -> tracks (set_table t pm).
Proof. intros Ht Htr p q. unfold table_pids. simpl. rewrite Ht. apply Htr. Qed.

Lemma filter_pids_elem p q table :
  q ∈ pid <$> List.filter (fun r => negb (pid r =? p)) table <-> q ∈ pid <$> table /\ q <> p.
Proof.
  induction table as [|r t IH]; csimpl.
  - rewrite elem_of_nil. tauto.
  - destruct (Z.eqb_spec (pid r) p) as [Heq|Hne]; csimpl;
      rewrite ?elem_of_cons, IH; [| split; [intros [->|[? ?]]; tauto | tauto]].
    split; [tauto |]. intros [[->|?] ?]; [done | tauto].
Qed.

Lemma terminate_tracks p pm : tracks pm -> tracks (snd (terminate_process p pm)).
Proof.
  intros Htr. unfold terminate_process.
  destruct (pid_map pm !! p) eqn:Hp; [| done].
  intros p' q. unfold table_pids. simpl.
  rewrite lookup_delete_Some, filter_pids_elem, (Htr p' q). unfold table_pids.
  split; [intros (? & ? & ?) | intros (? & ? & ?)]; by repeat split.
Qed.

Lemma suspend_tracks p pm : tracks pm -> tracks (snd (suspend_process p pm)).
Proof.
  intros Htr. unfold suspend_process. destruct (pid_map pm !! p); [| done].
  apply tracks_set_table; [| done]. by apply with_pcb_pids.
Qed.

Lemma resume_tracks p pm : tracks pm -> tracks (snd (resume_process p pm)).
Proof.
  intros Htr. unfold resume_process. destruct (pid_map pm !! p); [| done].
  destruct (deref _ _); [| done]. destruct (state_eqb _ _); [| done].
  apply tracks_set_table; [| done]. by apply with_pcb_pids.
Qed.

Lemma schedule_tracks pm pm' : schedule pm = Some pm' -> tracks pm -> tracks pm'.
Proof.
  unfold schedule. destruct (negb _); [by intros; simplify_eq |].
  destruct (select_next_process pm) as [nxt|]; [| by intros; simplify_eq].
  destruct (bool_decide _); [by intros; simplify_eq |].
  unfold context_switch. intros Hcs Htr.
  assert (exists t, pid <$> t = table_pids pm /\
            pm' = mkPM (with_pcb nxt (set_state PROCESS_RUNNING) t) (pid_map pm)
                       (next_pid pm) (Some nxt) (scheduler_running pm)) as (t & Ht & ->).
  { destruct (current_process pm) as [old|]; simpl in Hcs.
    - destruct (deref old _); simplify_eq/=.
      eexists. split; [| done]. by rewrite with_pcb_pids.
    - simplify_eq. by eexists. }
  intros p q. unfold table_pids. simpl. rewrite with_pcb_pids by done.
  rewrite Ht. apply Htr.
Qed.

Lemma table_pids_below hist pm p :
  pids_inv hist pm -> p ∈ table_pids pm -> 1 <= p < next_pid pm.
Proof.
  intros (_ & _ & Hb & Hsub) Hin.
  eapply (proj1 (Forall_forall _ _) Hb). by eapply elem_of_sublist.
Qed.

Lemma table_pids_NoDup hist pm : pids_inv hist pm -> NoDup (table_pids pm).
Proof.
  intros (_ & Hs & _ & Hsub). eapply sublist_NoDup; [| apply Hsub].
  by apply StronglySorted_lt_NoDup.
Qed.

Lemma create_tracks path mem pm r pm' hist :
  create_process path mem pm = Some (r, pm') -> pids_inv hist pm ->
  tracks pm -> tracks pm'.
Proof.
  unfold create_process, create_pcb.
  destruct (Z.eqb_spec (next_pid pm) INT_MAX) as [|_]; [done |].
  intros Hc Hinv Htr.
  destruct (match current_process pm with
            | Some cur => pid <$> deref cur (process_table pm)
            | None => Some 0
            end) as [parent|]; [| done].
  simpl in Hc. destruct (mem =? 0); simpl in Hc; injection Hc as <- <-; [done |].
  intros p q. unfold table_pids. simpl.
  rewrite lookup_insert_Some, fmap_app, elem_of_app, (Htr p q). simpl.
  rewrite list_elem_of_singleton. unfold table_pids.
  split.
  - intros [[<- <-]|(Hne & -> & Hin)]; split; auto.
  - intros (-> & [Hin| ->]); [right | by left].
    split; [| done]. pose proof (table_pids_below _ _ _ Hinv Hin). lia.
Qed.

Lemma step_tracks op pm r pm' hist :
  step op pm = Some (r, pm') -> pids_inv hist pm -> tracks pm -> tracks pm'.
Proof.
  destruct op; simpl; intros Hstep Hinv Htr.
  - by simplify_eq.
  - destruct (create_process path mem pm) as [[z pm1]|] eqn:Hc; simplify_eq/=.
    by eapply create_tracks.
  - simplify_eq. by apply terminate_tracks.
  - simplify_eq. by apply suspend_tracks.
  - simplify_eq. by apply resume_tracks.
  - destruct (schedule pm) as [pm1|] eqn:Hsch; simplify_eq/=.
    by eapply schedule_tracks.
  - simplify_eq. unfold set_process_priority.
    destruct (pid_map pm !! p); [| done].
    apply tracks_set_table; [| done]. by apply with_pcb_pids.
  - destruct (send_signal p signal pm) as [[b pm1]|] eqn:Hs; simplify_eq/=.
    by apply ProcessFacts.send_signal_same in Hs as ->.
  - simplify_eq. apply tracks_set_table; [| done]. apply with_pcb_pids.
    intros q. by destruct (process_thread q).
  - simplify_eq. apply tracks_set_table; [| done]. apply with_pcb_pids.
    intros q. by destruct (process_thread q).
  - simplify_eq. apply tracks_set_table; [| done]. apply with_pcb_pids.
    intros q. by destruct (process_thread q).
Qed.

Lemma run_tracks ops : forall pm rs pm' hist,
  run ops pm = Some (rs, pm') -> pids_inv hist pm -> tracks pm -> tracks pm'.
Proof.
  induction ops as [|op ops IH]; intros pm rs pm' hist Hrun Hinv Htr; simpl in Hrun.
  - by simplify_eq.
  - destruct (step op pm) as [[r pm1]|] eqn:Hstep; [| done]. simpl in Hrun.
    destruct (run ops pm1) as [[rs1 pm2]|] eqn:Hrun1; [| done].
    injection Hrun as <- <-.
    eapply IH; [done | by eapply step_pids | by eapply step_tracks].
Qed.

Lemma new_manager_pids : pids_inv [] new_manager.
Proof. split; [done |]. split; [constructor |]. split; [constructor | done]. Qed.

Lemma new_manager_tracks : tracks new_manager.
Proof.
  intros p q. unfold table_pids. simpl. rewrite lookup_empty, elem_of_nil.
  split; [done | tauto].
Qed.

Lemma run_booted ops rs pm : run ops new_manager = Some (rs, pm) -> booted pm.
Proof.
  intros Hrun. exists ([] ++ created_pids rs). split.
  - eapply run_pids; [done | apply new_manager_pids].
  - eapply run_tracks; [done | apply new_manager_pids | apply new_manager_tracks].
Qed.

Lemma booted_step op pm r pm' : step op pm = Some (r, pm') -> booted pm -> booted pm'.
Proof.
  intros Hstep (hist & Hinv & Htr). exists (hist ++ created_pids [r]).
  split; [by eapply step_pids | by eapply step_tracks].
Qed.

(** X17.  In every state the manager reaches from its constructor, the
    pids of the records in the table are pairwise distinct and below
    [next_pid]; [get_process] finds exactly the pids of the table, and the
    pointer it returns is that of a record in the table. *)
Theorem get_process_never_dangles (ops : list Op) (rs : list Ret) (pm : ProcessManager) (p : Z) :
  run ops new_manager = Some (rs, pm) ->
  NoDup (get_all_processes pm) /\
  get_process p pm = (if bool_decide (p ∈ get_all_processes pm) then Some p else None) /\
  (forall ptr, get_process p pm = Some ptr -> is_Some (deref ptr (process_table pm))) /\
  (p ∈ get_all_processes pm -> 1 <= p < next_pid pm).
Proof.
  intros Hrun. destruct (run_booted _ _ _ Hrun) as (hist & Hinv & Htr).
  split; [by eapply table_pids_NoDup |].
  assert (Hget : get_process p pm
                 = if bool_decide (p ∈ get_all_processes pm) then Some p else None).
  { unfold get_process. case_bool_decide as Hin.
    - by apply Htr.
    - destruct (pid_map pm !! p) as [q|] eqn:Hq; [| done].
      apply Htr in Hq as [_ Hq]. done. }
  split; [done |]. split; [| by apply table_pids_below with hist].
  intros ptr. rewrite Hget. case_bool_decide as Hin; [| done]. intros [= <-].
  unfold get_all_processes in Hin. apply list_elem_of_fmap in Hin as (r & Hr & Hin).
  unfold deref. destruct (List.find _ _) eqn:Hf; [done |].
  apply list_elem_of_In in Hin.
  pose proof (List.find_none _ _ Hf r Hin) as Hn. simpl in Hn. lia.
Qed.

Lemma get_process_never_dangles_witness :
  NoDup (get_all_processes two_ready) /\
  get_process 2 two_ready
  = (if bool_decide (2 ∈ get_all_processes two_ready) then Some 2 else None) /\
  (forall ptr, get_process 2 two_ready = Some ptr ->
               is_Some (deref ptr (process_table two_ready))) /\
  (2 ∈ get_all_processes two_ready -> 1 <= 2 < next_pid two_ready).
Proof.
  apply (get_process_never_dangles
           (boot_two ++ [OpSetPriority 1 5; OpSetPriority 2 10])
           [RetBool true; RetInt 1; RetInt 2; RetVoid; RetVoid]).
  reflexivity.
Defined.

(** *** Reading through record pointers *)

Lemma deref_pid p table r : deref p table = Some r -> pid r = p /\ r ∈ table.
Proof.
  unfold deref. intros Hf. apply List.find_some in Hf as [Hin Hp].
  split; [lia | by apply list_elem_of_In].
Qed.

Lemma deref_elem p table : p ∈ pid <$> table -> is_Some (deref p table).
Proof.
  intros Hin. apply list_elem_of_fmap in Hin as (r & -> & Hin).
  unfold deref. destruct (List.find _ _) eqn:Hf; [done |].
  apply list_elem_of_In in Hin.
  pose proof (List.find_none _ _ Hf r Hin) as Hn. simpl in Hn. lia.
Qed.

Lemma deref_with_pcb_same p f table :
  (forall c, pid (f c) = pid c) -> deref p (with_pcb p f table) = f <$> deref p table.
Proof.
  intros Hf. unfold deref, with_pcb. induction table as [|c t IH]; csimpl; [done |].
  destruct (Z.eqb_spec (pid c) p) as [Heq|Hne]; simpl.
  - rewrite Hf. by destruct (Z.eqb_spec (pid c) p).
  - by destruct (Z.eqb_spec (pid c) p).
Qed.

Lemma deref_with_pcb_other p q f table :
  (forall c, pid (f c) = pid c) -> q <> p -> deref q (with_pcb p f table) = deref q table.
Proof.
  intros Hf Hne. unfold deref, with_pcb. induction table as [|c t IH]; csimpl; [done |].
  destruct (Z.eqb_spec (pid c) p) as [Heq|Hnp]; simpl.
  - rewrite Hf. destruct (Z.eqb_spec (pid c) q); [lia | done].
  - by rewrite IH.
Qed.

Lemma deref_filter_other p q table :
  q <> p -> deref q (List.filter (fun r => negb (pid r =? p)) table) = deref q table.
Proof.
  intros Hne. unfold deref. induction table as [|c t IH]; simpl; [done |].
  destruct (Z.eqb_spec (pid c) p) as [Heq|Hnp]; simpl.
  - destruct (Z.eqb_spec (pid c) q); [lia | done].
  - by rewrite IH.
Qed.

Lemma deref_filter_same p table :
  deref p (List.filter (fun r => negb (pid r =? p)) table) = None.
Proof.
  destruct (deref p _) as [r|] eqn:Hd; [| done].
  apply deref_pid in Hd as [Hp Hin]. apply (list_elem_of_fmap_2 pid) in Hin.
  apply filter_pids_elem in Hin as [_ Hne]. done.
Qed.

Lemma with_pcb_absent p f table : p ∉ (pid <$> table) -> with_pcb p f table = table.
Proof.
  unfold with_pcb. induction table as [|c t IH]; csimpl; [done |].
  rewrite not_elem_of_cons. intros [Hne Hnin].
  rewrite IH by done. destruct (Z.eqb_spec (pid c) p); [done | done].
Qed.

Lemma table_split p table r :
  NoDup (pid <$> table) -> deref p table = Some r ->
  exists pre post, table = pre ++ r :: post /\ (p ∉ pid <$> pre) /\ (p ∉ pid <$> post).
Proof.
  unfold deref. induction table as [|c t IH]; csimpl; [done |].
  rewrite NoDup_cons. intros [Hc Hnd].
  destruct (Z.eqb_spec (pid c) p) as [Heq|Hne].
  - intros [= ->]. exists [], t. rewrite <- Heq. split; [done |]. split; [| done].
    csimpl. apply not_elem_of_nil.
  - intros Hf. destruct (IH Hnd Hf) as (pre & post & -> & Hpre & Hpost).
    exists (c :: pre), post. split; [done |]. split; [| done].
    csimpl. rewrite not_elem_of_cons. split; [lia | done].
Qed.

Lemma with_pcb_split p f pre r post :
  pid r = p -> p ∉ (pid <$> pre) -> p ∉ (pid <$> post) ->
  with_pcb p f (pre ++ r :: post) = pre ++ f r :: post.
Proof.
  intros Hr Hpre Hpost.
  pose proof (with_pcb_absent p f pre Hpre) as Hp1.
  pose proof (with_pcb_absent p f post Hpost) as Hp2.
  unfold with_pcb in *. rewrite fmap_app, fmap_cons, Hp1, Hp2.
  by destruct (Z.eqb_spec (pid r) p).
Qed.

Lemma filter_split p pre r post :
  pid r = p -> p ∉ (pid <$> pre) -> p ∉ (pid <$> post) ->
  List.filter (fun c => negb (pid c =? p)) (pre ++ r :: post) = pre ++ post.
Proof.
  intros Hr Hpre Hpost.
  assert (Hid : forall l, p ∉ (pid <$> l) -> List.filter (fun c => negb (pid c =? p)) l = l).
  { induction l as [|c l IH]; csimpl; [done |].
    rewrite not_elem_of_cons. intros [Hne Hnin].
    destruct (Z.eqb_spec (pid c) p); [lia |]. simpl. by rewrite IH. }
  rewrite List.filter_app. simpl. rewrite !Hid by done.
  by destruct (Z.eqb_spec (pid r) p).
Qed.

(** *** terminate_process *)

(** X18.  In a state the manager reaches from its constructor,
    [terminate_process] on a pid that [get_process] finds returns [true];
    afterwards the pid is neither in the map nor in the table, the table is
    one record shorter, every other pid is found as before with its record
    unchanged, and a second [terminate_process] on the pid returns [false]
    and changes nothing. *)
Theorem terminate_process_removes
    (ops : list Op) (rs : list Ret) (pm : ProcessManager) (p : Z) :
  run ops new_manager = Some (rs, pm) ->
  is_Some (get_process p pm) ->
  fst (terminate_process p pm) = true /\
  get_process p (snd (terminate_process p pm)) = None /\
  deref p (process_table (snd (terminate_process p pm))) = None /\
  get_process_count (snd (terminate_process p pm)) = get_process_count pm - 1 /\
  (forall q, q <> p ->
     get_process q (snd (terminate_process p pm)) = get_process q pm /\
     deref q (process_table (snd (terminate_process p pm))) = deref q (process_table pm)) /\
  terminate_process p (snd (terminate_process p pm))
  = (false, snd (terminate_process p pm)).
Proof.
  intros Hrun [ptr Hget]. destruct (run_booted _ _ _ Hrun) as (hist & Hinv & Htr).
  unfold get_process in *. unfold terminate_process at 1 2 3 4 5 6 8 9. rewrite Hget. simpl.
  split; [done |]. split; [by rewrite lookup_delete_eq |].
  split; [apply deref_filter_same |].
  split.
  - apply Htr in Hget as [-> Hin].
    destruct (deref_elem _ _ Hin) as [r Hr].
    destruct (table_split _ _ _ (table_pids_NoDup _ _ Hinv) Hr)
      as (pre & post & Ht & Hpre & Hpost).
    apply deref_pid in Hr as [Hp _].
    unfold get_process_count. simpl. rewrite Ht, filter_split by done.
    rewrite !length_app. simpl. lia.
  - split.
    + intros q Hne. split; [by rewrite lookup_delete_ne | by apply deref_filter_other].
    + unfold terminate_process. simpl. by rewrite lookup_delete_eq.
Qed.

Lemma terminate_process_removes_witness :
  fst (terminate_process 1 two_ready) = true /\
  get_process 1 (snd (terminate_process 1 two_ready)) = None /\
  deref 1 (process_table (snd (terminate_process 1 two_ready))) = None /\
  get_process_count (snd (terminate_process 1 two_ready)) = get_process_count two_ready - 1 /\
  (forall q, q <> 1 ->
     get_process q (snd (terminate_process 1 two_ready)) = get_process q two_ready /\
     deref q (process_table (snd (terminate_process 1 two_ready)))
     = deref q (process_table two_ready)) /\
  terminate_process 1 (snd (terminate_process 1 two_ready))
  = (false, snd (terminate_process 1 two_ready)).
Proof.
  apply (terminate_process_removes
           (boot_two ++ [OpSetPriority 1 5; OpSetPriority 2 10])
           [RetBool true; RetInt 1; RetInt 2; RetVoid; RetVoid]).
  - reflexivity.
  - by exists 1.
Defined.

(** *** select_next_process *)

Lemma select_scan_spec table : forall best highest,
  (select_scan best highest table = best /\
   Forall (fun c => ready c -> priority c <= highest) table) \/
  (exists pre r post,
     table = pre ++ r :: post /\ select_scan best highest table = Some (pid r) /\
     ready r /\ highest < priority r /\
     Forall (fun c => ready c -> priority c < priority r) pre /\
     Forall (fun c => ready c -> priority c <= priority r) post).
Proof.
  induction table as [|c t IH]; intros best highest; simpl.
  - left. by split.
  - destruct (state_eqb (state c) PROCESS_READY) eqn:Hst; simpl.
    + apply state_eqb_eq in Hst.
      destruct (Z.ltb_spec highest (priority c)) as [Hlt|Hge].
      * right. destruct (IH (Some (pid c)) (priority c))
          as [[Hres Hall]|(pre & r & post & -> & Hres & Hr & Hlt' & Hpre & Hpost)].
        -- exists [], c, t.
           split; [done |]. split; [done |]. split; [done |]. split; [done |].
           split; [constructor | done].
        -- exists (c :: pre), r, post.
           split; [done |]. split; [done |]. split; [done |]. split; [lia |].
           split; [| done]. constructor; [by intros _ | done].
      * destruct (IH best highest)
          as [[Hres Hall]|(pre & r & post & -> & Hres & Hr & Hlt' & Hpre & Hpost)].
        -- left. split; [done |]. constructor; [by intros _ | done].
        -- right. exists (c :: pre), r, post.
           split; [done |]. split; [done |]. split; [done |]. split; [done |].
           split; [| done]. constructor; [intros _; lia | done].
    + assert (Hnr : ~ ready c).
      { unfold ready. intros Hc. rewrite Hc in Hst. done. }
      destruct (IH best highest)
        as [[Hres Hall]|(pre & r & post & -> & Hres & Hr & Hlt' & Hpre & Hpost)].
      * left. split; [done |]. constructor; [done | done].
      * right. exists (c :: pre), r, post.
        split; [done |]. split; [done |]. split; [done |]. split; [done |].
        split; [| done]. constructor; [done | done].
Qed.

Lemma select_next_process_elem pm q :
  select_next_process pm = Some q -> q ∈ table_pids pm.
Proof.
  unfold select_next_process, table_pids.
  destruct (select_scan_spec (process_table pm) None (-1))
    as [[-> _]|(pre & r & post & -> & -> & _)]; [done |].
  intros [= <-]. apply list_elem_of_fmap_2. apply elem_of_app. right. by left.
Qed.

(** X19.  Whatever the table, the record [select_next_process] returns is
    a READY record of priority at least [0], of higher priority than every
    READY record before it in the table and of priority at least that of
    every READY record after it; it returns no record exactly when every
    READY record has negative priority. *)
Theorem select_next_process_maximal (pm : ProcessManager) :
  match select_next_process pm with
  | Some q =>
      exists pre r post,
        process_table pm = pre ++ r :: post /\ pid r = q /\
        ready r /\ 0 <= priority r /\
        Forall (fun c => ready c -> priority c < priority r) pre /\
        Forall (fun c => ready c -> priority c <= priority r) post
  | None => Forall (fun c => ready c -> priority c < 0) (process_table pm)
  end.
Proof.
  unfold select_next_process.
  destruct (select_scan_spec (process_table pm) None (-1))
    as [[-> Hall]|(pre & r & post & Ht & -> & Hr & Hlt & Hpre & Hpost)].
  - eapply Forall_impl; [done |]. simpl. intros c Hc Hrc. specialize (Hc Hrc). lia.
  - exists pre, r, post. repeat split; try done. lia.
Qed.

Lemma set_state_same r : set_state (state r) r = r.
Proof. by destruct r. Qed.

Lemma booted_lookup pm p r :
  booted pm -> deref p (process_table pm) = Some r ->
  pid_map pm !! p = Some p /\
  exists pre post, process_table pm = pre ++ r :: post /\ pid r = p /\
                   (p ∉ pid <$> pre) /\ (p ∉ pid <$> post).
Proof.
  intros (hist & Hinv & Htr) Hd.
  destruct (table_split _ _ _ (table_pids_NoDup _ _ Hinv) Hd) as (pre & post & Ht & Hpre & Hpost).
  apply deref_pid in Hd as [Hp Hin].
  split.
  - apply Htr. split; [done |]. unfold table_pids. rewrite <- Hp.
    by apply list_elem_of_fmap_2.
  - by exists pre, post.
Qed.

(** *** suspend_process, resume_process *)

(** X20.  In a state the manager reaches from its constructor, for a
    record of the table in any state: [suspend_process] succeeds and leaves
    it BLOCKED, [resume_process] after it succeeds and leaves it READY; for
    a record that was READY the two calls bring the manager back to the
    state it was in. *)
Theorem suspend_resume_round_trip
    (ops : list Op) (rs : list Ret) (pm : ProcessManager) (p : Z) (s : ProcessState) :
  run ops new_manager = Some (rs, pm) ->
  state_of p pm = Some s ->
  fst (suspend_process p pm) = true /\
  state_of p (snd (suspend_process p pm)) = Some PROCESS_BLOCKED /\
  fst (resume_process p (snd (suspend_process p pm))) = true /\
  state_of p (snd (resume_process p (snd (suspend_process p pm)))) = Some PROCESS_READY /\
  (s = PROCESS_READY -> snd (resume_process p (snd (suspend_process p pm))) = pm).
Proof.
  intros Hrun Hs. pose proof (run_booted _ _ _ Hrun) as Hb.
  unfold state_of in Hs. destruct (deref p (process_table pm)) as [r|] eqn:Hd; [| done].
  injection Hs as Hs.
  destruct (booted_lookup _ _ _ Hb Hd) as (Hget & pre & post & Ht & Hp & Hpre & Hpost).
  unfold suspend_process. rewrite Hget. simpl.
  split; [done |].
  assert (Hd1 : deref p (with_pcb p (set_state PROCESS_BLOCKED) (process_table pm))
                = Some (set_state PROCESS_BLOCKED r)).
  { rewrite deref_with_pcb_same by done. by rewrite Hd. }
  split; [unfold state_of; simpl; by rewrite Hd1 |].
  unfold resume_process. simpl. rewrite Hget, Hd1. simpl.
  split; [done |]. split.
  - unfold state_of. simpl. rewrite deref_with_pcb_same by done. by rewrite Hd1.
  - intros ->. unfold set_table. simpl.
    rewrite Ht, !with_pcb_split by done.
    replace (set_state PROCESS_READY (set_state PROCESS_BLOCKED r)) with r.
    + rewrite <- Ht. by destruct pm.
    + rewrite <- Hs at 1. by destruct r.
Qed.

Lemma suspend_resume_round_trip_witness :
  fst (suspend_process 2 two_ready) = true /\
  state_of 2 (snd (suspend_process 2 two_ready)) = Some PROCESS_BLOCKED /\
  fst (resume_process 2 (snd (suspend_process 2 two_ready))) = true /\
  state_of 2 (snd (resume_process 2 (snd (suspend_process 2 two_ready))))
  = Some PROCESS_READY /\
  (PROCESS_READY = PROCESS_READY ->
   snd (resume_process 2 (snd (suspend_process 2 two_ready))) = two_ready).
Proof.
  apply (suspend_resume_round_trip
           (boot_two ++ [OpSetPriority 1 5; OpSetPriority 2 10])
           [RetBool true; RetInt 1; RetInt 2; RetVoid; RetVoid]).
  - reflexivity.
  - reflexivity.
Defined.

(** *** The current record after its termination *)

(** X21.  [terminate_process] on the current record destroys the record
    and leaves [current_process] pointing to it.  From then on
    [create_process] reads the parent pid through the stale pointer, and
    [schedule], with the scheduler running and a record to select,
    writes the state of the old record through it: both are undefined. *)
Theorem terminated_current_strands_manager
    (pm : ProcessManager) (p : Z) (path : string) (mem : Z) :
  current_process pm = Some p ->
  is_Some (get_process p pm) ->
  get_current_process (snd (terminate_process p pm)) = Some p /\
  deref p (process_table (snd (terminate_process p pm))) = None /\
  create_process path mem (snd (terminate_process p pm)) = None /\
  (scheduler_running pm = true ->
   is_Some (select_next_process (snd (terminate_process p pm))) ->
   schedule (snd (terminate_process p pm)) = None).
Proof.
  intros Hcur [ptr Hget]. unfold get_process in Hget.
  assert (Hpm' : snd (terminate_process p pm)
                 = mkPM (List.filter (fun r => negb (pid r =? p)) (process_table pm))
                        (delete p (pid_map pm)) (next_pid pm) (current_process pm)
                        (scheduler_running pm)).
  { unfold terminate_process. by rewrite Hget. }
  set (pm' := snd (terminate_process p pm)) in *.
  assert (Hcur' : current_process pm' = Some p) by by rewrite Hpm'.
  assert (Hd' : deref p (process_table pm') = None).
  { rewrite Hpm'. apply deref_filter_same. }
  split; [done |]. split; [done |]. split.
  - unfold create_process, create_pcb.
    destruct (next_pid pm' =? INT_MAX); [done |].
    by rewrite Hcur', Hd'.
  - intros Hrun [q Hsel].
    assert (Hne : q <> p).
    { intros ->. assert (Hin : is_Some (deref p (process_table pm'))).
      { apply deref_elem. by apply select_next_process_elem. }
      rewrite Hd' in Hin. by destruct Hin. }
    unfold schedule. rewrite Hsel.
    replace (scheduler_running pm') with true by by rewrite Hpm'.
    simpl. rewrite Hcur'. rewrite bool_decide_eq_false_2 by congruence.
    unfold context_switch. by rewrite Hd'.
Qed.

Lemma terminated_current_strands_manager_witness :
  get_current_process (snd (terminate_process 1 scheduled_two)) = Some 1 /\
  deref 1 (process_table (snd (terminate_process 1 scheduled_two))) = None /\
  create_process "c" 0x7000 (snd (terminate_process 1 scheduled_two)) = None /\
  (scheduler_running scheduled_two = true ->
   is_Some (select_next_process (snd (terminate_process 1 scheduled_two))) ->
   schedule (snd (terminate_process 1 scheduled_two)) = None).
Proof.
  apply terminated_current_strands_manager.
  - reflexivity.
  - by exists 1.
Defined.

(** *** A creation that fails *)

(** X22.  A [create_process] whose executable cannot be loaded returns
    [-1] and leaves table, map and current record as they were, but its pid
    is used up: the next successful creation returns [next_pid + 1], and
    the pid skipped is in the map no more than before. *)
Theorem failed_create_consumes_pid
    (pm pm1 : ProcessManager) (path path' : string) (mem r : Z) :
  create_process path 0 pm = Some (r, pm1) ->
  mem <> 0 -> next_pid pm + 1 <> INT_MAX ->
  r = -1 /\
  process_table pm1 = process_table pm /\ pid_map pm1 = pid_map pm /\
  current_process pm1 = current_process pm /\
  exists pm2, create_process path' mem pm1 = Some (next_pid pm + 1, pm2) /\
              get_process (next_pid pm) pm2 = get_process (next_pid pm) pm.
Proof.
  unfold create_process, create_pcb.
  destruct (Z.eqb_spec (next_pid pm) INT_MAX) as [|_]; [done |].
  destruct (match current_process pm with
            | Some cur => pid <$> deref cur (process_table pm)
            | None => Some 0
            end) as [parent|] eqn:Hpar; [| done].
  simpl. intros [= <- <-] Hmem Hnext. simpl.
  split; [done |]. split; [done |]. split; [done |]. split; [done |].
  destruct (Z.eqb_spec (next_pid pm + 1) INT_MAX) as [|_]; [done |].
  rewrite Hpar. simpl. destruct (Z.eqb_spec mem 0) as [|_]; [done |]. simpl.
  eexists. split; [done |]. unfold get_process. simpl.
  rewrite lookup_insert_ne by lia. done.
Qed.

Lemma failed_create_consumes_pid_witness :
  -1 = -1 /\
  process_table (mkPM (process_table two_ready) (pid_map two_ready) 4 None true)
  = process_table two_ready /\
  pid_map (mkPM (process_table two_ready) (pid_map two_ready) 4 None true)
  = pid_map two_ready /\
  current_process (mkPM (process_table two_ready) (pid_map two_ready) 4 None true)
  = current_process two_ready /\
  exists pm2,
    create_process "d" 0x8000 (mkPM (process_table two_ready) (pid_map two_ready) 4 None true)
    = Some (next_pid two_ready + 1, pm2) /\
    get_process (next_pid two_ready) pm2 = get_process (next_pid two_ready) two_ready.
Proof.
  apply (failed_create_consumes_pid two_ready _ "c" "d" 0x8000 (-1)).
  - reflexivity.
  - done.
  - done.
Defined.

(** *** set_process_priority, then schedule *)

(** X23.  In a state the manager reaches from its constructor, with the
    scheduler running: after [set_process_priority] gives a READY record
    that is not the current one a priority that is not negative and above
    that of every other READY record, [schedule] makes it the current
    record and RUNNING; records other than it and the old current one keep
    their state. *)
Theorem raised_priority_is_scheduled
    (ops : list Op) (rs : list Ret) (pm : ProcessManager) (p prio : Z) :
  run ops new_manager = Some (rs, pm) ->
  scheduler_running pm = true ->
  state_of p pm = Some PROCESS_READY ->
  0 <= prio ->
  Forall (fun c => pid c <> p -> ready c -> priority c < prio) (process_table pm) ->
  current_process pm <> Some p ->
  (forall old, current_process pm = Some old -> is_Some (deref old (process_table pm))) ->
  exists pm',
    schedule (set_process_priority p prio pm) = Some pm' /\
    get_current_process pm' = Some p /\
    state_of p pm' = Some PROCESS_RUNNING /\
    (forall q, q <> p -> current_process pm <> Some q -> state_of q pm' = state_of q pm).
Proof.
  intros Hrun Hsr Hs Hprio Hothers Hcur Hlive.
  pose proof (run_booted _ _ _ Hrun) as Hb.
  unfold state_of in Hs. destruct (deref p (process_table pm)) as [r|] eqn:Hd; [| done].
  injection Hs as Hs.
  destruct (booted_lookup _ _ _ Hb Hd) as (Hget & pre & post & Ht & Hp & Hpre & Hpost).
  unfold set_process_priority. rewrite Hget.
  assert (Htable : with_pcb p (set_priority prio) (process_table pm)
                   = pre ++ set_priority prio r :: post).
  { rewrite Ht. by apply with_pcb_split. }
  rewrite Ht in Hothers. apply Forall_app in Hothers as [Hopre Hopost].
  apply Forall_cons in Hopost as [_ Hopost].
  assert (Hsel : select_scan None (-1) (pre ++ set_priority prio r :: post) = Some p).
  { replace (Some p) with (Some (pid (set_priority prio r))) by (simpl; by rewrite Hp).
    apply (select_scan_first_max pre (set_priority prio r) post); simpl; [lia | done | |].
    - apply Forall_forall. intros c Hc Hrc.
      apply (proj1 (Forall_forall _ _) Hopre c Hc); [| done].
      intros Heq. apply Hpre. rewrite <- Heq. by apply list_elem_of_fmap_2.
    - apply Forall_forall. intros c Hc Hrc.
      apply Z.lt_le_incl. apply (proj1 (Forall_forall _ _) Hopost c Hc); [| done].
      intros Heq. apply Hpost. rewrite <- Heq. by apply list_elem_of_fmap_2. }
  unfold schedule, select_next_process. simpl. rewrite Hsr, Htable, Hsel. simpl.
  rewrite bool_decide_eq_false_2 by congruence.
  unfold context_switch. simpl. rewrite <- Htable.
  destruct (current_process pm) as [old|] eqn:Hold.
  - destruct (Hlive old eq_refl) as [ro Hro].
    assert (Hne : old <> p) by congruence.
    rewrite deref_with_pcb_other by done. rewrite Hro. simpl.
    eexists. split; [done |]. split; [done |]. unfold state_of. simpl. split.
    + rewrite deref_with_pcb_same, deref_with_pcb_other, deref_with_pcb_same by done.
      by rewrite Hd.
    + intros q Hq Hqo.
      rewrite !deref_with_pcb_other by (done || congruence). done.
  - simpl. eexists. split; [done |]. split; [done |]. unfold state_of. simpl. split.
    + rewrite !deref_with_pcb_same by done. by rewrite Hd.
    + intros q Hq _. by rewrite !deref_with_pcb_other by done.
Qed.

Lemma raised_priority_is_scheduled_witness :
  exists pm',
    schedule (set_process_priority 1 20 two_ready) = Some pm' /\
    get_current_process pm' = Some 1 /\
    state_of 1 pm' = Some PROCESS_RUNNING /\
    (forall q, q <> 1 -> current_process two_ready <> Some q ->
               state_of q pm' = state_of q two_ready).
Proof.
  apply (raised_priority_is_scheduled
           (boot_two ++ [OpSetPriority 1 5; OpSetPriority 2 10])
           [RetBool true; RetInt 1; RetInt 2; RetVoid; RetVoid]).
  - reflexivity.
  - reflexivity.
  - reflexivity.
  - done.
  - repeat constructor; simpl; intros; lia.
  - done.
  - done.
Defined.

(** *** The execution unit *)

Lemma exec_work_rounds p mss : forall pm pre r post,
  process_table pm = pre ++ r :: post -> pid r = p ->
  (p ∉ pid <$> pre) -> (p ∉ pid <$> post) ->
  process_thread r = ThreadLooping ->
  fold_left (fun pm1 ms => exec_work p ms pm1) mss pm
  = set_table (pre ++ fold_left (fun c ms => add_cpu_time ms c) mss r :: post) pm.
Proof.
  induction mss as [|ms mss IH]; intros pm pre r post Ht Hp Hpre Hpost Hth; simpl.
  - rewrite <- Ht. by destruct pm.
  - rewrite (IH _ pre (add_cpu_time ms r) post); try done.
    unfold exec_work. simpl. rewrite Ht, with_pcb_split by done. by rewrite Hth.
Qed.

Lemma add_cpu_time_rounds mss : forall r,
  0 <= cpu_time r < 2 ^ 64 ->
  fold_left (fun c ms => add_cpu_time ms c) mss r
  = mkPCB (pid r) (parent_pid r) (state r) (executable_path r) (memory_base r)
          (memory_size r) (priority r) (wrap64 (cpu_time r + sum_list mss))
          (process_thread r) (should_terminate r).
Proof.
  induction mss as [|ms mss IH]; intros r Hr; simpl.
  - rewrite Z.add_0_r, wrap64_small by done. by destruct r.
  - rewrite IH by (simpl; apply wrap64_range). simpl. f_equal.
    unfold wrap64. rewrite Zplus_mod_idemp_l. f_equal. lia.
Qed.

Lemma deref_split_same pre c post :
  (pid c ∉ pid <$> pre) -> deref (pid c) (pre ++ c :: post) = Some c.
Proof.
  unfold deref. induction pre as [|x pre IH]; csimpl.
  - intros _. by rewrite Z.eqb_refl.
  - rewrite not_elem_of_cons. intros [Hne Hnin].
    destruct (Z.eqb_spec (pid x) (pid c)); [congruence | by apply IH].
Qed.

Lemma deref_split_other q pre c c' post :
  q <> pid c -> q <> pid c' ->
  deref q (pre ++ c :: post) = deref q (pre ++ c' :: post).
Proof.
  intros Hc Hc'. unfold deref. induction pre as [|x pre IH]; simpl.
  - destruct (Z.eqb_spec (pid c) q); [congruence |].
    by destruct (Z.eqb_spec (pid c') q); [congruence |].
  - by rewrite IH.
Qed.

(** X24.  The execution unit of a record, run from its first to its last
    statement with no operation of the manager in between: the record ends
    TERMINATED with the work times of the rounds added to its [cpu_time]
    modulo [2 ^ 64] and nothing else changed; no other record, nor the map,
    nor [current_process] changes; and the steps of the unit have no
    further effect once it is through. *)
Theorem execute_process_runs_to_end
    (ops : list Op) (rs : list Ret) (pm : ProcessManager) (p : Z)
    (r : ProcessControlBlock) (mss : list Z) :
  run ops new_manager = Some (rs, pm) ->
  deref p (process_table pm) = Some r ->
  process_thread r = ThreadCreated ->
  0 <= cpu_time r < 2 ^ 64 ->
  mss <> [] ->
  deref p (process_table (execute_process p mss pm))
  = Some (mkPCB p (parent_pid r) PROCESS_TERMINATED (executable_path r) (memory_base r)
                (memory_size r) (priority r) (wrap64 (cpu_time r + sum_list mss))
                ThreadFinished (should_terminate r)) /\
  (forall q, q <> p ->
     deref q (process_table (execute_process p mss pm)) = deref q (process_table pm)) /\
  pid_map (execute_process p mss pm) = pid_map pm /\
  current_process (execute_process p mss pm) = current_process pm /\
  execute_process p mss (execute_process p mss pm) = execute_process p mss pm.
Proof.
  intros Hrun Hd Hth Hcpu _. pose proof (run_booted _ _ _ Hrun) as Hb.
  destruct (booted_lookup _ _ _ Hb Hd) as (Hget & pre & post & Ht & Hp & Hpre & Hpost).
  assert (Hfinal : execute_process p mss pm
            = set_table (pre ++ mkPCB p (parent_pid r) PROCESS_TERMINATED (executable_path r)
                                  (memory_base r) (memory_size r) (priority r)
                                  (wrap64 (cpu_time r + sum_list mss))
                                  ThreadFinished (should_terminate r) :: post) pm).
  { unfold execute_process.
    rewrite (exec_work_rounds p mss _ pre (set_thread ThreadLooping PROCESS_RUNNING r) post);
      try done.
    - rewrite add_cpu_time_rounds by done. unfold exec_end. simpl.
      rewrite with_pcb_split by done. simpl. by rewrite Hp.
    - unfold exec_begin. simpl. rewrite Ht, with_pcb_split by done. by rewrite Hth. }
  assert (Hderef : forall q c, pid c = p ->
            deref q (pre ++ c :: post)
            = if bool_decide (q = p) then Some c else deref q (process_table pm)).
  { intros q c Hc. rewrite Ht. case_bool_decide as Hq.
    - subst q. rewrite <- Hc. apply deref_split_same. by rewrite Hc.
    - apply deref_split_other; [congruence | congruence]. }
  rewrite Hfinal. simpl. split.
  - rewrite Hderef by done. by rewrite bool_decide_eq_true_2.
  - split.
    + intros q Hq. rewrite Hderef by done. by rewrite bool_decide_eq_false_2.
    + split; [done |]. split; [done |].
      unfold execute_process, exec_begin. simpl. rewrite with_pcb_split by done. simpl.
      set (fin := mkPCB p _ _ _ _ _ _ _ ThreadFinished _).
      assert (Hidle : forall l pm1,
                process_table pm1 = pre ++ fin :: post ->
                fold_left (fun pm2 ms => exec_work p ms pm2) l pm1 = pm1).
      { induction l as [|ms l IH]; intros pm1 Ht1; simpl; [done |].
        assert (Hw : exec_work p ms pm1 = pm1).
        { unfold exec_work. rewrite Ht1, with_pcb_split by done. simpl.
          rewrite <- Ht1. by destruct pm1. }
        rewrite Hw. by apply IH. }
      rewrite Hidle by done. unfold exec_end. simpl. by rewrite with_pcb_split by done.
Qed.

Lemma execute_process_runs_to_end_witness :
  deref 2 (process_table (execute_process 2 [1500; 4000] two_ready))
  = Some (mkPCB 2 0 PROCESS_TERMINATED "b" 0x6000 65536 10
                (wrap64 (0 + sum_list [1500; 4000])) ThreadFinished false) /\
  (forall q, q <> 2 ->
     deref q (process_table (execute_process 2 [1500; 4000] two_ready))
     = deref q (process_table two_ready)) /\
  pid_map (execute_process 2 [1500; 4000] two_ready) = pid_map two_ready /\
  current_process (execute_process 2 [1500; 4000] two_ready) = current_process two_ready /\
  execute_process 2 [1500; 4000] (execute_process 2 [1500; 4000] two_ready)
  = execute_process 2 [1500; 4000] two_ready.
Proof.
  apply (execute_process_runs_to_end
           (boot_two ++ [OpSetPriority 1 5; OpSetPriority 2 10])
           [RetBool true; RetInt 1; RetInt 2; RetVoid; RetVoid] two_ready 2
           (mkPCB 2 0 PROCESS_READY "b" 0x6000 65536 10 0 ThreadCreated false)).
  - reflexivity.
  - reflexivity.
  - reflexivity.
  - done.
  - done.
Defined.

End ProcessRestFacts.

(** ** The kernel facade and its system calls *)

Module FacadeFacts.
Import Syscalls Facade.

(** *** MALLOC *)

Lemma to_int_small z : - 2 ^ 31 <= z < 2 ^ 31 -> to_int z = z.
Proof. intros Hz. unfold to_int. rewrite Z.mod_small by lia. lia. Qed.

Lemma to_int_range z : - 2 ^ 31 <= to_int z < 2 ^ 31.
Proof.
  unfold to_int. pose proof (Z.mod_pos_bound (z + 2 ^ 31) (2 ^ 32) ltac:(lia)). lia.
Qed.

(** X25.  MALLOC returns the pointer through an [int].  In a state that a
    session with the pool at or above [2 ^ 31], as the addresses of a 64-bit
    heap are, has reached with its calls defined, MALLOC is defined when the
    block vector has room for one more block; the value it returns for a
    defined allocation that did not fail is the pointer reduced to 32 bits
    and differs from it, while the allocation itself is made and stays
    recorded in the manager. *)
Theorem sys_malloc_truncates_pointer
    (L : Memory.StdLib) (pool : Z) (mmc : Memory.MemoryManager) (ops : list Memory.Op)
    (mm : Memory.MemoryManager) (pmo : option Process.ProcessManager)
    (params : syscall_params) :
  Memory.lib_ok L ->
  2 ^ 31 <= pool ->
  Memory.memory_blocks mmc = [] -> 0 < Memory.pool_size mmc < 2 ^ 64 ->
  forallb (fun op => negb (Memory.is_initialize op)) ops = true ->
  Memory.run L ops (snd (Memory.initialize L pool mmc)) = Some mm ->
  ((length (Memory.memory_blocks mm) < Memory.blocks_capacity mm)%nat ->
   is_Some (sys_malloc params (mkOS (Some mm) pmo))) /\
  forall p mm',
    Memory.allocate (arg1 params) mm = Some (p, mm') -> p <> 0 ->
    sys_malloc params (mkOS (Some mm) pmo) = Some (to_int p, mkOS (Some mm') pmo) /\
    to_int p < p.
Proof.
  intros HL Hpool Hnil Hpsz Hops Hrun. split.
  { intros Hroom. unfold sys_malloc, allocate_memory. simpl.
    by destruct (MemoryFacts.allocate_defined (arg1 params) mm Hroom) as [[q mm1] ->]. }
  intros p mm' Halloc Hnz.
  assert (Hs : MemoryRest.starts_inv mm).
  { eapply MemoryRestFacts.run_starts; [done | done | done |].
    apply MemoryRestFacts.initialize_starts; [lia | done | done]. }
  assert (Hpl : Memory.memory_pool mm = pool).
  { destruct (MemoryFacts.run_inv L ops _ _ HL Hops Hrun) as (_ & -> & _).
    - apply MemoryFacts.initialize_inv; [lia | done | done].
    - rewrite MemoryFacts.initialize_true by lia. done. }
  destruct (MemoryRestFacts.allocate_records_block _ _ _ _ Halloc Hnz)
    as (_ & _ & _ & _ & pre & b & post & Hbs & _ & _ & Ha & _).
  destruct Hs as [_ Hs]. rewrite Hbs in Hs.
  apply Forall_app in Hs as [_ Hs]. apply Forall_cons in Hs as [[Hlo _] _].
  unfold sys_malloc, allocate_memory. simpl. rewrite Halloc. simpl.
  split; [done |]. pose proof (to_int_range p). lia.
Qed.

Lemma sys_malloc_truncates_pointer_witness :
  exists p mm',
    Memory.allocate (arg1 malloc_64) high_init = Some (p, mm') /\
    sys_malloc malloc_64 (mkOS (Some high_init) None)
    = Some (to_int p, mkOS (Some mm') None) /\
    to_int p < p.
Proof.
  destruct (sys_malloc_truncates_pointer Memory.sample_lib high_pool Memory.warm_manager []
              high_init None malloc_64 MemoryFacts.sample_lib_ok)
    as [_ Hsound].
  - vm_compute. discriminate.
  - reflexivity.
  - by vm_compute.
  - reflexivity.
  - reflexivity.
  - eexists _, _. split; [reflexivity |].
    apply Hsound; [reflexivity | vm_compute; discriminate].
Defined.

(** *** FORK, then KILL *)

Lemma step_next_pid op pm r pm' :
  Process.step op pm = Some (r, pm') -> Process.next_pid pm <= INT_MAX ->
  Process.next_pid pm' <= INT_MAX.
Proof.
  intros Hstep Hle. destruct op; simpl in Hstep.
  - by simplify_eq.
  - unfold Process.create_process, Process.create_pcb in Hstep.
    destruct (Z.eqb_spec (Process.next_pid pm) INT_MAX) as [|Hne]; [done |].
    destruct (match Process.current_process pm with
              | Some cur => Process.pid <$> Process.deref cur (Process.process_table pm)
              | None => Some 0
              end); [| done].
    simpl in Hstep. destruct (mem =? 0); simpl in Hstep; simplify_eq/=; lia.
  - simplify_eq. unfold Process.terminate_process.
    by destruct (Process.pid_map pm !! p).
  - simplify_eq. unfold Process.suspend_process.
    by destruct (Process.pid_map pm !! p).
  - simplify_eq. unfold Process.resume_process.
    destruct (Process.pid_map pm !! p); [| done].
    destruct (Process.deref _ _); [| done]. by destruct (Process.state_eqb _ _).
  - destruct (Process.schedule pm) as [pm1|] eqn:Hs; simplify_eq/=.
    unfold Process.schedule in Hs. destruct (negb _); [by simplify_eq |].
    destruct (Process.select_next_process pm); [| by simplify_eq].
    destruct (bool_decide _); [by simplify_eq |].
    unfold Process.context_switch in Hs.
    destruct (Process.current_process pm); simpl in Hs; [| by simplify_eq].
    destruct (Process.deref _ _); by simplify_eq/=.
  - simplify_eq. unfold Process.set_process_priority.
    by destruct (Process.pid_map pm !! p).
  - destruct (Process.send_signal p signal pm) as [[b pm1]|] eqn:Hs; simplify_eq/=.
    by apply ProcessFacts.send_signal_same in Hs as ->.
  - by simplify_eq.
  - by simplify_eq.
  - by simplify_eq.
Qed.

Lemma run_next_pid ops : forall pm rs pm',
  Process.run ops pm = Some (rs, pm') -> Process.next_pid pm <= INT_MAX ->
  Process.next_pid pm' <= INT_MAX.
Proof.
  induction ops as [|op ops IH]; intros pm rs pm' Hrun Hle; simpl in Hrun.
  - by simplify_eq.
  - destruct (Process.step op pm) as [[r pm1]|] eqn:Hstep; [| done]. simpl in Hrun.
    destruct (Process.run ops pm1) as [[rs1 pm2]|] eqn:Hrun1; [| done].
    injection Hrun as <- <-.
    eapply IH; [done |]. by eapply step_next_pid.
Qed.

(** X26.  FORK, then KILL on the pid it returned, in a kernel whose process
    manager was reached from its constructor: the pid is [next_pid], KILL
    returns [0], and table and map are back to what they were before the
    FORK, with the pid used up. *)
Theorem fork_kill_round_trip
    (ops : list Process.Op) (rs : list Process.Ret) (pm : Process.ProcessManager)
    (mmo : option Memory.MemoryManager) (mem r : Z) (os1 : MyOS)
    (params : syscall_params) :
  Process.run ops Process.new_manager = Some (rs, pm) ->
  sys_fork mem (mkOS mmo (Some pm)) = Some (r, os1) ->
  r <> -1 ->
  arg1 params = r ->
  r = Process.next_pid pm /\
  exists pm2,
    sys_kill params os1 = (0, mkOS mmo (Some pm2)) /\
    Process.process_table pm2 = Process.process_table pm /\
    Process.pid_map pm2 = Process.pid_map pm /\
    Process.next_pid pm2 = Process.next_pid pm + 1.
Proof.
  intros Hrun Hfork Hr Harg.
  destruct (ProcessRestFacts.run_booted _ _ _ Hrun) as (hist & Hinv & Htr).
  pose proof (run_next_pid _ _ _ _ Hrun ltac:(by vm_compute)) as Hmax.
  unfold sys_fork, create_process in Hfork. simpl in Hfork.
  unfold Process.create_process, Process.create_pcb in Hfork.
  destruct (Z.eqb_spec (Process.next_pid pm) INT_MAX) as [|Hne]; [done |].
  destruct (match Process.current_process pm with
            | Some cur => Process.pid <$> Process.deref cur (Process.process_table pm)
            | None => Some 0
            end) as [parent|]; [| done].
  simpl in Hfork. destruct (mem =? 0); simpl in Hfork; injection Hfork as <- <-; [done |].
  split; [done |].
  assert (Hfresh : Process.next_pid pm ∉ Process.table_pids pm).
  { intros Hin. pose proof (ProcessRestFacts.table_pids_below _ _ _ Hinv Hin). lia. }
  assert (Hnone : Process.pid_map pm !! Process.next_pid pm = None).
  { destruct (Process.pid_map pm !! Process.next_pid pm) as [q|] eqn:Hq; [| done].
    apply Htr in Hq as [_ Hq]. done. }
  destruct Hinv as (Hone & _).
  unfold sys_kill, Syscalls.sys_kill, kernel_terminate_process. simpl.
  rewrite Harg, to_int_small by (unfold INT_MAX in *; lia).
  unfold Process.terminate_process. simpl. rewrite lookup_insert_eq. simpl.
  eexists. split; [done |]. simpl. split; [| split; [| done]].
  - rewrite List.filter_app. simpl. rewrite Z.eqb_refl. simpl. rewrite app_nil_r.
    unfold Process.table_pids in Hfresh.
    induction (Process.process_table pm) as [|c t IH]; simpl; [done |].
    csimpl in Hfresh. apply not_elem_of_cons in Hfresh as [Hc Ht].
    destruct (Z.eqb_spec (Process.pid c) (Process.next_pid pm)); [congruence |].
    simpl. by rewrite IH.
  - by apply delete_insert_id.
Qed.

Lemma fork_kill_round_trip_witness :
  3 = Process.next_pid Process.two_ready /\
  exists pm2,
    sys_kill kill_3 (mkOS None (Some forked_two)) = (0, mkOS None (Some pm2)) /\
    Process.process_table pm2 = Process.process_table Process.two_ready /\
    Process.pid_map pm2 = Process.pid_map Process.two_ready /\
    Process.next_pid pm2 = Process.next_pid Process.two_ready + 1.
Proof.
  apply (fork_kill_round_trip
           (Process.boot_two ++ [Process.OpSetPriority 1 5; Process.OpSetPriority 2 10])
           [Process.RetBool true; Process.RetInt 1; Process.RetInt 2;
            Process.RetVoid; Process.RetVoid]
           Process.two_ready None 0x9000 3 (mkOS None (Some forked_two)) kill_3).
  - reflexivity.
  - reflexivity.
  - done.
  - reflexivity.
Defined.

End FacadeFacts.
